(** * Continuous-line puzzle: graph construction and subtour elimination

    A shallow embedding of the grid graph, the degree constraints, the
    cycle walk [subtour] and the cutting loop of the continuous-line
    scripts (5_continuous_line/continuous_line_tsp_dfj_*.py), together with
    the properties of them that the specification states. *)

From stdpp Require Import gmap list sorting.

Local Open Scope Z_scope.

(** ** Data model *)

(** [class Cell]: a pair of integer coordinates. *)
Record Cell := mkCell { row : Z; col : Z }.

(** [class Node]: wraps a cell.  The two mutable lists of a node,
    [ongoing_arcs] and [incoming_arcs], live in the graph's store below.
    Nodes are compared by identity in the class-based scripts and by value in
    the tuple-based one; the two agree because no two nodes of [N] wrap the
    same cell (lemma [N_NoDup]). *)
Record Node := mkNode { cell : Cell }.

(** An arc is the tuple [(origin, destination)]. *)
Definition Arc : Type := Node * Node.

Global Instance Cell_eq_dec : EqDecision Cell.
Proof. solve_decision. Defined.

Global Instance Node_eq_dec : EqDecision Node.
Proof. solve_decision. Defined.

Global Instance Cell_countable : Countable Cell.
Proof.
  apply (inj_countable' (λ c, (row c, col c)) (λ p, mkCell p.1 p.2)).
  by intros [].
Defined.

Global Instance Node_countable : Countable Node.
Proof. apply (inj_countable' cell mkNode). by intros []. Defined.

(** [dummy_node = Node(Cell(0, 0))]. *)
Definition dummy_node : Node := mkNode (mkCell 0 0).

(** Python's [range(lo, hi)]. *)
Definition range (lo hi : Z) : list Z := seqZ lo (hi - lo).

(** ** Creating nodes

<<
N = []
for i in range(1, num_rows + 1):
    for j in range(1, num_cols + 1):
        if (i, j) not in H:
            N.append(Node(Cell(i, j)))
dummy_node = Node(Cell(0, 0))
N.append(dummy_node)
>> *)
Definition real_nodes (num_rows num_cols : Z) (H : list (Z * Z)) : list Node :=
  i ← range 1 (num_rows + 1);
  j ← range 1 (num_cols + 1);
  if bool_decide ((i, j) ∉ H) then [mkNode (mkCell i j)] else [].

Definition create_nodes (num_rows num_cols : Z) (H : list (Z * Z)) : list Node :=
  real_nodes num_rows num_cols H ++ [dummy_node].

(** The script with the sequence variables keeps the dummy node out of [N]
    and iterates over [N + [dummy_node]]:
<<
dummy_node = Node(Cell(-1, -1))
...
for node in N + [dummy_node]:
>> *)
Definition dummy_node_seq : Node := mkNode (mkCell (-1) (-1)).

Definition nodes_seq (num_rows num_cols : Z) (H : list (Z * Z)) : list Node :=
  real_nodes num_rows num_cols H ++ [dummy_node_seq].

(** The cells of the grid in row-major order, as a reference enumeration. *)
Definition row_major_cells (num_rows num_cols : Z) : list (Z * Z) :=
  i ← range 1 (num_rows + 1); j ← range 1 (num_cols + 1); [(i, j)].

(** ** Creating arcs *)

(** The condition of the [if] in the arc loop. *)
Definition arc_rule (origin destination : Node) : bool :=
  xorb (bool_decide (origin = dummy_node)) (bool_decide (destination = dummy_node))
  || (bool_decide (row (cell origin) = row (cell destination))
        && bool_decide (Z.abs (col (cell origin) - col (cell destination)) = 1)
      || bool_decide (col (cell origin) = col (cell destination))
        && bool_decide (Z.abs (row (cell origin) - row (cell destination)) = 1)).

(** The arc list [A] and the per-node lists the loop appends to. *)
Record Graph := mkGraph {
  A : list Arc;
  ongoing_arcs : gmap Node (list Arc);
  incoming_arcs : gmap Node (list Arc)
}.

Definition empty_graph : Graph := mkGraph [] ∅ ∅.

(** [node.lst.append(a)]; a node that was never appended to holds [[]]. *)
Definition append_arc (store : gmap Node (list Arc)) (v : Node) (a : Arc)
  : gmap Node (list Arc) :=
  <[v := store !!! v ++ [a]]> store.

(** The body of the [if]:
<<
A.append((origin, destination))
origin.ongoing_arcs.append((origin, destination))
destination.incoming_arcs.append((origin, destination))
>> *)
Definition add_arc (g : Graph) (origin destination : Node) : Graph :=
  {| A := A g ++ [(origin, destination)];
     ongoing_arcs := append_arc (ongoing_arcs g) origin (origin, destination);
     incoming_arcs := append_arc (incoming_arcs g) destination (origin, destination) |}.

Definition arc_step (origin : Node) (g : Graph) (destination : Node) : Graph :=
  if arc_rule origin destination then add_arc g origin destination else g.

(** [for origin in N: for destination in N: if ...: ...]. *)
Definition create_arcs (N : list Node) : Graph :=
  foldl (λ g origin, foldl (arc_step origin) g N) empty_graph N.

(** The arc list as a comprehension; [create_arcs_A] shows it is the [A]
    that the loop builds. *)
Definition arcs_from (N : list Node) (origin : Node) : list Arc :=
  destination ← N; if arc_rule origin destination then [(origin, destination)] else [].

Definition arcs_of (N : list Node) : list Arc := origin ← N; arcs_from N origin.

(** Grid adjacency of two cells: same row and columns one apart, or same
    column and rows one apart. *)
Definition adjacent (u v : Node) : Prop :=
  (row (cell u) = row (cell v) ∧ Z.abs (col (cell u) - col (cell v)) = 1)
  ∨ (col (cell u) = col (cell v) ∧ Z.abs (row (cell u) - row (cell v)) = 1).

(** The grid graph of an instance. *)
Definition grid_graph (num_rows num_cols : Z) (H : list (Z * Z)) : Graph :=
  create_arcs (create_nodes num_rows num_cols H).

(** ** Outcomes of running the Python code *)

Inductive py_error := KeyError | IndexError | AssertionError | NameError | TypeError.

(** A run returns a value, raises, or is still looping when the fuel of the
    model is used up. *)
Inductive outcome (T : Type) :=
  | Returned (t : T)
  | Raised (e : py_error)
  | OutOfFuel.
Arguments Returned {T} t.
Arguments Raised {T} e.
Arguments OutOfFuel {T}.

(** The top of every script: nodes, then arcs.  Nothing in it raises. *)
Definition build_graph (num_rows num_cols : Z) (H : list (Z * Z))
  : outcome (list Node * Graph) :=
  let N := create_nodes num_rows num_cols H in
  Returned (N, create_arcs N).

(** A hole inside the grid [1..num_rows] x [1..num_cols]. *)
Definition in_bounds (num_rows num_cols : Z) (c : Z * Z) : Prop :=
  1 ≤ c.1 ≤ num_rows ∧ 1 ≤ c.2 ≤ num_cols.

Global Instance in_bounds_dec num_rows num_cols c : Decision (in_bounds num_rows num_cols c).
Proof. unfold in_bounds. apply _. Defined.

(** ** The model: variables, constraints, assignments *)

Inductive sense := LE | EQ.

(** [name=f'origin_{node}'], [name=f'destination_{node}'], or no name. *)
Inductive cname :=
  | origin_ (node : Node)
  | destination_ (node : Node)
  | unnamed.

(** A linear constraint [sum(x[a] for a in terms) rel rhs]. *)
Record LpConstraint := mkConstraint {
  terms : list Arc;
  rel : sense;
  rhs : Z;
  name : cname
}.

(** [mdl]: the keys of the binary variables [x], the constraints added so
    far, and the arcs summed in the objective. *)
Record Model := mkModel {
  vars : list Arc;
  constraints : list LpConstraint;
  objective : list Arc
}.

Definition addConstraint (mdl : Model) (c : LpConstraint) : Model :=
  {| vars := vars mdl; constraints := constraints mdl ++ [c]; objective := objective mdl |}.

(** The two degree constraints of one node, when arcs leave and enter it:
<<
mdl.addConstraint(sum(x[out] for out in node.ongoing_arcs) == 1, name=f'origin_{node}')
mdl.addConstraint(sum(x[into] for into in node.incoming_arcs) == 1, name=f'destination_{node}')
>> *)
Definition degree_origin (g : Graph) (node : Node) : LpConstraint :=
  mkConstraint (ongoing_arcs g !!! node) EQ 1 (origin_ node).

Definition degree_destination (g : Graph) (node : Node) : LpConstraint :=
  mkConstraint (incoming_arcs g !!! node) EQ 1 (destination_ node).

(** The model that [x = LpVariable.dicts(indexs=A, cat=LpBinary)], then
    [for node in N] the two constraints, then
    [mdl.setObjective(sum(x[a] for a in A))] leave when every sum has a
    term; [build_model] below runs these steps as the script does, with
    what happens when a sum has none. *)
Definition formulate (g : Graph) (N : list Node) : Model :=
  let mdl := mkModel (A g) [] [] in
  let mdl := foldl (λ mdl node,
               addConstraint (addConstraint mdl (degree_origin g node))
                             (degree_destination g node)) mdl N in
  {| vars := vars mdl; constraints := constraints mdl; objective := A g |}.

(** The value of [sum(x[a] for a in arcs) == 1].  Python's [sum] starts
    from the integer 0: with a term the sum is an expression of the
    modelling library and [== 1] makes a constraint of it; with no term it is
    the integer 0, and [0 == 1] is the bool [False]. *)
Inductive py_value := Constr (c : LpConstraint) | PyBool (b : bool).

Definition sum_eq_1 (arcs : list Arc) (name : cname) : py_value :=
  match arcs with
  | [] => PyBool false
  | _ => Constr (mkConstraint arcs EQ 1 name)
  end.

(** What the loop [for node in N] hands to [addConstraint], in order. *)
Definition degree_values (g : Graph) (N : list Node) : list py_value :=
  node ← N;
  [ sum_eq_1 (ongoing_arcs g !!! node) (origin_ node);
    sum_eq_1 (incoming_arcs g !!! node) (destination_ node) ].


(** PuLP's [addConstraint] takes a constraint and raises [TypeError] on
    anything else. *)
Definition pulp_addConstraint (mdl : Model) (v : py_value) : outcome Model :=
  match v with
  | Constr c => Returned (addConstraint mdl c)
  | PyBool _ => Raised TypeError
  end.

Fixpoint pulp_addConstraints (mdl : Model) (vs : list py_value) : outcome Model :=
  match vs with
  | [] => Returned mdl
  | v :: vs =>
      match pulp_addConstraint mdl v with
      | Returned mdl => pulp_addConstraints mdl vs
      | Raised e => Raised e
      | OutOfFuel => OutOfFuel
      end
  end.

(** The model building of the PuLP script: the variables, the degree
    constraints node by node, the objective. *)
Definition build_model (g : Graph) (N : list Node) : outcome Model :=
  match pulp_addConstraints (mkModel (A g) [] []) (degree_values g N) with
  | Returned mdl =>
      Returned {| vars := vars mdl; constraints := constraints mdl; objective := A g |}
  | Raised e => Raised e
  | OutOfFuel => OutOfFuel
  end.

(** The values of the variables after a solve. *)
Definition assignment : Type := Arc → Z.

(** Python's [sum]: starts from 0 and adds from the left. *)
Definition py_sum (l : list Z) : Z := foldl Z.add 0 l.

Definition lhs (x : assignment) (c : LpConstraint) : Z := py_sum (x <$> terms c).

Definition satisfies (x : assignment) (c : LpConstraint) : Prop :=
  match rel c with
  | LE => lhs x c ≤ rhs c
  | EQ => lhs x c = rhs c
  end.

Global Instance satisfies_dec x c : Decision (satisfies x c).
Proof. unfold satisfies. destruct (rel c); apply _. Defined.

(** [cat=LpBinary]: every variable is 0 or 1. *)
Definition binary (x : assignment) (keys : list Arc) : Prop :=
  Forall (λ a, x a = 0 ∨ x a = 1) keys.

(** What a solve that succeeds returns. *)
Definition feasible (x : assignment) (mdl : Model) : Prop :=
  binary x (vars mdl) ∧ Forall (satisfies x) (constraints mdl).

Global Instance feasible_dec x mdl : Decision (feasible x mdl).
Proof. unfold feasible, binary. apply _. Defined.

(** ** The cycle walk [subtour] of the iterative scripts *)

Section Subtour.
Variable A_ : list Arc.
Variable x : assignment.

(** [x[a].value() == 1]. *)
Definition selected (a : Arc) : bool := bool_decide (x a = 1).

(** [sol = {a[0]: a[1] for a in A if x[a].value() == 1}]: a later arc
    with the same origin overwrites an earlier one. *)
Definition sol_dict : gmap Node Node :=
  foldl (λ sol a, if selected a then <[a.1 := a.2]> sol else sol) ∅ A_.

(** [init = None; for a in A: if x[a].value() == 1: init = a[0]]. *)
Definition scan_init : option Node :=
  foldl (λ init a, if selected a then Some a.1 else init) None A_.

(** The [while next != dummy_node] loop; [sol[next]] raises [KeyError]
    on a missing key. *)
Fixpoint walk (fuel : nat) (sol : gmap Node Node) (next : Node)
    (arc_cycle : list Arc) : outcome (list Arc) :=
  match fuel with
  | O => OutOfFuel
  | S fuel =>
      if bool_decide (next ≠ dummy_node) then
        let previous := next in
        match sol !! next with
        | None => Raised KeyError
        | Some next => walk fuel sol next (arc_cycle ++ [(previous, next)])
        end
      else Returned arc_cycle
  end.

(** [arc_cycle.append((arc_cycle[len(arc_cycle) - 1][1], arc_cycle[0][0]))]:
    both subscripts raise [IndexError] on the empty list. *)
Definition close_cycle (arc_cycle : list Arc) : outcome (list Arc) :=
  match last arc_cycle, head arc_cycle with
  | Some l, Some h => Returned (arc_cycle ++ [(l.2, h.1)])
  | _, _ => Raised IndexError
  end.

Definition subtour (fuel : nat) : outcome (list Arc) :=
  let sol := sol_dict in
  match scan_init with
  | None => Raised KeyError
  | Some init =>
      match sol !! init with
      | None => Raised KeyError
      | Some next =>
          match walk fuel sol next [] with
          | Returned arc_cycle => close_cycle arc_cycle
          | Raised e => Raised e
          | OutOfFuel => OutOfFuel
          end
      end
  end.
End Subtour.

(** ** Elimination constraints *)

(** [itertools.permutations(nodes, 2)]: the ordered pairs of elements at
    two different positions, in position order. *)
Definition permutations2 {T} (l : list T) : list (T * T) :=
  p ← imap pair l; q ← imap pair l;
  if bool_decide (p.1 ≠ q.1) then [(p.2, q.2)] else [].

(** The constraint of the iterative scripts and of the tuple-based callback:
<<
nodes = [a[0] for a in tour]
mdl.addConstraint(sum(x[(i,j)] for i, j in permutations(nodes, 2) if (i, j) in A) <= len(tour) - 1)
>> *)
Definition elimination_constraint (A_ : list Arc) (tour : list Arc) : LpConstraint :=
  let nodes := tour.*1 in
  mkConstraint (filter (λ ij, ij ∈ A_) (permutations2 nodes)) LE
               (Z.of_nat (length tour) - 1) unnamed.

(** The constraint written in the callback [subtourelim] of the
    class-based Gurobi script, behind a test that [subtourelim_edges] below
    shows is never passed:
<<
# add subtour elimination constr. for every pair of cities in tour
model.cbLazy(gp.quicksum(model._vars[a] for a in tour) <= len(tour) - 1)
>> *)
Definition subtourelim_constraint (tour : list Arc) : LpConstraint :=
  mkConstraint tour LE (Z.of_nat (length tour) - 1) unnamed.

(** The callbacks test the tour their [subtour] returned the way the loop
    does, [if n > len(tour) > 1], and hand the constraint to the solver. *)
Definition lazy_cut (n : nat) (tour : list Arc) (c : LpConstraint) : option LpConstraint :=
  if bool_decide (length tour < n)%nat && bool_decide (1 < length tour)%nat
  then Some c else None.

(** [subtour_constraint] of the tuple-based Gurobi script, from [cycle] on. *)
Definition subtour_constraint (A_ : list Arc) (n : nat) (cycle : list Arc)
  : option LpConstraint :=
  lazy_cut n cycle (elimination_constraint A_ cycle).

(** ** The elimination loop

<<
tour_length = 0
while tour_length < n:
    mdl.solve(solver)
    tour = subtour(mdl)
    tour_length = len(tour)
    if n > len(tour) > 1:
        nodes = [a[0] for a in tour]
        mdl.addConstraint(sum(x[(i,j)] for i, j in permutations(nodes, 2) if (i, j) in A) <= len(tour) - 1)
    print(len(mdl.constraints), tour_length, mdl.objective.value(), nodes)
>>
    The Gurobi twin of this script ends the loop body with [print(mdl)]
    instead. *)

Inductive script := calling_pulp | calling_grb.

(** The variables of the loop: the model, [tour_length] and [nodes]; the
    last one is unbound until the [if] is entered for the first time. *)
Record LoopState := mkState {
  st_mdl : Model;
  st_tour_length : nat;
  st_nodes : option (list Node)
}.

Definition initial_state (mdl : Model) : LoopState := mkState mdl 0 None.

(** The [print] that ends the loop body: reading the unbound [nodes] raises
    [NameError]. *)
Definition print_line (s : script) (nodes : option (list Node)) : outcome unit :=
  match s, nodes with
  | calling_pulp, None => Raised NameError
  | _, _ => Returned ()
  end.

Section Loop.
Variable A_ : list Arc.
Variable n : nat.

(** The loop body from [tour = subtour(mdl)] to the end of the [if]. *)
Definition cut (st : LoopState) (tour : list Arc) : LoopState :=
  if bool_decide (length tour < n)%nat && bool_decide (1 < length tour)%nat
  then mkState (addConstraint (st_mdl st) (elimination_constraint A_ tour))
               (length tour) (Some (tour.*1))
  else mkState (st_mdl st) (length tour) (st_nodes st).

(** One pass through the loop body, [x] being the values the solve left
    in the variables. *)
Definition iteration (s : script) (fuel : nat) (x : assignment) (st : LoopState)
  : outcome LoopState :=
  match subtour A_ x fuel with
  | Returned tour =>
      let st := cut st tour in
      match print_line s (st_nodes st) with
      | Returned _ => Returned st
      | Raised e => Raised e
      | OutOfFuel => OutOfFuel
      end
  | Raised e => Raised e
  | OutOfFuel => OutOfFuel
  end.

(** The solver, seen from the loop: the values after [mdl.solve]. *)
Variable solve : Model → assignment.

Fixpoint elimination_loop (s : script) (budget fuel : nat) (st : LoopState)
  : outcome LoopState :=
  match budget with
  | O => if bool_decide (st_tour_length st < n)%nat then OutOfFuel else Returned st
  | S budget =>
      if bool_decide (st_tour_length st < n)%nat then
        match iteration s fuel (solve (st_mdl st)) st with
        | Returned st => elimination_loop s budget fuel st
        | Raised e => Raised e
        | OutOfFuel => OutOfFuel
        end
      else Returned st
  end.

(** After the loop: [tour = subtour(mdl); assert len(tour) == n]. *)
Definition accepted_tour (fuel : nat) (mdl : Model) : outcome (list Arc) :=
  match subtour A_ (solve mdl) fuel with
  | Returned tour =>
      if bool_decide (length tour = n) then Returned tour else Raised AssertionError
  | Raised e => Raised e
  | OutOfFuel => OutOfFuel
  end.
End Loop.

(** ** Cycles of a candidate solution *)

(** The list moved one place to the left, its head going last. *)
Definition rotate1 {T} (l : list T) : list T :=
  match l with
  | [] => []
  | h :: t => t ++ [h]
  end.

(** A cycle of the arcs selected by [x]: a non-empty list of selected arcs
    of [A], each starting where the previous one ends, the last one ending
    where the first one starts, and no node left twice. *)
Definition is_cycle (A_ : list Arc) (x : assignment) (c : list Arc) : Prop :=
  c ≠ [] ∧ Forall (λ a, a ∈ A_ ∧ x a = 1) c
  ∧ c.*2 = rotate1 (c.*1) ∧ NoDup (c.*1).

(** The decomposition of [x] into cycles contains exactly one cycle, of
    length the number of nodes: there is a cycle of that length, and there
    is no cycle of another length beside it. *)
Definition single_spanning_cycle (A_ : list Arc) (N : list Node) (x : assignment) : Prop :=
  (∃ c, is_cycle A_ x c ∧ length c = length N)
  ∧ (∀ c, is_cycle A_ x c → length c = length N).

(** ** The tuple-based callback script: [subtour] on a dict *)

(** [values[a] > 0.5], on values that are integers. *)
Definition selected_2 (x : assignment) (a : Arc) : bool := bool_decide (0 < x a).

(** A Python dict from nodes to nodes: its keys in insertion order, and its
    map. *)
Record NodeDict := mkDict {
  dict_keys : list Node;
  dict_map : gmap Node Node
}.

Definition dict_empty : NodeDict := mkDict [] ∅.

(** [d[k] = v]: a new key goes last, a key already there keeps its place. *)
Definition dict_set (d : NodeDict) (k v : Node) : NodeDict :=
  mkDict (if bool_decide (k ∈ dict_keys d) then dict_keys d else dict_keys d ++ [k])
         (<[k := v]> (dict_map d)).

(** [solution = {a[0]: a[1] for a in model._A if values[a] > 0.5}]. *)
Definition solution_of (A_ : list Arc) (x : assignment) : NodeDict :=
  foldl (λ d a, if selected_2 x a then dict_set d a.1 a.2 else d) dict_empty A_.

(** The [while next != init] loop. *)
Fixpoint walk_until (stop : Node) (fuel : nat) (sol : gmap Node Node) (next : Node)
    (arc_cycle : list Arc) : outcome (list Arc) :=
  match fuel with
  | O => OutOfFuel
  | S fuel =>
      if bool_decide (next ≠ stop) then
        let previous := next in
        match sol !! next with
        | None => Raised KeyError
        | Some next => walk_until stop fuel sol next (arc_cycle ++ [(previous, next)])
        end
      else Returned arc_cycle
  end.

(** [subtour(solution)]:
<<
init = None
for a in solution.keys():
    init = solution[a]
    break
next = solution[init]
arc_cycle = []
while next != init:
    previous = next
    next = solution[next]
    arc_cycle.append((previous, next))
arc_cycle.append((arc_cycle[len(arc_cycle) - 1][1], arc_cycle[0][0]))
return arc_cycle
>> *)
Definition subtour_2 (solution : NodeDict) (fuel : nat) : outcome (list Arc) :=
  match head (dict_keys solution) with
  | None => Raised KeyError
  | Some a =>
      match dict_map solution !! a with
      | None => Raised KeyError
      | Some init =>
          match dict_map solution !! init with
          | None => Raised KeyError
          | Some next =>
              match walk_until init fuel (dict_map solution) next [] with
              | Returned arc_cycle => close_cycle arc_cycle
              | Raised e => Raised e
              | OutOfFuel => OutOfFuel
              end
          end
      end
  end.

(** The callback at a new incumbent, [x] being its values: the lazy
    constraint it hands to the solver, if any.
<<
values = model.cbGetSolution(model._x)
solution = {a[0]: a[1] for a in model._A if values[a] > 0.5}
cycle = subtour(solution)
if model._n > len(cycle) > 1: ...
>> *)
Definition callback_2 (A_ : list Arc) (n : nat) (x : assignment) (fuel : nat)
  : outcome (option LpConstraint) :=
  match subtour_2 (solution_of A_ x) fuel with
  | Returned cycle => Returned (subtour_constraint A_ n cycle)
  | Raised e => Raised e
  | OutOfFuel => OutOfFuel
  end.

(** ** Printing the tour

<<
path = {}
for arc in tour:
    path[(arc[0].cell.row, arc[0].cell.col)] = (arc[1].cell.row, arc[1].cell.col)
sol = {}
next_node = path[(0, 0)]
k = 1
while next_node != (0, 0):
    sol[next_node] = k
    next_node = path[next_node]
    k += 1
for i in range(1, num_rows + 1):
    row = [sol[(i, j)] if (i, j) in sol else 0 for j in range(1, num_cols + 1)]
    print(row)
>> *)

Definition cell_key (v : Node) : Z * Z := (row (cell v), col (cell v)).

Definition path_of (tour : list Arc) : gmap (Z * Z) (Z * Z) :=
  foldl (λ path arc, <[cell_key arc.1 := cell_key arc.2]> path) ∅ tour.

Fixpoint number_cells (fuel : nat) (path : gmap (Z * Z) (Z * Z)) (next_node : Z * Z)
    (k : Z) (sol : gmap (Z * Z) Z) : outcome (gmap (Z * Z) Z) :=
  match fuel with
  | O => OutOfFuel
  | S fuel =>
      if bool_decide (next_node ≠ (0, 0)) then
        let sol := <[next_node := k]> sol in
        match path !! next_node with
        | None => Raised KeyError
        | Some next_node => number_cells fuel path next_node (k + 1) sol
        end
      else Returned sol
  end.

(** The rows that are printed: the number of a cell, or 0. *)
Definition rows_of (num_rows num_cols : Z) (sol : gmap (Z * Z) Z) : list (list Z) :=
  (λ i, (λ j, default 0 (sol !! (i, j))) <$> range 1 (num_cols + 1))
    <$> range 1 (num_rows + 1).

Definition print_tour (num_rows num_cols : Z) (tour : list Arc) (fuel : nat)
  : outcome (list (list Z)) :=
  let path := path_of tour in
  match path !! (0, 0) with
  | None => Raised KeyError
  | Some next_node =>
      match number_cells fuel path next_node 1 ∅ with
      | Returned sol => Returned (rows_of num_rows num_cols sol)
      | Raised e => Raised e
      | OutOfFuel => OutOfFuel
      end
  end.

(** The entry printed for the cell in row [i] and column [j]. *)
Definition entry (rows : list (list Z)) (i j : Z) : option Z :=
  rows !! Z.to_nat (i - 1) ≫= λ r, r !! Z.to_nat (j - 1).

(** The numbers [k], [k + 1], ... written to [sol] for a list of cells. *)
Fixpoint number_from (order : list Node) (k : Z) (sol : gmap (Z * Z) Z) : gmap (Z * Z) Z :=
  match order with
  | [] => sol
  | v :: order => number_from order (k + 1) (<[cell_key v := k]> sol)
  end.

(** ** The class-based callback script: [subtour] on a list of edges

    The cities this function walks are the integers of [range(n)]; the
    fields of the edges it is given are the keys of the variables, [Node]
    objects.  An integer and an object of a class without [__eq__] are
    never equal. *)
Inductive city := Int (i : nat) | Obj (v : Node).

Global Instance city_eq_dec : EqDecision city.
Proof. solve_decision. Defined.

(** [edges.select(current, '*')]: the tuples whose first field equals
    [current]. *)
Definition select (current : city) (edges : list (city * city)) : list (city * city) :=
  filter (λ e, e.1 = current) edges.

Inductive list_error := ValueError | EmptyIndexError.

Inductive list_outcome (T : Type) :=
  | Done (t : T)
  | Failed (e : list_error)
  | NoFuel.
Arguments Done {T} t.
Arguments Failed {T} e.
Arguments NoFuel {T}.

(** [l.remove(c)]: drops the first element equal to [c], raises
    [ValueError] when there is none. *)
Fixpoint list_remove (c : city) (l : list city) : option (list city) :=
  match l with
  | [] => None
  | h :: t => if decide (h = c) then Some t else (h ::.) <$> list_remove c t
  end.

(** The inner loop:
<<
while neighbors:
    current = neighbors[0]
    thiscycle.append(current)
    unvisited.remove(current)
    neighbors = [j for i, j in edges.select(current, '*')
                 if j in unvisited]
>> *)
Fixpoint visit (fuel : nat) (edges : list (city * city))
    (neighbors unvisited thiscycle : list city) : list_outcome (list city * list city) :=
  match fuel with
  | O => NoFuel
  | S fuel =>
      match neighbors with
      | [] => Done (unvisited, thiscycle)
      | current :: _ =>
          let thiscycle := thiscycle ++ [current] in
          match list_remove current unvisited with
          | None => Failed ValueError
          | Some unvisited =>
              let neighbors := filter (λ j, j ∈ unvisited) ((select current edges).*2) in
              visit fuel edges neighbors unvisited thiscycle
          end
      end
  end.

(** The outer loop:
<<
while unvisited:
    thiscycle = []
    neighbors = unvisited
    ...
    if len(cycle) > len(thiscycle):
        cycle = thiscycle
>> *)
Fixpoint shortest (fuel : nat) (edges : list (city * city))
    (unvisited cycle : list city) : list_outcome (list city) :=
  match fuel with
  | O => NoFuel
  | S fuel =>
      match unvisited with
      | [] => Done cycle
      | _ =>
          match visit fuel edges unvisited unvisited [] with
          | Done (unvisited, thiscycle) =>
              shortest fuel edges unvisited
                (if bool_decide (length thiscycle < length cycle)%nat then thiscycle else cycle)
          | Failed e => Failed e
          | NoFuel => NoFuel
          end
      end
  end.

(** The arcs of a cycle of cities:
<<
arc_cicles = []
for i in range(1, len(cycle)):
    arc_cicles.append((cycle[i-1], cycle[i]))
arc_cicles.append((cycle[len(cycle)-1], cycle[0]))
>> *)
Definition arcs_of_cycle (cycle : list city) : list_outcome (list (city * city)) :=
  match last cycle, head cycle with
  | Some l, Some h => Done (zip cycle (tail cycle) ++ [(l, h)])
  | _, _ => Failed EmptyIndexError
  end.

(** [subtour(edges)], with [unvisited = list(range(n))] and
    [cycle = range(n + 1)]. *)
Definition subtour_edges (n : nat) (edges : list (city * city)) (fuel : nat)
  : list_outcome (list (city * city)) :=
  match shortest fuel edges (Int <$> seq 0 n) (Int <$> seq 0 (n + 1)) with
  | Done cycle => arcs_of_cycle cycle
  | Failed e => Failed e
  | NoFuel => NoFuel
  end.

(** [selected = gp.tuplelist((i, j) for i, j in model._vars.keys() if vals[i, j] > 0.5)]. *)
Definition selected_edges (A_ : list Arc) (x : assignment) : list (city * city) :=
  (λ a, (Obj a.1, Obj a.2)) <$> filter (λ a, 0 < x a) A_.

(** The callback [subtourelim] at a new incumbent: whether it reaches
    [model.cbLazy], and with which tour. *)
Definition subtourelim_edges (A_ : list Arc) (n : nat) (x : assignment) (fuel : nat)
  : list_outcome (option (list (city * city))) :=
  match subtour_edges n (selected_edges A_ x) fuel with
  | Done tour =>
      Done (if bool_decide (length tour < n)%nat && bool_decide (1 < length tour)%nat
            then Some tour else None)
  | Failed e => Failed e
  | NoFuel => NoFuel
  end.

(** After the solve: [tour = subtour(selected); assert len(tour) == n]. *)
Definition assert_tour_edges (A_ : list Arc) (n : nat) (x : assignment) (fuel : nat)
  : list_outcome bool :=
  match subtour_edges n (selected_edges A_ x) fuel with
  | Done tour => Done (bool_decide (length tour = n))
  | Failed e => Failed e
  | NoFuel => NoFuel
  end.

(** ** The scripts with sequence variables

    Besides the binary [x] these scripts have one integer variable [u] per
    node, and one constraint per arc that joins two real nodes:
<<
for arc in A:
    if arc.origin != dummy_node and arc.destination != dummy_node:
        mdl.addConstraint(u[arc.origin] - u[arc.destination] + 1 <= n * (1 - x[arc]), ...)
>> *)
Record SeqConstraint := mkSeq {
  seq_origin : Node;
  seq_destination : Node;
  seq_n : Z
}.

Definition seq_satisfies (x : assignment) (u : Node → Z) (c : SeqConstraint) : Prop :=
  u (seq_origin c) - u (seq_destination c) + 1
  ≤ seq_n c * (1 - x (seq_origin c, seq_destination c)).

Global Instance seq_satisfies_dec x u c : Decision (seq_satisfies x u c).
Proof. unfold seq_satisfies. apply _. Defined.

Definition sequence_constraints (dummy : Node) (A_ : list Arc) (n : Z) : list SeqConstraint :=
  arc ← A_;
  if bool_decide (arc.1 ≠ dummy) && bool_decide (arc.2 ≠ dummy)
  then [mkSeq arc.1 arc.2 n] else [].

(** A model with both kinds of variables: the model of the [x] with the
    degree constraints, the keys and the bounds of the [u], and the
    sequence constraints. *)
Record SeqModel := mkSeqModel {
  base : Model;
  u_keys : list Node;
  u_lowBound : option Z;
  u_upBound : Z;
  sequence : list SeqConstraint
}.

Definition within_bounds (m : SeqModel) (z : Z) : Prop :=
  match u_lowBound m with
  | Some lo => lo ≤ z
  | None => True
  end ∧ z ≤ u_upBound m.

Global Instance within_bounds_dec m z : Decision (within_bounds m z).
Proof. unfold within_bounds. destruct (u_lowBound m); apply _. Defined.

(** What a solve that succeeds returns. *)
Definition seq_feasible (x : assignment) (u : Node → Z) (m : SeqModel) : Prop :=
  feasible x (base m)
  ∧ Forall (λ v, within_bounds m (u v)) (u_keys m)
  ∧ Forall (seq_satisfies x u) (sequence m).

Global Instance seq_feasible_dec x u m : Decision (seq_feasible x u m).
Proof. unfold seq_feasible. apply _. Defined.

(** The two scripts whose dummy node is the last node of [N]. *)
Inductive mtz_script := mtz_pulp | mtz_grb.

(** [for node in N] in the PuLP script, [for node in N + [dummy_node]] in
    the Gurobi script. *)
Definition mtz_degree_nodes (s : mtz_script) (N : list Node) : list Node :=
  match s with
  | mtz_pulp => N
  | mtz_grb => N ++ [dummy_node]
  end.

(** [n = len(N)] in the PuLP script, [n = len(N) + 1] in the Gurobi
    script. *)
Definition mtz_n (s : mtz_script) (N : list Node) : Z :=
  match s with
  | mtz_pulp => Z.of_nat (length N)
  | mtz_grb => Z.of_nat (length N) + 1
  end.

(** [[node for node in N if node != dummy_node]]. *)
Definition but_dummy (N : list Node) : list Node := filter (λ node, node ≠ dummy_node) N.

(** [u = LpVariable.dicts(indexs=N_but_dummy, cat=LpInteger, lowBound=1,
    upBound=len(N_but_dummy))]. *)
Definition formulate_mtz (s : mtz_script) (num_rows num_cols : Z) (H : list (Z * Z))
  : SeqModel :=
  let N := create_nodes num_rows num_cols H in
  let g := create_arcs N in
  let N_but_dummy := but_dummy N in
  {| base := formulate g (mtz_degree_nodes s N);
     u_keys := N_but_dummy;
     u_lowBound := Some 1;
     u_upBound := Z.of_nat (length N_but_dummy);
     sequence := sequence_constraints dummy_node (A g) (mtz_n s N) |}.

(** [u_sol = {(node.cell.row, node.cell.col): int(round(u[node].value()))
    for node in N if node != dummy_node}]. *)
Definition u_sol_of (nodes : list Node) (u : Node → Z) : gmap (Z * Z) Z :=
  foldl (λ u_sol node, <[cell_key node := u node]> u_sol) ∅ nodes.

(** [row = [u_sol[i, j] if (i, j) in u_sol else 0 for j in range(1, num_cols + 1)]]. *)
Definition print_mtz (num_rows num_cols : Z) (H : list (Z * Z)) (u : Node → Z)
  : list (list Z) :=
  rows_of num_rows num_cols (u_sol_of (but_dummy (create_nodes num_rows num_cols H)) u).

(** *** The script whose dummy node is outside [N]

<<
A = []
for node in N:
    A.append(Arc(node, dummy_node))
    A.append(Arc(dummy_node, node))
for origin in N:
    for destination in N:
        if origin.cell.row == destination.cell.row and abs(origin.cell.col - destination.cell.col) == 1 or \
                origin.cell.col == destination.cell.col and abs(origin.cell.row - destination.cell.row) == 1:
            A.append(Arc(origin, destination))
>> *)
Definition adjacent_rule (origin destination : Node) : bool :=
  bool_decide (row (cell origin) = row (cell destination))
    && bool_decide (Z.abs (col (cell origin) - col (cell destination)) = 1)
  || bool_decide (col (cell origin) = col (cell destination))
    && bool_decide (Z.abs (row (cell origin) - row (cell destination)) = 1).

Definition dummy_arcs_step (g : Graph) (node : Node) : Graph :=
  add_arc (add_arc g node dummy_node_seq) dummy_node_seq node.

Definition adjacent_step (origin : Node) (g : Graph) (destination : Node) : Graph :=
  if adjacent_rule origin destination then add_arc g origin destination else g.

Definition create_arcs_seq (N : list Node) : Graph :=
  let g := foldl dummy_arcs_step empty_graph N in
  foldl (λ g origin, foldl (adjacent_step origin) g N) g N.

(** [u] over [N + [dummy_node]] with [upBound=len(N)] and no lower bound;
    the degree constraints [for node in N + [dummy_node]]; [n = len(N) + 1]. *)
Definition formulate_seq (num_rows num_cols : Z) (H : list (Z * Z)) : SeqModel :=
  let N := real_nodes num_rows num_cols H in
  let g := create_arcs_seq N in
  {| base := formulate g (N ++ [dummy_node_seq]);
     u_keys := N ++ [dummy_node_seq];
     u_lowBound := None;
     u_upBound := Z.of_nat (length N);
     sequence := sequence_constraints dummy_node_seq (A g) (Z.of_nat (length N) + 1) |}.

(** What this script prints for a cell: a number, or ['X'].
<<
u_sol = {(node.cell.row, node.cell.col): int(round(u[node].value())) for node in N}
for i in range(1, num_rows + 1):
    row = [u_sol[i, j] if (i, j) in u_sol else 'X' for j in range(1, num_rows + 1)]
>> *)
Inductive shown := Num (k : Z) | X_mark.

Definition shown_at (rows : list (list shown)) (i j : Z) : option shown :=
  rows !! Z.to_nat (i - 1) ≫= λ r, r !! Z.to_nat (j - 1).

Definition print_seq (num_rows num_cols : Z) (H : list (Z * Z)) (u : Node → Z)
  : list (list shown) :=
  let u_sol := u_sol_of (real_nodes num_rows num_cols H) u in
  (λ i, (λ j, match u_sol !! (i, j) with
              | Some k => Num k
              | None => X_mark
              end) <$> range 1 (num_rows + 1))
    <$> range 1 (num_rows + 1).

(** ** Row-major order *)

Definition row_major_lt (u v : Node) : Prop :=
  row (cell u) < row (cell v)
  ∨ (row (cell u) = row (cell v) ∧ col (cell u) < col (cell v)).

Definition node_of (p : Z * Z) : Node := mkNode (mkCell p.1 p.2).

(** ** Candidate solutions on small grids *)

Definition node (r c : Z) : Node := mkNode (mkCell r c).

(** The assignment that selects exactly the arcs of a list. *)
Definition selecting (arcs : list Arc) : assignment :=
  λ a, if bool_decide (a ∈ arcs) then 1 else 0.

(** 1 x 2 grid, one cycle through the three nodes. *)
Definition tour_1x2 : list Arc :=
  [(node 1 1, node 1 2); (node 1 2, dummy_node); (dummy_node, node 1 1)].

(** The places of the two cells on that cycle. *)
Definition u_1x2 : Node → Z := λ v, if bool_decide (v = node 1 1) then 1 else 2.

(** The same grid in the script whose dummy node is outside [N]: the cycle
    through the three nodes, and labels that increase along it without being
    the places of the cells. *)
Definition tour_seq_1x2 : list Arc :=
  [(node 1 1, node 1 2); (node 1 2, dummy_node_seq); (dummy_node_seq, node 1 1)].

Definition u_seq_1x2 : Node → Z :=
  λ v, if bool_decide (v = node 1 2) then 2 else 0.

(** 2 x 2 grid, two cycles: one through the dummy node and the first column,
    one along the second column. *)
Definition dummy_cycle_2x2 : list Arc :=
  [(node 1 1, node 2 1); (node 2 1, dummy_node); (dummy_node, node 1 1)].

Definition other_cycle_2x2 : list Arc :=
  [(node 1 2, node 2 2); (node 2 2, node 1 2)].

Definition x_2x2 : assignment := selecting (dummy_cycle_2x2 ++ other_cycle_2x2).

(** 2 x 2 grid, one cycle through the five nodes. *)
Definition tour_2x2 : list Arc :=
  [(dummy_node, node 1 1); (node 1 1, node 1 2); (node 1 2, node 2 2);
   (node 2 2, node 2 1); (node 2 1, dummy_node)].

(** A solver for the 2 x 2 grid: the two cycles as long as the model has
    only its ten degree constraints, the tour after that. *)
Definition solve_2x2 (mdl : Model) : assignment :=
  if bool_decide (length (constraints mdl) ≤ 10)%nat then x_2x2 else selecting tour_2x2.

(** 2 x 3 grid, two cycles: one through the dummy node and the first column,
    one around the other four cells. *)
Definition dummy_cycle_2x3 : list Arc :=
  [(dummy_node, node 1 1); (node 1 1, node 2 1); (node 2 1, dummy_node)].

Definition other_cycle_2x3 : list Arc :=
  [(node 1 2, node 1 3); (node 1 3, node 2 3); (node 2 3, node 2 2); (node 2 2, node 1 2)].

Definition x_2x3 : assignment := selecting (dummy_cycle_2x3 ++ other_cycle_2x3).

Global Instance sense_eq_dec : EqDecision sense.
Proof. solve_decision. Defined.

Global Instance cname_eq_dec : EqDecision cname.
Proof. solve_decision. Defined.

Global Instance LpConstraint_eq_dec : EqDecision LpConstraint.
Proof. solve_decision. Defined.

Global Instance is_cycle_dec (A_ : list Arc) x c : Decision (is_cycle A_ x c).
Proof. unfold is_cycle. apply _. Defined.

(** Closed facts about the candidates above are settled by evaluation. *)
Ltac by_evaluation := apply (bool_decide_unpack _); vm_compute; exact I.

(** ** Facts about node creation *)

Lemma elem_of_range lo hi k : k ∈ range lo hi ↔ lo ≤ k < hi.
Proof. unfold range. rewrite elem_of_seqZ. lia. Qed.

Lemma elem_of_real_nodes num_rows num_cols H v :
  v ∈ real_nodes num_rows num_cols H ↔
  1 ≤ row (cell v) ≤ num_rows ∧ 1 ≤ col (cell v) ≤ num_cols
  ∧ (row (cell v), col (cell v)) ∉ H.
Proof.
  unfold real_nodes. rewrite list_elem_of_bind. split.
  - intros (i & Hv & Hi). apply list_elem_of_bind in Hv as (j & Hv & Hj).
    apply elem_of_range in Hi, Hj. case_bool_decide; [|by apply elem_of_nil in Hv].
    apply list_elem_of_singleton in Hv as ->. simpl. split_and!; [lia..|done].
  - intros (Hr & Hc & Hh). exists (row (cell v)). split; [|apply elem_of_range; lia].
    apply list_elem_of_bind. exists (col (cell v)). split; [|apply elem_of_range; lia].
    rewrite bool_decide_eq_true_2 by done. destruct v as [[]]. simpl. by left.
Qed.

Lemma dummy_not_real num_rows num_cols H : dummy_node ∉ real_nodes num_rows num_cols H.
Proof. rewrite elem_of_real_nodes. simpl. lia. Qed.

Lemma elem_of_create_nodes num_rows num_cols H v :
  v ∈ create_nodes num_rows num_cols H ↔
  v ∈ real_nodes num_rows num_cols H ∨ v = dummy_node.
Proof. unfold create_nodes. by rewrite elem_of_app, list_elem_of_singleton. Qed.

Lemma real_nodes_NoDup num_rows num_cols H : NoDup (real_nodes num_rows num_cols H).
Proof.
  unfold real_nodes. apply NoDup_bind.
  - intros i1 i2 v _ _ H1 H2.
    apply list_elem_of_bind in H1 as (j1 & H1 & _), H2 as (j2 & H2 & _).
    repeat case_bool_decide; try by (apply elem_of_nil in H1 || apply elem_of_nil in H2).
    apply list_elem_of_singleton in H1, H2. congruence.
  - intros i _. apply NoDup_bind.
    + intros j1 j2 v _ _ H1 H2.
      repeat case_bool_decide; try by (apply elem_of_nil in H1 || apply elem_of_nil in H2).
      apply list_elem_of_singleton in H1, H2. congruence.
    + intros j _. case_bool_decide; [apply NoDup_singleton|apply NoDup_nil_2].
    + apply NoDup_seqZ.
  - apply NoDup_seqZ.
Qed.

Lemma N_NoDup num_rows num_cols H : NoDup (create_nodes num_rows num_cols H).
Proof.
  unfold create_nodes. apply NoDup_app. split_and!.
  - apply real_nodes_NoDup.
  - intros v Hv ->%list_elem_of_singleton. by apply dummy_not_real in Hv.
  - apply NoDup_singleton.
Qed.

(** ** Facts about arc creation *)

Lemma arc_rule_spec origin destination :
  arc_rule origin destination = true ↔
  (origin = dummy_node ∧ destination ≠ dummy_node)
  ∨ (origin ≠ dummy_node ∧ destination = dummy_node)
  ∨ adjacent origin destination.
Proof.
  unfold arc_rule, adjacent.
  repeat case_bool_decide; simpl; intuition congruence.
Qed.

Lemma arc_rule_irrefl v : arc_rule v v = false.
Proof.
  apply not_true_iff_false. rewrite arc_rule_spec. unfold adjacent.
  rewrite !Z.sub_diag. simpl. intuition lia.
Qed.

Lemma A_inner_fold N origin g :
  A (foldl (arc_step origin) g N) = A g ++ arcs_from N origin.
Proof.
  unfold arcs_from. revert g. induction N as [|t N IH]; intros g; csimpl.
  - by rewrite app_nil_r.
  - rewrite IH. unfold arc_step. destruct (arc_rule origin t); simpl.
    + by rewrite <-app_assoc.
    + done.
Qed.

Lemma A_outer_fold N M g :
  A (foldl (λ g origin, foldl (arc_step origin) g N) g M)
  = A g ++ (origin ← M; arcs_from N origin).
Proof.
  revert g. induction M as [|o M IH]; intros g; csimpl.
  - by rewrite app_nil_r.
  - by rewrite IH, A_inner_fold, <-app_assoc.
Qed.

Lemma create_arcs_A N : A (create_arcs N) = arcs_of N.
Proof. unfold create_arcs, arcs_of. by rewrite A_outer_fold. Qed.

(** The per-node lists always hold the arcs of [A] that leave, respectively
    enter, the node, in the order of [A]. *)
Definition store_ok (g : Graph) : Prop :=
  ∀ v, ongoing_arcs g !!! v = filter (λ a, a.1 = v) (A g)
       ∧ incoming_arcs g !!! v = filter (λ a, a.2 = v) (A g).

Lemma store_ok_empty : store_ok empty_graph.
Proof. intros v. simpl. by rewrite !lookup_total_empty. Qed.

Lemma store_ok_add_arc g origin destination :
  store_ok g → store_ok (add_arc g origin destination).
Proof.
  intros Hg v. destruct (Hg v) as [Ho Hi]. unfold add_arc, append_arc. simpl.
  rewrite !filter_app, !filter_singleton; [|exact []..]. simpl. split.
  - destruct (decide (origin = v)) as [->|Hne].
    + by rewrite lookup_total_insert_eq, Ho.
    + by rewrite lookup_total_insert_ne, Ho, app_nil_r.
  - destruct (decide (destination = v)) as [->|Hne].
    + by rewrite lookup_total_insert_eq, Hi.
    + by rewrite lookup_total_insert_ne, Hi, app_nil_r.
Qed.

Lemma store_ok_inner N origin g :
  store_ok g → store_ok (foldl (arc_step origin) g N).
Proof.
  revert g. induction N as [|t N IH]; intros g Hg; simpl; [done|].
  apply IH. unfold arc_step. destruct (arc_rule origin t); [|done].
  by apply store_ok_add_arc.
Qed.

Lemma store_ok_create_arcs N : store_ok (create_arcs N).
Proof.
  unfold create_arcs. generalize N at 1. intros M.
  generalize store_ok_empty. generalize empty_graph.
  induction N as [|o N IH]; intros g Hg; simpl; [done|].
  apply IH. by apply store_ok_inner.
Qed.

Lemma elem_of_arcs_from N origin a :
  a ∈ arcs_from N origin ↔ a.1 = origin ∧ a.2 ∈ N ∧ arc_rule a.1 a.2 = true.
Proof.
  unfold arcs_from. rewrite list_elem_of_bind. split.
  - intros (t & Ha & Ht). destruct (arc_rule origin t) eqn:E; [|by apply elem_of_nil in Ha].
    apply list_elem_of_singleton in Ha as ->. by simpl.
  - intros (<- & Ht & E). exists a.2. split; [|done]. rewrite E.
    destruct a. by left.
Qed.

Lemma elem_of_arcs_of N a :
  a ∈ arcs_of N ↔ a.1 ∈ N ∧ a.2 ∈ N ∧ arc_rule a.1 a.2 = true.
Proof.
  unfold arcs_of. rewrite list_elem_of_bind. split.
  - intros (o & Ha & Ho). apply elem_of_arcs_from in Ha as (<- & ? & ?). done.
  - intros (Ho & Ht & E). exists a.1. split; [|done]. by apply elem_of_arcs_from.
Qed.

Lemma arcs_from_NoDup N origin : NoDup N → NoDup (arcs_from N origin).
Proof.
  intros HN. unfold arcs_from. apply NoDup_bind; [| |done].
  - intros t1 t2 a _ _ H1 H2.
    destruct (arc_rule origin t1); [|by apply elem_of_nil in H1].
    destruct (arc_rule origin t2); [|by apply elem_of_nil in H2].
    apply list_elem_of_singleton in H1, H2. congruence.
  - intros t _. destruct (arc_rule origin t); [apply NoDup_singleton|apply NoDup_nil_2].
Qed.

Lemma arcs_of_NoDup N : NoDup N → NoDup (arcs_of N).
Proof.
  intros HN. unfold arcs_of. apply NoDup_bind; [| |done].
  - intros o1 o2 a _ _ H1 H2.
    apply elem_of_arcs_from in H1 as [<- _], H2 as [<- _]. done.
  - intros o _. by apply arcs_from_NoDup.
Qed.

Lemma arcs_of_irrefl N a : a ∈ arcs_of N → a.1 ≠ a.2.
Proof.
  intros (_ & _ & E)%elem_of_arcs_of Heq. rewrite Heq, arc_rule_irrefl in E. done.
Qed.

(** ** Facts about the order of the nodes *)

Lemma seqZ_sorted m n : StronglySorted Z.lt (seqZ m n).
Proof.
  unfold seqZ. generalize (Z.to_nat n) as len. generalize 0%nat as s.
  intros s len. revert s. induction len as [|len IH]; intros s; simpl; constructor.
  - apply IH.
  - apply Forall_fmap, Forall_forall. intros i Hi%elem_of_seq. simpl. lia.
Qed.

Lemma StronglySorted_bind {X Y} (R : relation X) (R' : relation Y) (f : X → list Y) l :
  StronglySorted R l →
  (∀ x, x ∈ l → StronglySorted R' (f x)) →
  (∀ x1 x2 y1 y2, R x1 x2 → y1 ∈ f x1 → y2 ∈ f x2 → R' y1 y2) →
  StronglySorted R' (l ≫= f).
Proof.
  intros Hl Hf Hcross. induction Hl as [|x l Hl IH Hx]; csimpl; [constructor|].
  apply StronglySorted_app_2.
  - intros y1 y2 Hy1 (x2 & Hy2 & Hx2)%list_elem_of_bind.
    rewrite Forall_forall in Hx. eapply Hcross; eauto.
  - apply Hf. by left.
  - apply IH. intros x' Hx'. apply Hf. by right.
Qed.

Lemma real_nodes_sorted num_rows num_cols H :
  StronglySorted row_major_lt (real_nodes num_rows num_cols H).
Proof.
  unfold real_nodes. eapply StronglySorted_bind; [apply seqZ_sorted| |].
  - intros i _. eapply StronglySorted_bind; [apply seqZ_sorted| |].
    + intros j _. case_bool_decide; repeat constructor.
    + intros j1 j2 u v Hj Hu Hv.
      repeat case_bool_decide; try by (apply elem_of_nil in Hu || apply elem_of_nil in Hv).
      apply list_elem_of_singleton in Hu as ->, Hv as ->. right. simpl. done.
  - intros i1 i2 u v Hi (j1 & Hu & _)%list_elem_of_bind (j2 & Hv & _)%list_elem_of_bind.
    repeat case_bool_decide; try by (apply elem_of_nil in Hu || apply elem_of_nil in Hv).
    apply list_elem_of_singleton in Hu as ->, Hv as ->. left. simpl. done.
Qed.

Lemma bind_ext_elem {X Y} (f g : X → list Y) l :
  (∀ x, x ∈ l → f x = g x) → l ≫= f = l ≫= g.
Proof.
  induction l as [|x l IH]; intros Hfg; csimpl; [done|].
  rewrite Hfg by (by left). f_equal. apply IH. intros y Hy. apply Hfg. by right.
Qed.

Lemma real_nodes_filter num_rows num_cols H :
  real_nodes num_rows num_cols H
  = node_of <$> filter (λ p, p ∉ H) (row_major_cells num_rows num_cols).
Proof.
  unfold real_nodes, row_major_cells.
  generalize (range 1 (num_rows + 1)) as rows. generalize (range 1 (num_cols + 1)) as cols.
  intros cols rows. induction rows as [|i rows IH]; csimpl; [done|].
  rewrite filter_app, fmap_app, <-IH. f_equal.
  clear IH. induction cols as [|j cols IH]; csimpl; [done|].
  rewrite filter_cons. rewrite IH. case_bool_decide; case_decide; done.
Qed.

Lemma real_nodes_ignore_outside num_rows num_cols H :
  real_nodes num_rows num_cols H
  = real_nodes num_rows num_cols (filter (in_bounds num_rows num_cols) H).
Proof.
  unfold real_nodes. apply bind_ext_elem. intros i Hi%elem_of_range.
  apply bind_ext_elem. intros j Hj%elem_of_range.
  assert ((i, j) ∉ H ↔ (i, j) ∉ filter (in_bounds num_rows num_cols) H) as Hiff.
  { rewrite list_elem_of_filter. unfold in_bounds. simpl. split.
    - intros Hn [_ Hin]. done.
    - intros Hn Hin. apply Hn. split; [lia|done]. }
  repeat case_bool_decide; tauto.
Qed.

(** ** GridGraph *)

(** C5: an arc (origin, destination) is created exactly when exactly one of
    the two is the dummy node, or both are real nodes with adjacent cells;
    hence adjacent real nodes are joined by an arc in each direction, the
    dummy node is joined to and from every real node, and no arc is created
    twice. *)
Theorem arc_created_iff num_rows num_cols H :
  let N := create_nodes num_rows num_cols H in
  let R := real_nodes num_rows num_cols H in
  let g := grid_graph num_rows num_cols H in
  (∀ origin destination,
     (origin, destination) ∈ A g ↔
     origin ∈ N ∧ destination ∈ N ∧
     ((origin = dummy_node ∧ destination ≠ dummy_node)
      ∨ (origin ≠ dummy_node ∧ destination = dummy_node)
      ∨ (origin ≠ dummy_node ∧ destination ≠ dummy_node ∧ adjacent origin destination)))
  ∧ (∀ u v, u ∈ R → v ∈ R → adjacent u v → (u, v) ∈ A g ∧ (v, u) ∈ A g)
  ∧ (∀ v, v ∈ R → (dummy_node, v) ∈ A g ∧ (v, dummy_node) ∈ A g)
  ∧ NoDup (A g).
Proof.
  intros N R g. unfold g, grid_graph. rewrite create_arcs_A. fold N.
  assert (∀ a, a ∈ arcs_of N ↔ a.1 ∈ N ∧ a.2 ∈ N ∧ arc_rule a.1 a.2 = true) as Hin
    by apply elem_of_arcs_of.
  assert (∀ v, v ∈ R → v ∈ N ∧ v ≠ dummy_node) as HR.
  { intros v Hv. split; [apply elem_of_create_nodes; by left|].
    intros ->. by apply dummy_not_real in Hv. }
  assert (adjacent dummy_node dummy_node → False) as Hdd.
  { unfold adjacent. simpl. lia. }
  split_and!.
  - intros o d. rewrite Hin, arc_rule_spec. simpl.
    destruct (decide (o = dummy_node)) as [->|]; destruct (decide (d = dummy_node)) as [->|];
      intuition.
  - intros u v Hu Hv Hadj. apply HR in Hu as [? ?], Hv as [? ?].
    rewrite !Hin, !arc_rule_spec. simpl. split; split_and!; try done.
    + by right; right.
    + right; right. unfold adjacent in *. destruct Hadj as [[-> ?]|[-> ?]]; [left|right]; split; lia.
  - intros v [? ?]%HR. rewrite !Hin, !arc_rule_spec. simpl.
    assert (dummy_node ∈ N) by (apply elem_of_create_nodes; by right).
    split; split_and!; auto.
  - apply arcs_of_NoDup, N_NoDup.
Qed.

(** C8: the node list holds one node per cell of the grid that is not a hole,
    in row-major order and without repetition, followed by the dummy node,
    which occurs once, in the last place; the script that keeps the dummy
    node apart enumerates the same real nodes and then its dummy node. *)
Theorem node_enumeration num_rows num_cols H :
  let N := create_nodes num_rows num_cols H in
  let R := real_nodes num_rows num_cols H in
  N = R ++ [dummy_node]
  ∧ R = node_of <$> filter (λ p, p ∉ H) (row_major_cells num_rows num_cols)
  ∧ (∀ i j, node_of (i, j) ∈ R ↔ 1 ≤ i ≤ num_rows ∧ 1 ≤ j ≤ num_cols ∧ (i, j) ∉ H)
  ∧ StronglySorted row_major_lt R
  ∧ (dummy_node ∉ R)
  ∧ NoDup N
  ∧ last N = Some dummy_node
  ∧ length N = S (length R)
  ∧ nodes_seq num_rows num_cols H = R ++ [dummy_node_seq]
  ∧ (dummy_node_seq ∉ R).
Proof.
  intros N R. split_and!.
  - done.
  - apply real_nodes_filter.
  - intros i j. unfold R. by rewrite elem_of_real_nodes.
  - apply real_nodes_sorted.
  - apply dummy_not_real.
  - apply N_NoDup.
  - apply last_snoc.
  - subst N R. unfold create_nodes. rewrite length_app. simpl. lia.
  - done.
  - unfold R. rewrite elem_of_real_nodes. simpl. lia.
Qed.

(** C7, as the code has it: a hole outside the grid is not rejected.  Graph
    construction returns for every hole list, and returns the nodes and the
    graph it returns for the list without the cells outside
    [1..num_rows] x [1..num_cols]. *)
Theorem out_of_bounds_holes_ignored num_rows num_cols H :
  (∃ N g, build_graph num_rows num_cols H = Returned (N, g))
  ∧ build_graph num_rows num_cols H
    = build_graph num_rows num_cols (filter (in_bounds num_rows num_cols) H).
Proof.
  split; [by eexists _, _|].
  unfold build_graph, create_nodes. by rewrite <-real_nodes_ignore_outside.
Qed.

(** C7 fails on the code: with the hole (5, 5) on a 2 x 2 grid, construction
    raises nothing and returns what it returns without holes. *)
Lemma out_of_bounds_hole_accepted :
  (5, 5) ∈ [(5, 5)] ∧ ¬ in_bounds 2 2 (5, 5)
  ∧ build_graph 2 2 [(5, 5)] = build_graph 2 2 []
  ∧ ¬ ∃ e, build_graph 2 2 [(5, 5)] = Raised e.
Proof.
  split_and!.
  - by left.
  - unfold in_bounds. simpl. lia.
  - unfold build_graph, create_nodes. by rewrite (real_nodes_ignore_outside 2 2 [(5, 5)]).
  - intros [e He]. discriminate He.
Qed.

(** ** Degree Formulator *)

Lemma formulate_fold g N mdl :
  let step := λ mdl node,
    addConstraint (addConstraint mdl (degree_origin g node)) (degree_destination g node) in
  vars (foldl step mdl N) = vars mdl
  ∧ constraints (foldl step mdl N)
    = constraints mdl ++ (node ← N; [degree_origin g node; degree_destination g node]).
Proof.
  intros step. revert mdl. induction N as [|node N IH]; intros mdl; csimpl.
  - by rewrite app_nil_r.
  - destruct (IH (step mdl node)) as [-> ->]. simpl. split; [done|].
    by rewrite <-!app_assoc.
Qed.

Lemma formulate_constraints g N :
  constraints (formulate g N)
  = node ← N; [degree_origin g node; degree_destination g node].
Proof. unfold formulate. simpl. by rewrite (proj2 (formulate_fold g N _)). Qed.

Lemma formulate_vars g N : vars (formulate g N) = A g.
Proof. unfold formulate. simpl. by rewrite (proj1 (formulate_fold g N _)). Qed.



Lemma degree_origin_terms N node :
  degree_origin (create_arcs N) node
  = mkConstraint (filter (λ out, out.1 = node) (A (create_arcs N))) EQ 1 (origin_ node).
Proof. unfold degree_origin. by rewrite (proj1 (store_ok_create_arcs N node)). Qed.

Lemma degree_destination_terms N node :
  degree_destination (create_arcs N) node
  = mkConstraint (filter (λ into, into.2 = node) (A (create_arcs N))) EQ 1 (destination_ node).
Proof. unfold degree_destination. by rewrite (proj2 (store_ok_create_arcs N node)). Qed.










(** On a grid without a cell that is not a hole the first sum is empty
    and the script stops there. *)
Lemma build_model_no_cell num_rows num_cols H :
  real_nodes num_rows num_cols H = [] →
  build_model (grid_graph num_rows num_cols H) (create_nodes num_rows num_cols H)
  = Raised TypeError.
Proof. unfold grid_graph, create_nodes. by intros ->. Qed.




(** ** Sums of binary variables *)

Lemma foldl_add_acc a l : foldl Z.add a l = a + foldl Z.add 0 l.
Proof.
  revert a. induction l as [|z l IH]; intros a; simpl; [lia|].
  rewrite (IH (a + z)), (IH (0 + z)). lia.
Qed.

Lemma py_sum_cons z l : py_sum (z :: l) = z + py_sum l.
Proof. unfold py_sum. simpl. apply foldl_add_acc. Qed.

Lemma binary_sum_nonneg (x : assignment) l : binary x l → 0 ≤ py_sum (x <$> l).
Proof.
  induction 1 as [|a l Ha Hl IH]; csimpl; [done|]. rewrite py_sum_cons. lia.
Qed.

Lemma binary_sum_zero (x : assignment) l :
  binary x l → py_sum (x <$> l) = 0 → ∀ a, a ∈ l → x a = 0.
Proof.
  induction 1 as [|a l Ha Hl IH]; csimpl; intros Hs b Hb; [by apply elem_of_nil in Hb|].
  rewrite py_sum_cons in Hs. pose proof (binary_sum_nonneg x l Hl).
  apply elem_of_cons in Hb as [->|Hb]; [lia|]. apply IH; [lia|done].
Qed.

(** A sum of binary variables equal to 1 selects exactly one of them. *)
Lemma unique_selected (x : assignment) l :
  binary x l → py_sum (x <$> l) = 1 →
  ∃ a, a ∈ l ∧ x a = 1 ∧ ∀ b, b ∈ l → x b = 1 → b = a.
Proof.
  induction 1 as [|a l Ha Hl IH]; csimpl; intros Hs; [done|].
  rewrite py_sum_cons in Hs. destruct Ha as [Ha|Ha].
  - destruct IH as (a' & Ha' & Hxa' & Huniq); [lia|].
    exists a'. split_and!; [by right|done|].
    intros b [->|Hb]%elem_of_cons Hxb; [lia|by apply Huniq].
  - exists a. split_and!; [by left|done|].
    intros b [->|Hb]%elem_of_cons Hxb; [done|].
    apply (binary_sum_zero x l Hl) in Hb; lia.
Qed.

Lemma binary_filter (x : assignment) (P : Arc → Prop) `{∀ a, Decision (P a)} l :
  binary x l → binary x (filter P l).
Proof.
  unfold binary. rewrite !Forall_forall. intros Hl a [_ Ha]%list_elem_of_filter. auto.
Qed.

(** ** The walk along a successor map *)

Section Walk.
Context (sol : gmap Node Node) (N : list Node).
Hypothesis sol_total : ∀ v, v ∈ N → ∃ w, sol !! v = Some w ∧ w ∈ N.
Hypothesis sol_inj : ∀ u v w, sol !! u = Some w → sol !! v = Some w → u = v.
Hypothesis sol_irrefl : ∀ v, sol !! v ≠ Some v.

Definition linked (a : Arc) : Prop := sol !! a.1 = Some a.2.

(** What holds of [next] and [arc_cycle] each time the loop test is
    reached, [start] being the successor of the dummy node. *)
Record walk_inv (start next : Node) (cyc : list Arc) : Prop := {
  inv_linked : Forall linked cyc;
  inv_chain : start :: cyc.*2 = cyc.*1 ++ [next];
  inv_nodup : NoDup (dummy_node :: cyc.*1);
  inv_start : sol !! dummy_node = Some start;
  inv_nodes : Forall (λ v, v ∈ N) (dummy_node :: cyc.*1);
  inv_next : next ∈ N
}.

Lemma linked_Forall2 cyc :
  Forall linked cyc → Forall2 (λ u w, sol !! u = Some w) (cyc.*1) (cyc.*2).
Proof. induction 1; csimpl; constructor; done. Qed.

Lemma NoDup_image l l' :
  Forall2 (λ u w, sol !! u = Some w) l l' → NoDup l → NoDup l'.
Proof.
  induction 1 as [|u w l l' Huw Hl IH]; intros Hnd; [constructor|].
  apply NoDup_cons in Hnd as [Hu Hnd]. apply NoDup_cons. split; [|auto].
  intros (i & Hi)%list_elem_of_lookup.
  destruct (Forall2_lookup_r _ _ _ _ _ Hl Hi) as (u' & Hu' & Hu'w).
  apply Hu. rewrite (sol_inj _ _ _ Huw Hu'w). apply list_elem_of_lookup. eauto.
Qed.

Lemma walk_inv_fresh start next cyc :
  walk_inv start next cyc → next ≠ dummy_node →
  NoDup (dummy_node :: cyc.*1 ++ [next]).
Proof.
  intros [Hl Hc Hnd Hs _ _] Hne.
  assert (NoDup (start :: cyc.*2)) as Himg.
  { eapply NoDup_image; [|exact Hnd]. constructor; [done|by apply linked_Forall2]. }
  rewrite Hc in Himg. apply NoDup_app in Himg as (_ & Hfresh & _).
  apply NoDup_cons in Hnd as [Hd Hnd]. apply NoDup_cons. split.
  - rewrite elem_of_app, list_elem_of_singleton. intros [?|?]; [done|congruence].
  - apply NoDup_app. split_and!; [done| |apply NoDup_singleton].
    intros v Hv ->%list_elem_of_singleton. apply (Hfresh next Hv). by left.
Qed.

Lemma walk_inv_bound start next cyc :
  walk_inv start next cyc → (S (length cyc) ≤ length N)%nat.
Proof.
  intros [_ _ Hnd _ HN _].
  assert (length (dummy_node :: cyc.*1) ≤ length N)%nat as Hlen.
  { apply submseteq_length, NoDup_submseteq; [done|]. by apply Forall_forall. }
  simpl in Hlen. by rewrite length_fmap in Hlen.
Qed.

Lemma walk_inv_step start next w cyc :
  walk_inv start next cyc → next ≠ dummy_node → sol !! next = Some w → w ∈ N →
  walk_inv start w (cyc ++ [(next, w)]).
Proof.
  intros Hinv Hne Hw HwN. pose proof (walk_inv_fresh _ _ _ Hinv Hne) as Hnd.
  destruct Hinv as [Hl Hc _ Hs HN Hn]. split.
  - apply Forall_app. split; [done|]. by apply Forall_singleton.
  - rewrite !fmap_app. simpl. by rewrite app_comm_cons, Hc.
  - by rewrite fmap_app.
  - done.
  - rewrite fmap_app, app_comm_cons. apply Forall_app. split; [done|].
    by apply Forall_singleton.
  - done.
Qed.

(** The loop returns once the fuel covers the nodes not yet walked. *)
Lemma walk_returns fuel start next cyc :
  walk_inv start next cyc → (length N ≤ fuel + length cyc)%nat →
  ∃ res, walk fuel sol next cyc = Returned res ∧ walk_inv start dummy_node res.
Proof.
  revert next cyc. induction fuel as [|fuel IH]; intros next cyc Hinv Hfuel.
  - apply walk_inv_bound in Hinv. lia.
  - simpl. case_bool_decide as Hne.
    + destruct (sol_total next) as (w & Hw & HwN); [by destruct Hinv|].
      rewrite Hw. apply IH.
      * by apply walk_inv_step.
      * rewrite length_app. simpl. lia.
    + subst next. by exists cyc.
Qed.

(** More fuel does not change what the loop returns. *)
Lemma walk_fuel_mono fuel fuel' next cyc res :
  walk fuel sol next cyc = Returned res → (fuel ≤ fuel')%nat →
  walk fuel' sol next cyc = Returned res.
Proof.
  revert fuel' next cyc. induction fuel as [|fuel IH]; intros fuel' next cyc; [done|].
  intros Hw Hle. destruct fuel' as [|fuel']; [lia|]. simpl in *.
  case_bool_decide; [|done]. destruct (sol !! next); [|done].
  apply IH; [done|lia].
Qed.

(** What the loop returns is closed into the cycle through the dummy
    node. *)
Lemma close_cycle_spec start res :
  walk_inv start dummy_node res →
  close_cycle res = Returned (res ++ [(dummy_node, start)])
  ∧ res ≠ []
  ∧ Forall linked (res ++ [(dummy_node, start)])
  ∧ (res ++ [(dummy_node, start)]).*2 = rotate1 ((res ++ [(dummy_node, start)]).*1)
  ∧ NoDup ((res ++ [(dummy_node, start)]).*1)
  ∧ Forall (λ v, v ∈ N) ((res ++ [(dummy_node, start)]).*1)
  ∧ last ((res ++ [(dummy_node, start)]).*1) = Some dummy_node.
Proof.
  intros [Hl Hc Hnd Hs HN _].
  assert (res ≠ []) as Hne.
  { intros ->. simpl in Hc. simplify_eq. by apply sol_irrefl in Hs. }
  split_and!.
  - unfold close_cycle.
    assert (∃ h, head res = Some h ∧ h.1 = start) as (h & Hhead & Hh).
    { destruct res as [|h r]; [done|]. exists h. split; [done|].
      simpl in Hc. by injection Hc. }
    assert (∃ l, last res = Some l ∧ l.2 = dummy_node) as (l & Hlast & Hl2).
    { destruct (last res) as [l|] eqn:Hlast; [|by apply last_None in Hlast].
      exists l. split; [done|]. apply last_Some in Hlast as (r' & ->).
      rewrite !fmap_app in Hc. simpl in Hc.
      change (start :: r'.*2 ++ [l.2]) with ((start :: r'.*2) ++ [l.2]) in Hc.
      by apply app_inj_tail in Hc as [_ ?]. }
    by rewrite Hhead, Hlast, Hh, Hl2.
  - done.
  - apply Forall_app. split; [done|]. by apply Forall_singleton.
  - rewrite !fmap_app. simpl. by rewrite <-Hc.
  - rewrite fmap_app. simpl. apply NoDup_cons in Hnd as [Hd Hnd].
    apply NoDup_app. split_and!; [done| |apply NoDup_singleton].
    by intros v Hv ->%list_elem_of_singleton.
  - rewrite fmap_app. simpl. apply Forall_cons in HN as [Hd HN].
    apply Forall_app. split; [done|]. by apply Forall_singleton.
  - rewrite fmap_app. simpl. apply last_snoc.
Qed.
End Walk.

(** ** The dictionary [sol] and the scan for [init] *)

Section SolDict.
Context (x : assignment).

Definition sol_step (sol : gmap Node Node) (a : Arc) : gmap Node Node :=
  if selected x a then <[a.1 := a.2]> sol else sol.

Definition scan_step (init : option Node) (a : Arc) : option Node :=
  if selected x a then Some a.1 else init.

Lemma sol_fold_lookup l m v w :
  foldl sol_step m l !! v = Some w →
  m !! v = Some w ∨ ((v, w) ∈ l ∧ x (v, w) = 1).
Proof.
  revert m. induction l as [|a l IH]; intros m Hm; simpl in *; [by left|].
  apply IH in Hm as [Hm|[Hin Hx]]; [|right; split; [by right|done]].
  unfold sol_step, selected in Hm. case_bool_decide as Ha; [|by left].
  destruct (decide (a.1 = v)) as [<-|Hne].
  - rewrite lookup_insert_eq in Hm. injection Hm as <-. right.
    destruct a. split; [by left|done].
  - rewrite lookup_insert_ne in Hm by done. by left.
Qed.

Lemma sol_fold_mono l m v : is_Some (m !! v) → is_Some (foldl sol_step m l !! v).
Proof.
  revert m. induction l as [|a l IH]; intros m Hm; simpl; [done|].
  apply IH. unfold sol_step. destruct (selected x a); [|done].
  destruct (decide (a.1 = v)) as [<-|Hne].
  - rewrite lookup_insert_eq. by eexists.
  - by rewrite lookup_insert_ne.
Qed.

Lemma sol_fold_selected l m v w :
  (v, w) ∈ l → x (v, w) = 1 → is_Some (foldl sol_step m l !! v).
Proof.
  revert m. induction l as [|a l IH]; intros m Hin Hx; [by apply elem_of_nil in Hin|].
  simpl. apply elem_of_cons in Hin as [<-|Hin]; [|by apply IH].
  apply sol_fold_mono. unfold sol_step, selected. simpl.
  rewrite bool_decide_eq_true_2 by done. rewrite lookup_insert_eq. by eexists.
Qed.

Lemma sol_dict_lookup A_ v w :
  sol_dict A_ x !! v = Some w → (v, w) ∈ A_ ∧ x (v, w) = 1.
Proof. intros [Hm|?]%sol_fold_lookup; [|done]. by rewrite lookup_empty in Hm. Qed.

Lemma sol_dict_selected A_ v w :
  (v, w) ∈ A_ → x (v, w) = 1 → is_Some (sol_dict A_ x !! v).
Proof. apply sol_fold_selected. Qed.

Lemma scan_keep l d : (∀ a, a ∈ l → a.1 = d) → foldl scan_step (Some d) l = Some d.
Proof.
  induction l as [|a l IH]; intros Hl; simpl; [done|].
  unfold scan_step at 2. rewrite (Hl a) by (by left).
  destruct (selected x a); apply IH; intros b Hb; apply Hl; by right.
Qed.

(** A scan that ends in arcs leaving [d], one of them selected, stops at
    [d]. *)
Lemma scan_last_origin l init d :
  (∀ a, a ∈ l → a.1 = d) → (∃ a, a ∈ l ∧ x a = 1) →
  foldl scan_step init l = Some d.
Proof.
  revert init. induction l as [|a l IH]; intros init Hl (a0 & Hin & Hx).
  { by apply elem_of_nil in Hin. }
  simpl. apply elem_of_cons in Hin as [->|Hin].
  - unfold scan_step at 2, selected. rewrite bool_decide_eq_true_2 by done.
    rewrite (Hl a) by (by left). apply scan_keep. intros b Hb. apply Hl. by right.
  - apply IH; [|by exists a0]. intros b Hb. apply Hl. by right.
Qed.
End SolDict.

(** ** Candidate solutions that satisfy the degree constraints *)

Section Feasible.
Context (num_rows num_cols : Z) (H : list (Z * Z)) (x : assignment).
Local Abbreviation N := (create_nodes num_rows num_cols H).
Local Abbreviation g := (grid_graph num_rows num_cols H).
Hypothesis Hfeasible : feasible x (formulate g N).

Lemma A_g : A g = arcs_of N.
Proof. apply create_arcs_A. Qed.

Lemma dummy_in_N : dummy_node ∈ N.
Proof. apply elem_of_create_nodes. by right. Qed.

Lemma arc_nodes v w : (v, w) ∈ A g → v ∈ N ∧ w ∈ N ∧ v ≠ w.
Proof.
  rewrite A_g. intros Ha. pose proof (arcs_of_irrefl _ _ Ha).
  apply elem_of_arcs_of in Ha as (? & ? & _). done.
Qed.

Lemma binary_A : binary x (A g).
Proof. destruct Hfeasible as [Hb _]. by rewrite formulate_vars in Hb. Qed.

Lemma out_sum v : v ∈ N → py_sum (x <$> filter (λ a, a.1 = v) (A g)) = 1.
Proof.
  intros Hv. destruct Hfeasible as [_ Hc]. rewrite formulate_constraints in Hc.
  rewrite Forall_forall in Hc. specialize (Hc (degree_origin g v)).
  unfold grid_graph in *. rewrite degree_origin_terms in Hc. apply Hc.
  apply list_elem_of_bind. exists v. split; [|done].
  rewrite degree_origin_terms. by left.
Qed.

Lemma in_sum v : v ∈ N → py_sum (x <$> filter (λ a, a.2 = v) (A g)) = 1.
Proof.
  intros Hv. destruct Hfeasible as [_ Hc]. rewrite formulate_constraints in Hc.
  rewrite Forall_forall in Hc. specialize (Hc (degree_destination g v)).
  unfold grid_graph in *. rewrite degree_destination_terms in Hc. apply Hc.
  apply list_elem_of_bind. exists v. split; [|done].
  rewrite degree_destination_terms. right. by left.
Qed.

(** Exactly one selected arc leaves every node. *)
Lemma one_successor v :
  v ∈ N → ∃ w, (v, w) ∈ A g ∧ x (v, w) = 1
               ∧ ∀ w', (v, w') ∈ A g → x (v, w') = 1 → w' = w.
Proof.
  intros Hv.
  destruct (unique_selected x (filter (λ a, a.1 = v) (A g))) as ([v' w] & Hin & Hx & Huniq).
  { apply binary_filter, binary_A. }
  { by apply out_sum. }
  apply list_elem_of_filter in Hin as [Hv' Hin]. simpl in Hv'. subst v'.
  exists w. split_and!; [done..|]. intros w' Hin' Hx'.
  assert ((v, w') = (v, w)) as Heq; [|congruence].
  apply Huniq; [|done]. by apply list_elem_of_filter.
Qed.

(** Exactly one selected arc enters every node. *)
Lemma one_predecessor w :
  w ∈ N → ∃ v, (v, w) ∈ A g ∧ x (v, w) = 1
               ∧ ∀ v', (v', w) ∈ A g → x (v', w) = 1 → v' = v.
Proof.
  intros Hw.
  destruct (unique_selected x (filter (λ a, a.2 = w) (A g))) as ([v w'] & Hin & Hx & Huniq).
  { apply binary_filter, binary_A. }
  { by apply in_sum. }
  apply list_elem_of_filter in Hin as [Hw' Hin]. simpl in Hw'. subst w'.
  exists v. split_and!; [done..|]. intros v' Hin' Hx'.
  assert ((v', w) = (v, w)) as Heq; [|congruence].
  apply Huniq; [|done]. by apply list_elem_of_filter.
Qed.

(** The dictionary is the successor map of the selected arcs. *)
Lemma sol_iff v w :
  sol_dict (A g) x !! v = Some w ↔ (v, w) ∈ A g ∧ x (v, w) = 1.
Proof.
  split; [apply sol_dict_lookup|]. intros [Hin Hx].
  destruct (sol_dict_selected x _ _ _ Hin Hx) as [w' Hw'].
  pose proof (sol_dict_lookup _ _ _ _ Hw') as [Hin' Hx'].
  destruct (one_successor v) as (w0 & _ & _ & Huniq); [by apply arc_nodes in Hin as [? _]|].
  by rewrite Hw', (Huniq w Hin Hx), (Huniq w' Hin' Hx').
Qed.

Lemma sol_total v : v ∈ N → ∃ w, sol_dict (A g) x !! v = Some w ∧ w ∈ N.
Proof.
  intros (w & Hin & Hx & _)%one_successor. exists w. split; [by apply sol_iff|].
  by apply arc_nodes in Hin as (_ & ? & _).
Qed.

Lemma sol_inj u v w :
  sol_dict (A g) x !! u = Some w → sol_dict (A g) x !! v = Some w → u = v.
Proof.
  intros [Hu Hxu]%sol_iff [Hv Hxv]%sol_iff.
  destruct (one_predecessor w) as (v0 & _ & _ & Huniq); [by apply arc_nodes in Hu as (_ & ? & _)|].
  by rewrite (Huniq u Hu Hxu), (Huniq v Hv Hxv).
Qed.

Lemma sol_irrefl v : sol_dict (A g) x !! v ≠ Some v.
Proof. intros [Hv _]%sol_iff. by apply arc_nodes in Hv as (_ & _ & ?). Qed.

(** The scan for the last selected arc stops at the dummy node: the arcs
    that leave the dummy node come last in [A]. *)
Lemma scan_init_dummy : scan_init (A g) x = Some dummy_node.
Proof.
  unfold scan_init. rewrite A_g. unfold arcs_of. unfold create_nodes at 2.
  rewrite bind_app, foldl_app. csimpl. rewrite app_nil_r.
  apply (scan_last_origin x).
  - by intros a [-> _]%elem_of_arcs_from.
  - destruct (one_successor dummy_node dummy_in_N) as (w & Hin & Hx & _).
    exists (dummy_node, w). split; [|done].
    rewrite A_g in Hin. apply elem_of_arcs_of in Hin as (_ & ? & ?).
    by apply elem_of_arcs_from.
Qed.

(** The cycle walk returns the cycle through the dummy node, for every
    fuel that covers the nodes. *)
Lemma subtour_dummy_cycle :
  ∃ tour,
    (∀ fuel, (length N ≤ fuel)%nat → subtour (A g) x fuel = Returned tour)
    ∧ is_cycle (A g) x tour
    ∧ last (tour.*1) = Some dummy_node
    ∧ Forall (λ v, v ∈ N) (tour.*1)
    ∧ (2 ≤ length tour)%nat.
Proof.
  destruct (sol_total dummy_node dummy_in_N) as (start & Hstart & HstartN).
  assert (walk_inv (sol_dict (A g) x) N start start []) as Hinv.
  { split; simpl; [constructor|done|apply NoDup_singleton|done| |done].
    apply Forall_singleton, dummy_in_N. }
  destruct (walk_returns _ N sol_total sol_inj (length N) start start [] Hinv)
    as (res & Hwalk & Hres); [simpl; lia|].
  destruct (close_cycle_spec _ N sol_irrefl start res Hres)
    as (Hclose & Hne & Hlinked & Hrot & Hnd & HN & Hlast).
  exists (res ++ [(dummy_node, start)]). split_and!; try done.
  - intros fuel Hfuel. unfold subtour. rewrite scan_init_dummy, Hstart.
    by rewrite (walk_fuel_mono _ _ _ _ _ _ Hwalk Hfuel).
  - split_and!; try done.
    + by destruct res.
    + eapply Forall_impl; [exact Hlinked|]. intros [u w] Hl. by apply sol_iff.
  - rewrite length_app. simpl. destruct res; [done|]. simpl. lia.
Qed.
End Feasible.

(** ** Cycles of a feasible candidate *)

Lemma elem_of_rotate1 {T} (l : list T) v : v ∈ rotate1 l ↔ v ∈ l.
Proof.
  destruct l as [|h t]; simpl; [done|].
  rewrite elem_of_app, !elem_of_cons, elem_of_nil. tauto.
Qed.

(** Along a chain [a, l1, ..., lk, z] a property kept by every link
    spreads from [a] to the end. *)
Lemma chain_forward {X} (R : relation X) (S : X → Prop) a l z :
  (∀ u v, R u v → S u → S v) →
  Forall2 R (a :: l) (l ++ [z]) → S a → Forall S l ∧ S z.
Proof.
  intros Hclosed. revert a. induction l as [|b l IH]; intros a Hchain Ha; simpl in *.
  - apply Forall2_cons in Hchain as [Haz _]. split; [constructor|eauto].
  - apply Forall2_cons in Hchain as [Hab Hchain].
    destruct (IH b Hchain) as [Hl Hz]; [eauto|]. split; [constructor; eauto|done].
Qed.

(** Around a closed chain it spreads from any element to all. *)
Lemma cycle_propagate {X} (R : relation X) (S : X → Prop) l :
  (∀ u v, R u v → S u → S v) →
  Forall2 R l (rotate1 l) → (∃ u, u ∈ l ∧ S u) → Forall S l.
Proof.
  intros Hclosed Hchain (u & Hu & HSu). destruct l as [|h t]; [constructor|].
  simpl in Hchain.
  assert (S h) as Hh.
  { apply elem_of_cons in Hu as [->|Hu]; [done|].
    apply list_elem_of_split in Hu as (l1 & l2 & ->).
    change (Forall2 R ((h :: l1) ++ u :: l2) ((l1 ++ u :: l2) ++ [h])) in Hchain.
    replace ((l1 ++ u :: l2) ++ [h]) with ((l1 ++ [u]) ++ (l2 ++ [h])) in Hchain
      by (by rewrite <-!app_assoc).
    apply Forall2_app_inv in Hchain as [_ Hchain].
    - by apply (chain_forward R S u l2 h Hclosed Hchain).
    - rewrite length_app. simpl. lia. }
  constructor; [done|]. by apply (chain_forward R S h t h Hclosed Hchain).
Qed.

Lemma cycle_Forall2 (A_ : list Arc) (x : assignment) c :
  Forall (λ a, a ∈ A_ ∧ x a = 1) c →
  Forall2 (λ u w, (u, w) ∈ A_ ∧ x (u, w) = 1) (c.*1) (c.*2).
Proof. induction 1 as [|[u w] c Ha Hc IH]; csimpl; constructor; done. Qed.

Section Cycles.
Context (num_rows num_cols : Z) (H : list (Z * Z)) (x : assignment).
Local Abbreviation N := (create_nodes num_rows num_cols H).
Local Abbreviation g := (grid_graph num_rows num_cols H).
Hypothesis Hfeasible : feasible x (formulate g N).

Lemma cycle_nodes c : is_cycle (A g) x c → ∀ v, v ∈ c.*1 → v ∈ N.
Proof.
  intros (_ & Hsel & _ & _) v (a & -> & Ha)%list_elem_of_fmap.
  rewrite Forall_forall in Hsel. destruct (Hsel a Ha) as [Hin _].
  destruct a as [u w]. by apply arc_nodes in Hin as [? _].
Qed.

Lemma cycle_length_le c : is_cycle (A g) x c → (length c ≤ length N)%nat.
Proof.
  intros Hc. assert (length (c.*1) ≤ length N)%nat as Hlen.
  { apply submseteq_length, NoDup_submseteq; [by destruct Hc as (_ & _ & _ & ?)|].
    by apply cycle_nodes. }
  by rewrite length_fmap in Hlen.
Qed.

(** A cycle as long as the node list passes through every node. *)
Lemma cycle_spanning c :
  is_cycle (A g) x c → length c = length N ↔ ∀ v, v ∈ N → v ∈ c.*1.
Proof.
  intros Hc. pose proof (cycle_nodes c Hc) as Hsub.
  pose proof (cycle_length_le c Hc) as Hle.
  destruct Hc as (_ & _ & _ & Hnd). split.
  - intros Hlen v Hv.
    assert (c.*1 ≡ₚ N) as Hperm; [|by rewrite Hperm].
    apply submseteq_length_Permutation; [by apply NoDup_submseteq|].
    rewrite length_fmap. by apply Nat.eq_le_incl.
  - intros Hall. apply Nat.le_antisymm; [done|].
    assert (length N ≤ length (c.*1))%nat as Hlen.
    { apply submseteq_length, NoDup_submseteq; [apply N_NoDup|done]. }
    by rewrite length_fmap in Hlen.
Qed.

(** The nodes of a cycle are closed under the successor map. *)
Lemma cycle_closed c u w :
  is_cycle (A g) x c → (u, w) ∈ A g ∧ x (u, w) = 1 → u ∈ c.*1 → w ∈ c.*1.
Proof.
  intros (_ & Hsel & Hrot & _) [Hin Hx] ([u' w'] & Hu & Ha)%list_elem_of_fmap.
  simpl in Hu. subst u'. rewrite Forall_forall in Hsel.
  destruct (Hsel _ Ha) as [Hin' Hx'].
  destruct (one_successor _ _ _ x Hfeasible u) as (w0 & _ & _ & Huniq).
  { by apply (arc_nodes num_rows num_cols H) in Hin as [? _]. }
  rewrite (Huniq w Hin Hx), <-(Huniq w' Hin' Hx').
  apply (elem_of_rotate1 (c.*1)). rewrite <-Hrot.
  apply list_elem_of_fmap. by exists (u, w').
Qed.

(** They are closed under the predecessor map as well. *)
Lemma cycle_closed_pred c u w :
  is_cycle (A g) x c → (u, w) ∈ A g ∧ x (u, w) = 1 → w ∈ c.*1 → u ∈ c.*1.
Proof.
  intros (_ & Hsel & Hrot & _) [Hin Hx] Hw.
  apply (elem_of_rotate1 (c.*1)) in Hw. rewrite <-Hrot in Hw.
  apply list_elem_of_fmap in Hw as ([u' w'] & Hw & Ha). simpl in Hw. subst w'.
  rewrite Forall_forall in Hsel. destruct (Hsel _ Ha) as [Hin' Hx'].
  destruct (one_predecessor _ _ _ x Hfeasible w) as (u0 & _ & _ & Huniq).
  { by apply (arc_nodes num_rows num_cols H) in Hin as (_ & ? & _). }
  rewrite (Huniq u Hin Hx), <-(Huniq u' Hin' Hx').
  apply list_elem_of_fmap. by exists (u', w).
Qed.

(** No cycle leaves out exactly one node: the node left out would have to
    be its own successor. *)
Lemma cycle_length_not_pred c : is_cycle (A g) x c → S (length c) ≠ length N.
Proof.
  intros Hc Hlen.
  destruct (decide (Forall (λ v, v ∈ c.*1) N)) as [Hall|Hex].
  { rewrite Forall_forall in Hall. apply (cycle_spanning c Hc) in Hall. lia. }
  apply not_Forall_Exists in Hex; [|apply _].
  apply Exists_exists in Hex as (v & Hv & Hvc).
  destruct (one_successor _ _ _ x Hfeasible v Hv) as (w & Hin & Hx & _).
  pose proof (arc_nodes num_rows num_cols H v w Hin) as (_ & Hw & Hne).
  assert (w ∉ c.*1) as Hwc.
  { intros Hwc. apply Hvc. by apply (cycle_closed_pred c v w). }
  assert (length (v :: w :: c.*1) ≤ length N)%nat as Hle.
  { apply submseteq_length, NoDup_submseteq.
    - destruct Hc as (_ & _ & _ & Hnd). repeat (apply NoDup_cons; split); try done.
      rewrite elem_of_cons. intros [?|?]; done.
    - intros u [->|[->|Hu]%elem_of_cons]%elem_of_cons; [done..|].
      by apply (cycle_nodes c). }
  simpl in Hle. rewrite length_fmap in Hle. unfold Arc in *. lia.
Qed.

(** Two cycles that share a node have the same nodes. *)
Lemma cycles_meet c1 c2 u :
  is_cycle (A g) x c1 → is_cycle (A g) x c2 → u ∈ c1.*1 → u ∈ c2.*1 →
  ∀ v, v ∈ c1.*1 → v ∈ c2.*1.
Proof.
  intros Hc1 Hc2 Hu1 Hu2. apply Forall_forall.
  apply (cycle_propagate (λ u w, (u, w) ∈ A g ∧ x (u, w) = 1)).
  - intros a b Hab Ha. by apply (cycle_closed c2 a b).
  - destruct Hc1 as (_ & Hsel & Hrot & _). rewrite <-Hrot. by apply cycle_Forall2.
  - by exists u.
Qed.

(** The cycle through the dummy node has all the nodes exactly when the
    candidate is one cycle through all the nodes. *)
Lemma spanning_iff tour :
  is_cycle (A g) x tour → dummy_node ∈ tour.*1 →
  length tour = length N ↔ single_spanning_cycle (A g) N x.
Proof.
  intros Htour Hd. split.
  - intros Hlen. split; [by exists tour|]. intros c Hc.
    apply cycle_spanning; [done|]. intros v Hv.
    destruct Hc as (Hne & Hc). destruct c as [|[u w] c]; [done|].
    assert (u ∈ ((u, w) :: c).*1) as Hu by (by left).
    apply (cycles_meet tour ((u, w) :: c) u); [done|by split| |done|].
    + apply cycle_spanning; [done..|]. apply (cycle_nodes ((u, w) :: c)); [by split|done].
    + by apply cycle_spanning.
  - intros [(c & Hc & Hlen) _]. apply cycle_spanning; [done|]. intros v Hv.
    apply (cycles_meet c tour dummy_node); [done..| |done|].
    + apply cycle_spanning; [done..|]. apply dummy_in_N.
    + by apply cycle_spanning.
Qed.
End Cycles.

(** ** Tour Decomposer *)

Lemma subtour_length (A_ : list Arc) x fuel tour :
  subtour A_ x fuel = Returned tour → (2 ≤ length tour)%nat.
Proof.
  unfold subtour. destruct (scan_init A_ x) as [init|]; [|done].
  destruct (sol_dict A_ x !! init) as [next|]; [|done].
  destruct (walk fuel (sol_dict A_ x) next []) as [cyc| |]; [|done..].
  unfold close_cycle. destruct cyc as [|h cyc]; [done|].
  destruct (last (h :: cyc)); [|done]. intros [= <-].
  simpl. rewrite length_app. simpl. lia.
Qed.

(** C10: for every assignment that satisfies the degree constraints, the
    scan for the last selected arc sets the start of the walk to the dummy
    node, and [subtour] returns, for every fuel that covers the nodes, the
    cycle of selected arcs through the dummy node. *)
Theorem subtour_terminates num_rows num_cols H x :
  feasible x (formulate (grid_graph num_rows num_cols H) (create_nodes num_rows num_cols H)) →
  scan_init (A (grid_graph num_rows num_cols H)) x = Some dummy_node
  ∧ ∃ tour,
      (∀ fuel, (length (create_nodes num_rows num_cols H) ≤ fuel)%nat →
               subtour (A (grid_graph num_rows num_cols H)) x fuel = Returned tour)
      ∧ is_cycle (A (grid_graph num_rows num_cols H)) x tour
      ∧ dummy_node ∈ tour.*1.
Proof.
  intros Hx. split; [by apply scan_init_dummy|].
  destruct (subtour_dummy_cycle _ _ _ _ Hx) as (tour & Hret & Hcyc & Hlast & _).
  exists tour. split_and!; [done..|]. by apply last_Some_elem_of.
Qed.

Lemma subtour_terminates_witness :
  scan_init (A (grid_graph 1 2 [])) (selecting tour_1x2) = Some dummy_node
  ∧ ∃ tour,
      (∀ fuel, (length (create_nodes 1 2 []) ≤ fuel)%nat →
               subtour (A (grid_graph 1 2 [])) (selecting tour_1x2) fuel = Returned tour)
      ∧ is_cycle (A (grid_graph 1 2 [])) (selecting tour_1x2) tour
      ∧ dummy_node ∈ tour.*1.
Proof. apply (subtour_terminates 1 2 [] (selecting tour_1x2)). by_evaluation. Defined.

(** C1, as the code has it: for every candidate solution that satisfies the
    degree constraints, [subtour] returns one cycle, the one through the
    dummy node.  Its nodes are nodes of the graph, none twice; no node of a
    cycle that avoids the dummy node is among them; and they are all the
    nodes exactly when the candidate is a single cycle through every
    node. *)
Theorem subtour_returns_one_cycle num_rows num_cols H x :
  feasible x (formulate (grid_graph num_rows num_cols H) (create_nodes num_rows num_cols H)) →
  ∃ tour,
    subtour (A (grid_graph num_rows num_cols H)) x
            (length (create_nodes num_rows num_cols H)) = Returned tour
    ∧ is_cycle (A (grid_graph num_rows num_cols H)) x tour
    ∧ dummy_node ∈ tour.*1
    ∧ (∀ v, v ∈ tour.*1 → v ∈ create_nodes num_rows num_cols H)
    ∧ (∀ c, is_cycle (A (grid_graph num_rows num_cols H)) x c → dummy_node ∉ c.*1 →
            ∀ v, v ∈ c.*1 → v ∉ tour.*1)
    ∧ ((∀ v, v ∈ create_nodes num_rows num_cols H → v ∈ tour.*1)
       ↔ single_spanning_cycle (A (grid_graph num_rows num_cols H))
                               (create_nodes num_rows num_cols H) x).
Proof.
  intros Hx.
  destruct (subtour_dummy_cycle _ _ _ _ Hx) as (tour & Hret & Hcyc & Hlast & HN & _).
  assert (dummy_node ∈ tour.*1) as Hd by (by apply last_Some_elem_of).
  exists tour. split_and!; try done.
  - by apply Hret.
  - by apply Forall_forall.
  - intros c Hc Hdc v Hvc Hvt. apply Hdc.
    by apply (cycles_meet _ _ _ x Hx tour c v).
  - rewrite <-(cycle_spanning _ _ _ x tour Hcyc).
    by apply spanning_iff.
Qed.

Lemma subtour_returns_one_cycle_witness :
  ∃ tour,
    subtour (A (grid_graph 2 2 [])) x_2x2 (length (create_nodes 2 2 [])) = Returned tour
    ∧ is_cycle (A (grid_graph 2 2 [])) x_2x2 tour
    ∧ dummy_node ∈ tour.*1
    ∧ (∀ v, v ∈ tour.*1 → v ∈ create_nodes 2 2 [])
    ∧ (∀ c, is_cycle (A (grid_graph 2 2 [])) x_2x2 c → dummy_node ∉ c.*1 →
            ∀ v, v ∈ c.*1 → v ∉ tour.*1)
    ∧ ((∀ v, v ∈ create_nodes 2 2 [] → v ∈ tour.*1)
       ↔ single_spanning_cycle (A (grid_graph 2 2 [])) (create_nodes 2 2 []) x_2x2).
Proof. apply (subtour_returns_one_cycle 2 2 [] x_2x2). by_evaluation. Defined.

(** C1 fails on the code: on the 2 x 2 grid, for a candidate that satisfies
    the degree constraints and has two cycles, [subtour] returns the cycle
    through the dummy node only; the nodes (1, 2) and (2, 2) of the other
    cycle are in no returned cycle. *)
Lemma subtour_misses_other_cycle :
  feasible x_2x2 (formulate (grid_graph 2 2 []) (create_nodes 2 2 []))
  ∧ subtour (A (grid_graph 2 2 [])) x_2x2 (length (create_nodes 2 2 []))
    = Returned dummy_cycle_2x2
  ∧ is_cycle (A (grid_graph 2 2 [])) x_2x2 other_cycle_2x2
  ∧ node 1 2 ∈ create_nodes 2 2 [] ∧ (node 1 2 ∉ dummy_cycle_2x2.*1)
  ∧ node 2 2 ∈ create_nodes 2 2 [] ∧ (node 2 2 ∉ dummy_cycle_2x2.*1).
Proof. split_and!; try by_evaluation. vm_compute. reflexivity. Qed.

(** C6: no arc joins a node to itself, and every cycle that [subtour]
    returns has at least two arcs; for a candidate that satisfies the degree
    constraints it does return one. *)
Theorem no_self_loop_cycle_length num_rows num_cols H :
  (∀ a, a ∈ A (grid_graph num_rows num_cols H) → a.1 ≠ a.2)
  ∧ (∀ x fuel tour,
       subtour (A (grid_graph num_rows num_cols H)) x fuel = Returned tour →
       (2 ≤ length tour)%nat)
  ∧ (∀ x,
       feasible x (formulate (grid_graph num_rows num_cols H)
                             (create_nodes num_rows num_cols H)) →
       ∃ tour,
         subtour (A (grid_graph num_rows num_cols H)) x
                 (length (create_nodes num_rows num_cols H)) = Returned tour
         ∧ (2 ≤ length tour)%nat).
Proof.
  split_and!.
  - intros a. unfold grid_graph. rewrite create_arcs_A. apply arcs_of_irrefl.
  - intros x fuel tour. apply subtour_length.
  - intros x Hx.
    destruct (subtour_dummy_cycle _ _ _ _ Hx) as (tour & Hret & _ & _ & _ & Hlen).
    exists tour. split; [by apply Hret|done].
Qed.

Lemma no_self_loop_cycle_length_witness :
  dummy_node ≠ node 1 1
  ∧ (2 ≤ length dummy_cycle_2x2)%nat
  ∧ ∃ tour, subtour (A (grid_graph 2 2 [])) x_2x2 (length (create_nodes 2 2 []))
            = Returned tour ∧ (2 ≤ length tour)%nat.
Proof.
  destruct (no_self_loop_cycle_length 2 2 []) as (Hloop & Hlen & Hret). split_and!.
  - apply (Hloop (dummy_node, node 1 1)). by_evaluation.
  - apply (Hlen x_2x2 5%nat). vm_compute. reflexivity.
  - apply (Hret x_2x2). by_evaluation.
Defined.

(** ** Elimination loop *)

Lemma elimination_loop_done A_ n solve s budget fuel st :
  ¬ (st_tour_length st < n)%nat →
  elimination_loop A_ n solve s budget fuel st = Returned st.
Proof. intros Hn. destruct budget; simpl; by rewrite bool_decide_eq_false_2. Qed.

Lemma cut_spanning A_ n st tour :
  ¬ (length tour < n)%nat →
  cut A_ n st tour = mkState (st_mdl st) (length tour) (st_nodes st).
Proof. intros Hn. unfold cut. by rewrite bool_decide_eq_false_2. Qed.

Lemma cut_subtour A_ n st tour :
  (1 < length tour < n)%nat →
  cut A_ n st tour
  = mkState (addConstraint (st_mdl st) (elimination_constraint A_ tour))
            (length tour) (Some (tour.*1)).
Proof. intros [? ?]. unfold cut. by rewrite !bool_decide_eq_true_2. Qed.

Section Passes.
Context (num_rows num_cols : Z) (H : list (Z * Z)).
Context (solve : Model → assignment) (st : LoopState).
Local Abbreviation N := (create_nodes num_rows num_cols H).
Local Abbreviation A_ := (A (grid_graph num_rows num_cols H)).
Local Abbreviation x := (solve (st_mdl st)).
Hypothesis Hfeasible : feasible x (formulate (grid_graph num_rows num_cols H) N).

(** What a pass of the loop computes before its [print]. *)
Lemma pass_tour fuel :
  (length N ≤ fuel)%nat →
  ∃ tour, subtour A_ x fuel = Returned tour
    ∧ is_cycle A_ x tour ∧ dummy_node ∈ tour.*1
    ∧ (2 ≤ length tour ≤ length N)%nat
    ∧ (length tour = length N ↔ single_spanning_cycle A_ N x).
Proof.
  intros Hfuel.
  destruct (subtour_dummy_cycle _ _ _ _ Hfeasible) as (tour & Hret & Hcyc & Hlast & _ & Hlen).
  assert (dummy_node ∈ tour.*1) as Hd by (by apply last_Some_elem_of).
  exists tour. split_and!; [by apply Hret|done..| |by apply spanning_iff].
  by apply (cycle_length_le num_rows num_cols H x).
Qed.

(** A candidate that is not one cycle through all the nodes: the pass adds
    the constraint of the returned subtour and the loop solves again. *)
Lemma loop_cuts_and_resolves s budget fuel :
  (length N ≤ fuel)%nat → (st_tour_length st < length N)%nat →
  ¬ single_spanning_cycle A_ N x →
  ∃ tour, subtour A_ x fuel = Returned tour
    ∧ (1 < length tour < length N)%nat
    ∧ elimination_loop A_ (length N) solve s (S budget) fuel st
      = elimination_loop A_ (length N) solve s budget fuel
          (mkState (addConstraint (st_mdl st) (elimination_constraint A_ tour))
                   (length tour) (Some (tour.*1))).
Proof.
  intros Hfuel Hlt Hns.
  destruct (pass_tour fuel Hfuel) as (tour & Hret & _ & _ & Hlen & Hiff).
  assert (length tour ≠ length N) as Hne by (by rewrite Hiff).
  exists tour. split_and!; [done|lia|lia|].
  simpl. rewrite bool_decide_eq_true_2 by done. unfold iteration.
  rewrite Hret, cut_subtour by lia. by destruct s.
Qed.

(** A candidate that is one cycle through all the nodes, in a pass whose
    [print] does not raise: the loop ends with the model as it is, and the
    tour read after the loop passes the assertion. *)
Lemma loop_accepts s budget fuel :
  (length N ≤ fuel)%nat → (st_tour_length st < length N)%nat →
  s = calling_grb ∨ is_Some (st_nodes st) →
  single_spanning_cycle A_ N x →
  elimination_loop A_ (length N) solve s (S budget) fuel st
  = Returned (mkState (st_mdl st) (length N) (st_nodes st))
  ∧ ∃ tour, accepted_tour A_ (length N) solve fuel (st_mdl st) = Returned tour
            ∧ length tour = length N.
Proof.
  intros Hfuel Hlt Hprint Hs.
  destruct (pass_tour fuel Hfuel) as (tour & Hret & _ & _ & _ & Hiff).
  apply Hiff in Hs. split.
  - simpl. rewrite bool_decide_eq_true_2 by done. unfold iteration.
    rewrite Hret, cut_spanning by lia. simpl.
    assert (print_line s (st_nodes st) = Returned ()) as ->.
    { destruct Hprint as [->|[l ->]]; [done|by destruct s]. }
    rewrite Hs. apply elimination_loop_done. simpl. lia.
  - exists tour. split; [|done]. unfold accepted_tour.
    by rewrite Hret, bool_decide_eq_true_2.
Qed.

(** The same candidate in a pass of the PuLP script that finds [nodes]
    unbound: the [print] raises. *)
Lemma loop_raises_on_unbound_nodes budget fuel :
  (length N ≤ fuel)%nat → (st_tour_length st < length N)%nat →
  st_nodes st = None →
  single_spanning_cycle A_ N x →
  elimination_loop A_ (length N) solve calling_pulp (S budget) fuel st = Raised NameError.
Proof.
  intros Hfuel Hlt Hnone Hs.
  destruct (pass_tour fuel Hfuel) as (tour & Hret & _ & _ & _ & Hiff).
  apply Hiff in Hs. simpl. rewrite bool_decide_eq_true_2 by done. unfold iteration.
  rewrite Hret, cut_spanning by lia. simpl. by rewrite Hnone.
Qed.
End Passes.

(** X1: a pass of the loop for a candidate that satisfies the degree
    constraints.  If the candidate is one cycle through all the nodes, the
    loop ends with the model as it is and the assertion after the loop
    holds, unless the [print] of the PuLP script finds [nodes] unbound and
    raises; if it is not, the pass adds the elimination constraint of the
    returned subtour and the loop solves again. *)
Theorem elimination_loop_pass num_rows num_cols H solve s budget fuel st :
  let N := create_nodes num_rows num_cols H in
  let A_ := A (grid_graph num_rows num_cols H) in
  let x := solve (st_mdl st) in
  feasible x (formulate (grid_graph num_rows num_cols H) N) →
  (length N ≤ fuel)%nat → (st_tour_length st < length N)%nat →
  (single_spanning_cycle A_ N x → s = calling_grb ∨ is_Some (st_nodes st) →
     elimination_loop A_ (length N) solve s (S budget) fuel st
     = Returned (mkState (st_mdl st) (length N) (st_nodes st))
     ∧ ∃ tour, accepted_tour A_ (length N) solve fuel (st_mdl st) = Returned tour
               ∧ length tour = length N)
  ∧ (single_spanning_cycle A_ N x → s = calling_pulp → st_nodes st = None →
     elimination_loop A_ (length N) solve s (S budget) fuel st = Raised NameError)
  ∧ (¬ single_spanning_cycle A_ N x →
     ∃ tour, subtour A_ x fuel = Returned tour
       ∧ (1 < length tour < length N)%nat
       ∧ elimination_loop A_ (length N) solve s (S budget) fuel st
         = elimination_loop A_ (length N) solve s budget fuel
             (mkState (addConstraint (st_mdl st) (elimination_constraint A_ tour))
                      (length tour) (Some (tour.*1)))).
Proof.
  intros N A_ x Hx Hfuel Hlt. split_and!.
  - intros Hs Hprint. by apply loop_accepts.
  - intros Hs -> Hnone. by apply loop_raises_on_unbound_nodes.
  - intros Hns. by apply loop_cuts_and_resolves.
Qed.

Lemma elimination_loop_pass_witness :
  let N := create_nodes 1 2 [] in
  let A_ := A (grid_graph 1 2 []) in
  let mdl := formulate (grid_graph 1 2 []) N in
  let solve := λ _ : Model, selecting tour_1x2 in
  let st := initial_state mdl in
  (single_spanning_cycle A_ N (solve mdl) → calling_grb = calling_grb ∨ is_Some (st_nodes st) →
     elimination_loop A_ (length N) solve calling_grb 1 3 st
     = Returned (mkState (st_mdl st) (length N) (st_nodes st))
     ∧ ∃ tour, accepted_tour A_ (length N) solve 3 (st_mdl st) = Returned tour
               ∧ length tour = length N)
  ∧ (single_spanning_cycle A_ N (solve mdl) → calling_grb = calling_pulp → st_nodes st = None →
     elimination_loop A_ (length N) solve calling_grb 1 3 st = Raised NameError)
  ∧ (¬ single_spanning_cycle A_ N (solve mdl) →
     ∃ tour, subtour A_ (solve mdl) 3 = Returned tour
       ∧ (1 < length tour < length N)%nat
       ∧ elimination_loop A_ (length N) solve calling_grb 1 3 st
         = elimination_loop A_ (length N) solve calling_grb 0 3
             (mkState (addConstraint (st_mdl st) (elimination_constraint A_ tour))
                      (length tour) (Some (tour.*1)))).
Proof.
  apply (elimination_loop_pass 1 2 [] (λ _, selecting tour_1x2) calling_grb 0 3
           (initial_state (formulate (grid_graph 1 2 []) (create_nodes 1 2 [])))).
  - by_evaluation.
  - vm_compute. lia.
  - vm_compute. lia.
Defined.

(** C4 at the loop of the PuLP script: on the 1 x 2 grid every candidate
    that satisfies the degree constraints is one cycle through the three
    nodes, so the first pass should accept; the Gurobi twin of the script
    leaves the loop with the model as it is, while the PuLP script raises
    [NameError] at the [print] that ends the loop body, [nodes] being bound
    only where a constraint is added. *)
Theorem first_pass_acceptance_raises solve budget :
  let N := create_nodes 1 2 [] in
  let A_ := A (grid_graph 1 2 []) in
  let mdl := formulate (grid_graph 1 2 []) N in
  feasible (solve mdl) mdl →
  single_spanning_cycle A_ N (solve mdl)
  ∧ elimination_loop A_ (length N) solve calling_grb (S budget) 3 (initial_state mdl)
    = Returned (mkState mdl 3 None)
  ∧ elimination_loop A_ (length N) solve calling_pulp (S budget) 3 (initial_state mdl)
    = Raised NameError.
Proof.
  intros N A_ mdl Hx.
  assert (single_spanning_cycle A_ N (solve mdl)) as Hs.
  { destruct (pass_tour 1 2 [] solve (initial_state mdl) Hx 3%nat)
      as (tour & _ & Hcyc & _ & Hlen & Hiff); [vm_compute; lia|].
    apply Hiff. pose proof (cycle_length_not_pred 1 2 [] _ Hx tour Hcyc) as Hne.
    change (length (create_nodes 1 2 [])) with 3%nat in *. lia. }
  split_and!; [done|..].
  - apply (loop_accepts 1 2 [] solve (initial_state mdl) Hx calling_grb budget 3);
      [vm_compute; lia..|by left|done].
  - apply (loop_raises_on_unbound_nodes 1 2 [] solve (initial_state mdl) Hx budget 3);
      [vm_compute; lia..|done|done].
Qed.

Lemma first_pass_acceptance_raises_witness :
  let N := create_nodes 1 2 [] in
  let A_ := A (grid_graph 1 2 []) in
  let mdl := formulate (grid_graph 1 2 []) N in
  let solve := λ _ : Model, selecting tour_1x2 in
  single_spanning_cycle A_ N (solve mdl)
  ∧ elimination_loop A_ (length N) solve calling_grb 1 3 (initial_state mdl)
    = Returned (mkState mdl 3 None)
  ∧ elimination_loop A_ (length N) solve calling_pulp 1 3 (initial_state mdl)
    = Raised NameError.
Proof.
  apply (first_pass_acceptance_raises (λ _, selecting tour_1x2) 0). by_evaluation.
Defined.

(** ** Cut Generator *)

(** C2, as the code has it: a pass of the loop adds at most one elimination
    constraint, and it is the one of the cycle through the dummy node, added
    exactly when that cycle has fewer arcs than there are nodes, in which
    case the pass completes; the other cycles of the candidate get no
    constraint in that pass. *)
Theorem cut_generator_cuts_dummy_cycle num_rows num_cols H x s fuel st :
  let N := create_nodes num_rows num_cols H in
  let A_ := A (grid_graph num_rows num_cols H) in
  feasible x (formulate (grid_graph num_rows num_cols H) N) →
  (length N ≤ fuel)%nat →
  ∃ tour,
    subtour A_ x fuel = Returned tour
    ∧ is_cycle A_ x tour ∧ dummy_node ∈ tour.*1
    ∧ constraints (st_mdl (cut A_ (length N) st tour))
      = constraints (st_mdl st)
        ++ (if bool_decide (length tour < length N)%nat
            then [elimination_constraint A_ tour] else [])
    ∧ ((length tour < length N)%nat →
       iteration A_ (length N) s fuel x st = Returned (cut A_ (length N) st tour)).
Proof.
  intros N A_ Hx Hfuel.
  destruct (subtour_dummy_cycle _ _ _ _ Hx) as (tour & Hret & Hcyc & Hlast & _ & Hlen).
  fold N A_ in Hret, Hcyc. specialize (Hret fuel Hfuel).
  exists tour. split_and!.
  - done.
  - done.
  - by apply last_Some_elem_of.
  - unfold cut. repeat case_bool_decide; simpl; try done; try lia.
    by rewrite app_nil_r.
  - intros Hlt. unfold iteration. rewrite Hret, cut_subtour by lia. by destruct s.
Qed.

Lemma cut_generator_cuts_dummy_cycle_witness :
  let N := create_nodes 2 2 [] in
  let A_ := A (grid_graph 2 2 []) in
  let st := initial_state (formulate (grid_graph 2 2 []) (create_nodes 2 2 [])) in
  ∃ tour,
    subtour A_ x_2x2 5 = Returned tour
    ∧ is_cycle A_ x_2x2 tour ∧ dummy_node ∈ tour.*1
    ∧ constraints (st_mdl (cut A_ (length N) st tour))
      = constraints (st_mdl st)
        ++ (if bool_decide (length tour < length N)%nat
            then [elimination_constraint A_ tour] else [])
    ∧ ((length tour < length N)%nat →
       iteration A_ (length N) calling_pulp 5 x_2x2 st
       = Returned (cut A_ (length N) st tour)).
Proof.
  apply (cut_generator_cuts_dummy_cycle 2 2 [] x_2x2 calling_pulp 5
           (initial_state (formulate (grid_graph 2 2 []) (create_nodes 2 2 [])))).
  - by_evaluation.
  - vm_compute. lia.
Defined.

(** C2 fails on the code: on the 2 x 2 grid, for a candidate with the
    cycle through the dummy node and a second cycle that avoids it, the one
    constraint the pass adds is the constraint of the cycle through the
    dummy node, and the second cycle gets none. *)
Lemma dummy_cycle_cut_other_cycle_kept :
  let N := create_nodes 2 2 [] in
  let A_ := A (grid_graph 2 2 []) in
  let mdl := formulate (grid_graph 2 2 []) N in
  feasible x_2x2 mdl
  ∧ is_cycle A_ x_2x2 dummy_cycle_2x2 ∧ dummy_node ∈ dummy_cycle_2x2.*1
  ∧ is_cycle A_ x_2x2 other_cycle_2x2 ∧ (dummy_node ∉ other_cycle_2x2.*1)
  ∧ iteration A_ (length N) calling_pulp 5 x_2x2 (initial_state mdl)
    = Returned (mkState (addConstraint mdl (elimination_constraint A_ dummy_cycle_2x2))
                        3 (Some (dummy_cycle_2x2.*1)))
  ∧ (elimination_constraint A_ other_cycle_2x2
     ∉ constraints (addConstraint mdl (elimination_constraint A_ dummy_cycle_2x2))).
Proof. split_and!; try by_evaluation. vm_compute. reflexivity. Qed.

(** ** Elimination constraints *)

Lemma elem_of_imap_pair {T} (l : list T) p : p ∈ imap pair l ↔ l !! p.1 = Some p.2.
Proof.
  rewrite elem_of_lookup_imap. split.
  - by intros (i & y & -> & Hi).
  - intros Hp. exists p.1, p.2. by destruct p.
Qed.

Lemma imap_pair_inj {T} (l : list T) p q :
  NoDup l → p ∈ imap pair l → q ∈ imap pair l → p.2 = q.2 → p = q.
Proof.
  intros Hnd Hp%elem_of_imap_pair Hq%elem_of_imap_pair Heq.
  destruct p as [i u], q as [j v]. simpl in *. subst v.
  by rewrite (NoDup_lookup l i j u Hnd Hp Hq).
Qed.

Lemma imap_pair_NoDup {T} (l : list T) : NoDup (imap pair l).
Proof.
  apply NoDup_alt. intros i j p Hi Hj.
  rewrite list_lookup_imap in Hi, Hj.
  destruct (l !! i) as [u|]; [|done]. destruct (l !! j) as [v|]; [|done].
  simpl in *. congruence.
Qed.

Lemma elem_of_permutations2 {T} (l : list T) u v :
  (u, v) ∈ permutations2 l ↔
  ∃ i j : nat, i ≠ j ∧ l !! i = Some u ∧ l !! j = Some v.
Proof.
  unfold permutations2. rewrite list_elem_of_bind. split.
  - intros (p & Hin & Hp). apply list_elem_of_bind in Hin as (q & Hin & Hq).
    destruct p as [i u'], q as [j v'].
    apply elem_of_imap_pair in Hp, Hq. simpl in *.
    case_bool_decide; [|by apply elem_of_nil in Hin].
    apply list_elem_of_singleton in Hin. injection Hin as -> ->. by exists i, j.
  - intros (i & j & Hne & Hi & Hj). exists (i, u). split; [|by apply elem_of_imap_pair].
    apply list_elem_of_bind. exists (j, v). split; [|by apply elem_of_imap_pair].
    simpl. rewrite bool_decide_eq_true_2 by done. by left.
Qed.

(** Of a list without repetition: the ordered pairs of different
    elements, each once. *)
Lemma elem_of_permutations2_NoDup {T} (l : list T) u v :
  NoDup l → (u, v) ∈ permutations2 l ↔ u ∈ l ∧ v ∈ l ∧ u ≠ v.
Proof.
  intros Hnd. rewrite elem_of_permutations2. split.
  - intros (i & j & Hne & Hi & Hj). split_and!.
    + apply list_elem_of_lookup. eauto.
    + apply list_elem_of_lookup. eauto.
    + intros ->. apply Hne. by apply (NoDup_lookup l i j v).
  - intros ((i & Hi)%list_elem_of_lookup & (j & Hj)%list_elem_of_lookup & Hne).
    exists i, j. split_and!; [|done..]. intros ->. congruence.
Qed.

Lemma permutations2_NoDup {T} (l : list T) : NoDup l → NoDup (permutations2 l).
Proof.
  intros Hnd. unfold permutations2. apply NoDup_bind; [| |apply imap_pair_NoDup].
  - intros p1 p2 y Hp1 Hp2 (q1 & Hy1 & _)%list_elem_of_bind (q2 & Hy2 & _)%list_elem_of_bind.
    repeat case_bool_decide; try by (apply elem_of_nil in Hy1 || apply elem_of_nil in Hy2).
    apply list_elem_of_singleton in Hy1, Hy2. subst y.
    apply (imap_pair_inj l); [done..|]. by injection Hy2.
  - intros p Hp. apply NoDup_bind; [| |apply imap_pair_NoDup].
    + intros q1 q2 y Hq1 Hq2 Hy1 Hy2.
      repeat case_bool_decide; try by (apply elem_of_nil in Hy1 || apply elem_of_nil in Hy2).
      apply list_elem_of_singleton in Hy1, Hy2. subst y.
      apply (imap_pair_inj l); [done..|]. by injection Hy2.
    + intros q _. case_bool_decide; [apply NoDup_singleton|apply NoDup_nil_2].
Qed.

(** The terms of the constraint built from a subtour that leaves no node
    twice. *)
Lemma elimination_constraint_form_aux num_rows num_cols H tour :
  NoDup (tour.*1) →
  (∀ a, a ∈ terms (elimination_constraint (A (grid_graph num_rows num_cols H)) tour) ↔
        a ∈ A (grid_graph num_rows num_cols H) ∧ a.1 ∈ tour.*1 ∧ a.2 ∈ tour.*1)
  ∧ NoDup (terms (elimination_constraint (A (grid_graph num_rows num_cols H)) tour)).
Proof.
  intros Hnd. split.
  - intros [u v]. unfold elimination_constraint. simpl.
    rewrite list_elem_of_filter, (elem_of_permutations2_NoDup _ _ _ Hnd). split.
    + tauto.
    + intros (Hin & Hu & Hv). split_and!; try done.
      unfold grid_graph in Hin. rewrite create_arcs_A in Hin.
      by apply arcs_of_irrefl in Hin.
  - apply NoDup_filter. by apply permutations2_NoDup.
Qed.

(** X2: the constraint of the iterative scripts and of the tuple-based
    callback, for a subtour that leaves no node twice: its terms are the
    arcs of the graph with both ends among the nodes of the subtour, each
    once, and its bound is the length of the subtour minus one. *)
Theorem elimination_constraint_form num_rows num_cols H tour :
  NoDup (tour.*1) →
  let c := elimination_constraint (A (grid_graph num_rows num_cols H)) tour in
  rel c = LE ∧ rhs c = Z.of_nat (length tour) - 1
  ∧ (∀ a, a ∈ terms c ↔
          a ∈ A (grid_graph num_rows num_cols H) ∧ a.1 ∈ tour.*1 ∧ a.2 ∈ tour.*1)
  ∧ NoDup (terms c).
Proof.
  intros Hnd c.
  destruct (elimination_constraint_form_aux num_rows num_cols H tour Hnd) as [Hin Hndt].
  by split_and!.
Qed.

Lemma elimination_constraint_form_witness :
  let c := elimination_constraint (A (grid_graph 2 2 [])) dummy_cycle_2x2 in
  rel c = LE ∧ rhs c = Z.of_nat (length dummy_cycle_2x2) - 1
  ∧ (∀ a, a ∈ terms c ↔
          a ∈ A (grid_graph 2 2 []) ∧ a.1 ∈ dummy_cycle_2x2.*1 ∧ a.2 ∈ dummy_cycle_2x2.*1)
  ∧ NoDup (terms c).
Proof. apply (elimination_constraint_form 2 2 [] dummy_cycle_2x2). by_evaluation. Defined.

(** A sum of binary variables counts the selected ones. *)
Lemma binary_sum_count (x : assignment) l :
  binary x l → py_sum (x <$> l) = Z.of_nat (length (filter (λ a, x a = 1) l)).
Proof.
  induction 1 as [|a l Ha Hl IH]; csimpl; [done|].
  rewrite py_sum_cons, IH, filter_cons. destruct Ha as [Ha|Ha]; case_decide; simpl; lia.
Qed.

(** The selected arcs among the terms of the constraint built from a cycle
    of the candidate are the arcs of the cycle. *)
Lemma cut_violated_aux num_rows num_cols H x tour :
  feasible x (formulate (grid_graph num_rows num_cols H) (create_nodes num_rows num_cols H)) →
  is_cycle (A (grid_graph num_rows num_cols H)) x tour →
  lhs x (elimination_constraint (A (grid_graph num_rows num_cols H)) tour)
  = Z.of_nat (length tour)
  ∧ ¬ satisfies x (elimination_constraint (A (grid_graph num_rows num_cols H)) tour).
Proof.
  intros Hx Hcyc. pose proof Hcyc as (_ & Hsel & _ & Hnd).
  destruct (elimination_constraint_form_aux num_rows num_cols H tour Hnd)
    as (Hin & Hndt).
  set (c := elimination_constraint (A (grid_graph num_rows num_cols H)) tour) in *.
  assert (lhs x c = Z.of_nat (length tour)) as Hlhs.
  { unfold lhs. rewrite binary_sum_count.
    - f_equal. apply Permutation_length, NoDup_Permutation.
      + by apply NoDup_filter.
      + by apply (NoDup_fmap_1 fst).
      + rewrite Forall_forall in Hsel. intros [u w]. rewrite list_elem_of_filter, Hin.
        simpl. split.
        * intros (Hxa & Ha & Hu & _).
          apply list_elem_of_fmap in Hu as ([u' w'] & Hu & Hb). simpl in Hu. subst u'.
          destruct (Hsel _ Hb) as [Hb' Hxb].
          destruct (one_successor _ _ _ x Hx u) as (w0 & _ & _ & Huniq).
          { by apply (arc_nodes num_rows num_cols H) in Ha as [? _]. }
          by rewrite (Huniq w Ha Hxa), <-(Huniq w' Hb' Hxb).
        * intros Ha. destruct (Hsel _ Ha) as [Ha' Hxa]. split_and!; [done..| |].
          -- apply list_elem_of_fmap. by exists (u, w).
          -- destruct Hcyc as (_ & _ & Hrot & _).
             apply (elem_of_rotate1 (tour.*1)). rewrite <-Hrot.
             apply list_elem_of_fmap. by exists (u, w).
    - unfold binary. rewrite Forall_forall. intros a Ha%Hin.
      pose proof (binary_A _ _ _ x Hx) as Hb. unfold binary in Hb.
      rewrite Forall_forall in Hb. apply Hb. by destruct Ha. }
  split; [done|]. unfold satisfies. rewrite Hlhs. unfold c. simpl. lia.
Qed.

(** X3: the constraint is violated by the candidate whose subtour it was
    built from: the selected arcs among its terms are the arcs of the subtour, so
    its left-hand side is the length of the subtour, one more than its
    bound. *)
Theorem cut_violated_by_candidate num_rows num_cols H x tour :
  feasible x (formulate (grid_graph num_rows num_cols H) (create_nodes num_rows num_cols H)) →
  is_cycle (A (grid_graph num_rows num_cols H)) x tour →
  lhs x (elimination_constraint (A (grid_graph num_rows num_cols H)) tour)
  = Z.of_nat (length tour)
  ∧ ¬ satisfies x (elimination_constraint (A (grid_graph num_rows num_cols H)) tour).
Proof. apply cut_violated_aux. Qed.

Lemma cut_violated_by_candidate_witness :
  lhs x_2x2 (elimination_constraint (A (grid_graph 2 2 [])) dummy_cycle_2x2)
  = Z.of_nat (length dummy_cycle_2x2)
  ∧ ¬ satisfies x_2x2 (elimination_constraint (A (grid_graph 2 2 [])) dummy_cycle_2x2).
Proof.
  apply (cut_violated_by_candidate 2 2 [] x_2x2 dummy_cycle_2x2); by_evaluation.
Defined.

(** ** The walk that stops at a given node *)

Lemma walk_until_dummy fuel sol next cyc :
  walk_until dummy_node fuel sol next cyc = walk fuel sol next cyc.
Proof.
  revert next cyc. induction fuel as [|fuel IH]; intros next cyc; simpl; [done|].
  case_bool_decide; [|done]. destruct (sol !! next); [apply IH|done].
Qed.

Section WalkUntil.
Context (sol : gmap Node Node) (N : list Node) (stop : Node).
Hypothesis sol_total : ∀ v, v ∈ N → ∃ w, sol !! v = Some w ∧ w ∈ N.
Hypothesis sol_inj : ∀ u v w, sol !! u = Some w → sol !! v = Some w → u = v.
Hypothesis sol_irrefl : ∀ v, sol !! v ≠ Some v.

(** What holds of [next] and [arc_cycle] each time the loop test is
    reached, [start] being the successor of [stop]. *)
Record until_inv (start next : Node) (cyc : list Arc) : Prop := {
  until_linked : Forall (linked sol) cyc;
  until_chain : start :: cyc.*2 = cyc.*1 ++ [next];
  until_nodup : NoDup (stop :: cyc.*1);
  until_start : sol !! stop = Some start;
  until_nodes : Forall (λ v, v ∈ N) (stop :: cyc.*1);
  until_next : next ∈ N
}.

Lemma until_inv_fresh start next cyc :
  until_inv start next cyc → next ≠ stop → NoDup (stop :: cyc.*1 ++ [next]).
Proof.
  intros [Hl Hc Hnd Hs _ _] Hne.
  assert (NoDup (start :: cyc.*2)) as Himg.
  { eapply (NoDup_image sol sol_inj); [|exact Hnd].
    constructor; [done|by apply linked_Forall2]. }
  rewrite Hc in Himg. apply NoDup_app in Himg as (_ & Hfresh & _).
  apply NoDup_cons in Hnd as [Hd Hnd]. apply NoDup_cons. split.
  - rewrite elem_of_app, list_elem_of_singleton. intros [?|?]; [done|congruence].
  - apply NoDup_app. split_and!; [done| |apply NoDup_singleton].
    intros v Hv ->%list_elem_of_singleton. apply (Hfresh next Hv). by left.
Qed.

Lemma until_inv_bound start next cyc :
  until_inv start next cyc → (S (length cyc) ≤ length N)%nat.
Proof.
  intros [_ _ Hnd _ HN _].
  assert (length (stop :: cyc.*1) ≤ length N)%nat as Hlen.
  { apply submseteq_length, NoDup_submseteq; [done|]. by apply Forall_forall. }
  simpl in Hlen. by rewrite length_fmap in Hlen.
Qed.

Lemma until_inv_step start next w cyc :
  until_inv start next cyc → next ≠ stop → sol !! next = Some w → w ∈ N →
  until_inv start w (cyc ++ [(next, w)]).
Proof.
  intros Hinv Hne Hw HwN. pose proof (until_inv_fresh _ _ _ Hinv Hne) as Hnd.
  destruct Hinv as [Hl Hc _ Hs HN Hn]. split.
  - apply Forall_app. split; [done|]. by apply Forall_singleton.
  - rewrite !fmap_app. simpl. by rewrite app_comm_cons, Hc.
  - by rewrite fmap_app.
  - done.
  - rewrite fmap_app, app_comm_cons. apply Forall_app. split; [done|].
    by apply Forall_singleton.
  - done.
Qed.

(** The loop returns once the fuel covers the nodes not yet walked. *)
Lemma walk_until_returns fuel start next cyc :
  until_inv start next cyc → (length N ≤ fuel + length cyc)%nat →
  ∃ res, walk_until stop fuel sol next cyc = Returned res ∧ until_inv start stop res.
Proof.
  revert next cyc. induction fuel as [|fuel IH]; intros next cyc Hinv Hfuel.
  - apply until_inv_bound in Hinv. lia.
  - simpl. case_bool_decide as Hne.
    + destruct (sol_total next) as (w & Hw & HwN); [by destruct Hinv|].
      rewrite Hw. apply IH.
      * by apply until_inv_step.
      * rewrite length_app. simpl. lia.
    + subst next. by exists cyc.
Qed.

(** More fuel does not change what the loop returns. *)
Lemma walk_until_fuel_mono fuel fuel' next cyc res :
  walk_until stop fuel sol next cyc = Returned res → (fuel ≤ fuel')%nat →
  walk_until stop fuel' sol next cyc = Returned res.
Proof.
  revert fuel' next cyc. induction fuel as [|fuel IH]; intros fuel' next cyc; [done|].
  intros Hw Hle. destruct fuel' as [|fuel']; [lia|]. simpl in *.
  case_bool_decide; [|done]. destruct (sol !! next); [|done].
  apply IH; [done|lia].
Qed.

(** What the loop returns is closed into the cycle through [stop]. *)
Lemma close_cycle_until start res :
  until_inv start stop res →
  close_cycle res = Returned (res ++ [(stop, start)])
  ∧ res ≠ []
  ∧ Forall (linked sol) (res ++ [(stop, start)])
  ∧ (res ++ [(stop, start)]).*2 = rotate1 ((res ++ [(stop, start)]).*1)
  ∧ NoDup ((res ++ [(stop, start)]).*1)
  ∧ Forall (λ v, v ∈ N) ((res ++ [(stop, start)]).*1)
  ∧ last ((res ++ [(stop, start)]).*1) = Some stop.
Proof.
  intros [Hl Hc Hnd Hs HN _].
  assert (res ≠ []) as Hne.
  { intros ->. simpl in Hc. simplify_eq. by apply sol_irrefl in Hs. }
  split_and!.
  - unfold close_cycle.
    assert (∃ h, head res = Some h ∧ h.1 = start) as (h & Hhead & Hh).
    { destruct res as [|h r]; [done|]. exists h. split; [done|].
      simpl in Hc. by injection Hc. }
    assert (∃ l, last res = Some l ∧ l.2 = stop) as (l & Hlast & Hl2).
    { destruct (last res) as [l|] eqn:Hlast; [|by apply last_None in Hlast].
      exists l. split; [done|]. apply last_Some in Hlast as (r' & ->).
      rewrite !fmap_app in Hc. simpl in Hc.
      change (start :: r'.*2 ++ [l.2]) with ((start :: r'.*2) ++ [l.2]) in Hc.
      by apply app_inj_tail in Hc as [_ ?]. }
    by rewrite Hhead, Hlast, Hh, Hl2.
  - done.
  - apply Forall_app. split; [done|]. by apply Forall_singleton.
  - rewrite !fmap_app. simpl. by rewrite <-Hc.
  - rewrite fmap_app. simpl. apply NoDup_cons in Hnd as [Hd Hnd].
    apply NoDup_app. split_and!; [done| |apply NoDup_singleton].
    by intros v Hv ->%list_elem_of_singleton.
  - rewrite fmap_app. simpl. apply Forall_cons in HN as [Hd HN].
    apply Forall_app. split; [done|]. by apply Forall_singleton.
  - rewrite fmap_app. simpl. apply last_snoc.
Qed.

(** From the successor of a node the loop comes back to the node, and the
    arcs it walked, closed, are a chain of links through that node. *)
Lemma walk_until_cycle :
  stop ∈ N →
  ∃ start res,
    sol !! stop = Some start
    ∧ (∀ fuel, (length N ≤ fuel)%nat → walk_until stop fuel sol start [] = Returned res)
    ∧ close_cycle res = Returned (res ++ [(stop, start)])
    ∧ res ≠ []
    ∧ Forall (linked sol) (res ++ [(stop, start)])
    ∧ (res ++ [(stop, start)]).*2 = rotate1 ((res ++ [(stop, start)]).*1)
    ∧ NoDup ((res ++ [(stop, start)]).*1)
    ∧ Forall (λ v, v ∈ N) ((res ++ [(stop, start)]).*1)
    ∧ last ((res ++ [(stop, start)]).*1) = Some stop.
Proof.
  intros Hstop. destruct (sol_total stop Hstop) as (start & Hstart & HstartN).
  assert (until_inv start start []) as Hinv.
  { split; simpl; [constructor|done|apply NoDup_singleton|done| |done].
    by apply Forall_singleton. }
  destruct (walk_until_returns (length N) start start [] Hinv)
    as (res & Hwalk & Hres); [simpl; lia|].
  exists start, res. split; [done|]. split.
  - intros fuel Hfuel. by apply (walk_until_fuel_mono _ _ _ _ _ Hwalk).
  - by apply close_cycle_until.
Qed.
End WalkUntil.

(** ** Candidates in which every node has one successor and one predecessor *)

(** What the degree constraints make of a binary candidate [x] on arcs
    [A_] between the nodes [N]. *)
Record one_to_one (N : list Node) (A_ : list Arc) (x : assignment) : Prop := {
  oto_nodup : NoDup N;
  oto_ends : ∀ v w, (v, w) ∈ A_ → v ∈ N ∧ w ∈ N ∧ v ≠ w;
  oto_succ : ∀ v, v ∈ N →
    ∃ w, (v, w) ∈ A_ ∧ x (v, w) = 1 ∧ ∀ w', (v, w') ∈ A_ → x (v, w') = 1 → w' = w;
  oto_pred : ∀ w, w ∈ N →
    ∃ v, (v, w) ∈ A_ ∧ x (v, w) = 1 ∧ ∀ v', (v', w) ∈ A_ → x (v', w) = 1 → v' = v
}.

Lemma grid_one_to_one num_rows num_cols H x :
  feasible x (formulate (grid_graph num_rows num_cols H) (create_nodes num_rows num_cols H)) →
  one_to_one (create_nodes num_rows num_cols H) (A (grid_graph num_rows num_cols H)) x.
Proof.
  intros Hx. split.
  - apply N_NoDup.
  - apply arc_nodes.
  - by apply one_successor.
  - by apply one_predecessor.
Qed.

Section OneToOne.
Context (N : list Node) (A_ : list Arc) (x : assignment).
Hypothesis Hoto : one_to_one N A_ x.

Lemma oto_sol_iff v w : sol_dict A_ x !! v = Some w ↔ (v, w) ∈ A_ ∧ x (v, w) = 1.
Proof.
  split; [apply sol_dict_lookup|]. intros [Hin Hx].
  destruct (sol_dict_selected x _ _ _ Hin Hx) as [w' Hw'].
  pose proof (sol_dict_lookup _ _ _ _ Hw') as [Hin' Hx'].
  destruct (oto_succ _ _ _ Hoto v) as (w0 & _ & _ & Huniq).
  { by apply (oto_ends _ _ _ Hoto) in Hin as [? _]. }
  by rewrite Hw', (Huniq w Hin Hx), (Huniq w' Hin' Hx').
Qed.

Lemma oto_sol_total v : v ∈ N → ∃ w, sol_dict A_ x !! v = Some w ∧ w ∈ N.
Proof.
  intros (w & Hin & Hx & _)%(oto_succ _ _ _ Hoto). exists w. split; [by apply oto_sol_iff|].
  by apply (oto_ends _ _ _ Hoto) in Hin as (_ & ? & _).
Qed.

Lemma oto_sol_inj u v w :
  sol_dict A_ x !! u = Some w → sol_dict A_ x !! v = Some w → u = v.
Proof.
  intros [Hu Hxu]%oto_sol_iff [Hv Hxv]%oto_sol_iff.
  destruct (oto_pred _ _ _ Hoto w) as (v0 & _ & _ & Huniq).
  { by apply (oto_ends _ _ _ Hoto) in Hu as (_ & ? & _). }
  by rewrite (Huniq u Hu Hxu), (Huniq v Hv Hxv).
Qed.

Lemma oto_sol_irrefl v : sol_dict A_ x !! v ≠ Some v.
Proof. intros [Hv _]%oto_sol_iff. by apply (oto_ends _ _ _ Hoto) in Hv as (_ & _ & ?). Qed.

(** Every node lies on a cycle, which the walk from its successor finds. *)
Lemma oto_cycle_through v :
  v ∈ N →
  ∃ start res,
    sol_dict A_ x !! v = Some start
    ∧ (∀ fuel, (length N ≤ fuel)%nat →
         walk_until v fuel (sol_dict A_ x) start [] = Returned res)
    ∧ close_cycle res = Returned (res ++ [(v, start)])
    ∧ is_cycle A_ x (res ++ [(v, start)])
    ∧ last ((res ++ [(v, start)]).*1) = Some v
    ∧ (2 ≤ length (res ++ [(v, start)]))%nat.
Proof.
  intros Hv.
  destruct (walk_until_cycle _ N v oto_sol_total oto_sol_inj oto_sol_irrefl Hv)
    as (start & res & Hstart & Hwalk & Hclose & Hne & Hlinked & Hrot & Hnd & HN & Hlast).
  exists start, res. split_and!; try done.
  - split_and!; try done.
    + by destruct res.
    + eapply Forall_impl; [exact Hlinked|]. intros [u w] Hl. by apply oto_sol_iff.
  - rewrite length_app. simpl. destruct res; [done|]. simpl. lia.
Qed.

Lemma oto_cycle_nodes c : is_cycle A_ x c → ∀ v, v ∈ c.*1 → v ∈ N.
Proof.
  intros (_ & Hsel & _ & _) v (a & -> & Ha)%list_elem_of_fmap.
  rewrite Forall_forall in Hsel. destruct (Hsel a Ha) as [Hin _].
  destruct a as [u w]. by apply (oto_ends _ _ _ Hoto) in Hin as [? _].
Qed.

Lemma oto_cycle_length_le c : is_cycle A_ x c → (length c ≤ length N)%nat.
Proof.
  intros Hc. assert (length (c.*1) ≤ length N)%nat as Hlen.
  { apply submseteq_length, NoDup_submseteq; [by destruct Hc as (_ & _ & _ & ?)|].
    by apply oto_cycle_nodes. }
  by rewrite length_fmap in Hlen.
Qed.

(** A cycle as long as the node list passes through every node. *)
Lemma oto_cycle_spanning c :
  is_cycle A_ x c → length c = length N ↔ ∀ v, v ∈ N → v ∈ c.*1.
Proof.
  intros Hc. pose proof (oto_cycle_nodes c Hc) as Hsub.
  pose proof (oto_cycle_length_le c Hc) as Hle.
  destruct Hc as (_ & _ & _ & Hnd). split.
  - intros Hlen v Hv.
    assert (c.*1 ≡ₚ N) as Hperm; [|by rewrite Hperm].
    apply submseteq_length_Permutation; [by apply NoDup_submseteq|].
    rewrite length_fmap. by apply Nat.eq_le_incl.
  - intros Hall. apply Nat.le_antisymm; [done|].
    assert (length N ≤ length (c.*1))%nat as Hlen.
    { apply submseteq_length, NoDup_submseteq; [apply (oto_nodup _ _ _ Hoto)|done]. }
    by rewrite length_fmap in Hlen.
Qed.

(** A set of nodes that holds a node of a cycle and is closed under the
    successor map holds all the nodes of the cycle. *)
Lemma oto_cycle_within (S : Node → Prop) c u :
  (∀ v w, (v, w) ∈ A_ → x (v, w) = 1 → S v → S w) →
  is_cycle A_ x c → u ∈ c.*1 → S u → ∀ v, v ∈ c.*1 → S v.
Proof.
  intros Hclosed (_ & Hsel & Hrot & _) Hu HSu. apply Forall_forall.
  apply (cycle_propagate (λ u w, (u, w) ∈ A_ ∧ x (u, w) = 1)).
  - intros a b [Hab Hxab] Ha. by apply (Hclosed a b).
  - rewrite <-Hrot. by apply cycle_Forall2.
  - by exists u.
Qed.

(** The nodes of a cycle are closed under the successor map. *)
Lemma oto_cycle_closed c u w :
  is_cycle A_ x c → (u, w) ∈ A_ → x (u, w) = 1 → u ∈ c.*1 → w ∈ c.*1.
Proof.
  intros (_ & Hsel & Hrot & _) Hin Hx ([u' w'] & Hu & Ha)%list_elem_of_fmap.
  simpl in Hu. subst u'. rewrite Forall_forall in Hsel.
  destruct (Hsel _ Ha) as [Hin' Hx'].
  destruct (oto_succ _ _ _ Hoto u) as (w0 & _ & _ & Huniq).
  { by apply (oto_ends _ _ _ Hoto) in Hin as [? _]. }
  rewrite (Huniq w Hin Hx), <-(Huniq w' Hin' Hx').
  apply (elem_of_rotate1 (c.*1)). rewrite <-Hrot.
  apply list_elem_of_fmap. by exists (u, w').
Qed.

(** They are closed under the predecessor map as well. *)
Lemma oto_cycle_closed_pred c u w :
  is_cycle A_ x c → (u, w) ∈ A_ → x (u, w) = 1 → w ∈ c.*1 → u ∈ c.*1.
Proof.
  intros (_ & Hsel & Hrot & _) Hin Hx Hw.
  apply (elem_of_rotate1 (c.*1)) in Hw. rewrite <-Hrot in Hw.
  apply list_elem_of_fmap in Hw as ([u' w'] & Hw & Ha). simpl in Hw. subst w'.
  rewrite Forall_forall in Hsel. destruct (Hsel _ Ha) as [Hin' Hx'].
  destruct (oto_pred _ _ _ Hoto w) as (u0 & _ & _ & Huniq).
  { by apply (oto_ends _ _ _ Hoto) in Hin as (_ & ? & _). }
  rewrite (Huniq u Hin Hx), <-(Huniq u' Hin' Hx').
  apply list_elem_of_fmap. by exists (u', w).
Qed.

(** Two cycles that share a node have the same nodes. *)
Lemma oto_cycles_meet c1 c2 u :
  is_cycle A_ x c1 → is_cycle A_ x c2 → u ∈ c1.*1 → u ∈ c2.*1 →
  ∀ v, v ∈ c1.*1 → v ∈ c2.*1.
Proof.
  intros Hc1 Hc2 Hu1 Hu2. apply (oto_cycle_within (λ v, v ∈ c2.*1) c1 u); try done.
  intros a b Hab Hxab. by apply oto_cycle_closed.
Qed.

(** Two cycles that share a node have the same arcs. *)
Lemma oto_cycles_meet_arcs c1 c2 u :
  is_cycle A_ x c1 → is_cycle A_ x c2 → u ∈ c1.*1 → u ∈ c2.*1 →
  ∀ a, a ∈ c1 → a ∈ c2.
Proof.
  intros Hc1 Hc2 Hu1 Hu2 [v w] Ha.
  assert (v ∈ c2.*1) as Hv.
  { apply (oto_cycles_meet c1 c2 u); try done. apply list_elem_of_fmap. by exists (v, w). }
  apply list_elem_of_fmap in Hv as ([v' w'] & Hv & Ha'). simpl in Hv. subst v'.
  destruct Hc1 as (_ & Hsel1 & _), Hc2 as (_ & Hsel2 & _).
  rewrite Forall_forall in Hsel1, Hsel2.
  destruct (Hsel1 _ Ha) as [Hin Hx], (Hsel2 _ Ha') as [Hin' Hx'].
  destruct (oto_succ _ _ _ Hoto v) as (w0 & _ & _ & Huniq).
  { by apply (oto_ends _ _ _ Hoto) in Hin as [? _]. }
  by rewrite (Huniq w Hin Hx), <-(Huniq w' Hin' Hx').
Qed.

(** One cycle has all the nodes exactly when the candidate is one cycle
    through all the nodes. *)
Lemma oto_spanning_iff tour :
  is_cycle A_ x tour → length tour = length N ↔ single_spanning_cycle A_ N x.
Proof.
  intros Htour. split.
  - intros Hlen. split; [by exists tour|]. intros c Hc.
    apply oto_cycle_spanning; [done|]. intros v Hv.
    destruct Hc as (Hne & Hc). destruct c as [|[u w] c]; [done|].
    assert (u ∈ ((u, w) :: c).*1) as Hu by (by left).
    apply (oto_cycles_meet tour ((u, w) :: c) u); [done|by split| |done|].
    + apply oto_cycle_spanning; [done..|].
      apply (oto_cycle_nodes ((u, w) :: c)); [by split|done].
    + by apply oto_cycle_spanning.
  - intros [_ Hall]. by apply Hall.
Qed.

(** A set of nodes closed under the successor map, when the candidate is
    one cycle through all the nodes, is empty or holds every node. *)
Lemma oto_closed_all (S : Node → Prop) u :
  single_spanning_cycle A_ N x →
  (∀ v w, (v, w) ∈ A_ → x (v, w) = 1 → S v → S w) →
  u ∈ N → S u → ∀ v, v ∈ N → S v.
Proof.
  intros [(c & Hc & Hlen) _] Hclosed Hu HSu v Hv.
  pose proof (proj1 (oto_cycle_spanning c Hc) Hlen) as Hall.
  apply (oto_cycle_within S c u); auto.
Qed.
End OneToOne.

(** ** The cycle walk of the tuple-based callback script *)

Section Solution2.
Context (x : assignment).

Definition solution_step (d : NodeDict) (a : Arc) : NodeDict :=
  if selected_2 x a then dict_set d a.1 a.2 else d.

(** On binary values the test [values[a] > 0.5] is the test
    [x[a].value() == 1]. *)
Lemma solution_fold_map l d :
  binary x l → dict_map (foldl solution_step d l) = foldl (sol_step x) (dict_map d) l.
Proof.
  intros Hb. revert d. induction Hb as [|a l Ha Hl IH]; intros d; simpl; [done|].
  rewrite IH. f_equal. unfold solution_step, sol_step, selected_2, selected.
  destruct Ha as [Ha|Ha]; rewrite Ha; simpl; done.
Qed.

Lemma solution_of_map A_ : binary x A_ → dict_map (solution_of A_ x) = sol_dict A_ x.
Proof. intros Hb. exact (solution_fold_map A_ dict_empty Hb). Qed.

(** The first key of the dict is the first key that was set. *)
Lemma solution_fold_head l d :
  head (dict_keys (foldl solution_step d l))
  = match head (dict_keys d) with
    | Some k => Some k
    | None => head ((filter (λ a, 0 < x a) l).*1)
    end.
Proof.
  revert d. induction l as [|a l IH]; intros d; simpl.
  { by destruct (head (dict_keys d)). }
  rewrite IH, filter_cons. unfold solution_step, selected_2.
  case_bool_decide as Ha; rewrite decide_bool_decide.
  - rewrite bool_decide_eq_true_2 by done. unfold dict_set. simpl.
    case_bool_decide as Hk.
    + destruct (dict_keys d); [by apply elem_of_nil in Hk|done].
    + by destruct (dict_keys d).
  - by rewrite bool_decide_eq_false_2 by done.
Qed.

Lemma solution_of_head A_ :
  head (dict_keys (solution_of A_ x)) = head ((filter (λ a, 0 < x a) A_).*1).
Proof. exact (solution_fold_head A_ dict_empty). Qed.
End Solution2.

Section Callback2.
Context (num_rows num_cols : Z) (H : list (Z * Z)) (x : assignment).
Local Abbreviation N := (create_nodes num_rows num_cols H).
Local Abbreviation g := (grid_graph num_rows num_cols H).
Hypothesis Hfeasible : feasible x (formulate g N).

(** The first selected arc of [A] leaves the first node of [N]. *)
Lemma first_key v0 :
  head N = Some v0 → head (dict_keys (solution_of (A g) x)) = Some v0.
Proof.
  intros Hhead. rewrite solution_of_head, (A_g num_rows num_cols H). unfold arcs_of.
  assert (∃ N', N = v0 :: N') as [N' HN].
  { destruct (create_nodes num_rows num_cols H); simplify_eq/=. eauto. }
  set (f := arcs_from N). rewrite HN. csimpl. subst f.
  rewrite filter_app, fmap_app.
  destruct (one_successor _ _ _ x Hfeasible v0) as (w & Hin & Hx & _).
  { rewrite HN. by left. }
  assert ((v0, w) ∈ filter (λ a, 0 < x a) (arcs_from N v0)) as Hsel.
  { apply list_elem_of_filter. split; [lia|].
    rewrite (A_g num_rows num_cols H) in Hin.
    apply elem_of_arcs_of in Hin as (_ & ? & ?). by apply elem_of_arcs_from. }
  destruct (filter (λ a, 0 < x a) (arcs_from N v0)) as [|a l] eqn:Hf.
  { by apply elem_of_nil in Hsel. }
  assert (a ∈ filter (λ a, 0 < x a) (arcs_from N v0)) as Ha by (rewrite Hf; by left).
  apply list_elem_of_filter in Ha as [_ Ha]. apply elem_of_arcs_from in Ha as [Ha _].
  simpl. by rewrite Ha.
Qed.

(** [subtour] returns the cycle through the first node of [N], ending
    with the arc that leaves the successor of that node. *)
Lemma subtour_2_cycle :
  ∃ cycle,
    (∀ fuel, (length N ≤ fuel)%nat →
       subtour_2 (solution_of (A g) x) fuel = Returned cycle)
    ∧ is_cycle (A g) x cycle
    ∧ (∀ v0, head N = Some v0 → v0 ∈ cycle.*1)
    ∧ (2 ≤ length cycle)%nat.
Proof.
  pose proof (grid_one_to_one _ _ _ x Hfeasible) as Hoto.
  assert (∃ v0 N', N = v0 :: N') as (v0 & N' & HN).
  { pose proof (dummy_in_N num_rows num_cols H) as Hd.
    destruct (create_nodes num_rows num_cols H); [by apply elem_of_nil in Hd|eauto]. }
  assert (v0 ∈ N) as Hv0 by (rewrite HN; by left).
  destruct (oto_sol_total _ _ _ Hoto v0 Hv0) as (init & Hinit & HinitN).
  destruct (oto_cycle_through _ _ _ Hoto init HinitN)
    as (next & res & Hnext & Hwalk & Hclose & Hcyc & Hlast & Hlen).
  exists (res ++ [(init, next)]). split_and!; try done.
  - intros fuel Hfuel. unfold subtour_2.
    rewrite (first_key v0) by (by rewrite HN).
    rewrite solution_of_map by apply (binary_A _ _ _ x Hfeasible).
    by rewrite Hinit, Hnext, (Hwalk fuel Hfuel).
  - intros v Hv. rewrite HN in Hv. injection Hv as <-.
    apply (oto_sol_iff _ _ _ Hoto) in Hinit as [Hin Hx].
    apply (oto_cycle_closed_pred _ _ _ Hoto _ v0 init); try done.
    by apply last_Some_elem_of.
Qed.
End Callback2.

(** X4: in the tuple-based callback script, for every candidate that
    satisfies the degree constraints, [subtour] on the dict of the selected
    arcs returns, for every fuel that covers the nodes, a cycle of selected
    arcs of at least two arcs, and it is the cycle through the first node of
    [N]. *)
Theorem subtour_2_returns_first_cycle num_rows num_cols H x :
  feasible x (formulate (grid_graph num_rows num_cols H) (create_nodes num_rows num_cols H)) →
  ∃ cycle,
    (∀ fuel, (length (create_nodes num_rows num_cols H) ≤ fuel)%nat →
       subtour_2 (solution_of (A (grid_graph num_rows num_cols H)) x) fuel = Returned cycle)
    ∧ is_cycle (A (grid_graph num_rows num_cols H)) x cycle
    ∧ (∀ v0, head (create_nodes num_rows num_cols H) = Some v0 → v0 ∈ cycle.*1)
    ∧ (2 ≤ length cycle)%nat.
Proof. apply subtour_2_cycle. Qed.

Lemma subtour_2_returns_first_cycle_witness :
  ∃ cycle,
    (∀ fuel, (length (create_nodes 2 2 []) ≤ fuel)%nat →
       subtour_2 (solution_of (A (grid_graph 2 2 [])) x_2x2) fuel = Returned cycle)
    ∧ is_cycle (A (grid_graph 2 2 [])) x_2x2 cycle
    ∧ (∀ v0, head (create_nodes 2 2 []) = Some v0 → v0 ∈ cycle.*1)
    ∧ (2 ≤ length cycle)%nat.
Proof. apply (subtour_2_returns_first_cycle 2 2 [] x_2x2). by_evaluation. Defined.

(** X5: the callback of the tuple-based script, at a candidate that
    satisfies the degree constraints: it hands no constraint to the solver
    exactly when the candidate is a single cycle through every node;
    otherwise the constraint is the elimination constraint of a cycle of the
    candidate, and the candidate violates it. *)
Theorem callback_2_separates num_rows num_cols H x fuel :
  feasible x (formulate (grid_graph num_rows num_cols H) (create_nodes num_rows num_cols H)) →
  (length (create_nodes num_rows num_cols H) ≤ fuel)%nat →
  ∃ r,
    callback_2 (A (grid_graph num_rows num_cols H))
               (length (create_nodes num_rows num_cols H)) x fuel = Returned r
    ∧ (r = None ↔ single_spanning_cycle (A (grid_graph num_rows num_cols H))
                                        (create_nodes num_rows num_cols H) x)
    ∧ (∀ c, r = Some c →
         (∃ cycle, is_cycle (A (grid_graph num_rows num_cols H)) x cycle
                   ∧ c = elimination_constraint (A (grid_graph num_rows num_cols H)) cycle)
         ∧ ¬ satisfies x c).
Proof.
  intros Hx Hfuel. pose proof (grid_one_to_one _ _ _ x Hx) as Hoto.
  destruct (subtour_2_cycle _ _ _ x Hx) as (cycle & Hret & Hcyc & _ & Hlen).
  pose proof (oto_cycle_length_le _ _ _ Hoto cycle Hcyc) as Hle.
  pose proof (oto_spanning_iff _ _ _ Hoto cycle Hcyc) as Hspan.
  exists (subtour_constraint (A (grid_graph num_rows num_cols H))
            (length (create_nodes num_rows num_cols H)) cycle).
  split_and!.
  - unfold callback_2. by rewrite (Hret fuel Hfuel).
  - rewrite <-Hspan. unfold subtour_constraint, lazy_cut.
    rewrite (bool_decide_eq_true_2 (1 < length cycle)%nat) by lia.
    rewrite andb_true_r. case_bool_decide; split; try done; lia.
  - intros c. unfold subtour_constraint, lazy_cut.
    destruct (_ && _); [|done]. intros [= <-]. split; [by exists cycle|].
    by apply cut_violated_aux.
Qed.

Lemma callback_2_separates_witness :
  ∃ r,
    callback_2 (A (grid_graph 2 2 [])) (length (create_nodes 2 2 [])) x_2x2 5 = Returned r
    ∧ (r = None ↔ single_spanning_cycle (A (grid_graph 2 2 [])) (create_nodes 2 2 []) x_2x2)
    ∧ (∀ c, r = Some c →
         (∃ cycle, is_cycle (A (grid_graph 2 2 [])) x_2x2 cycle
                   ∧ c = elimination_constraint (A (grid_graph 2 2 [])) cycle)
         ∧ ¬ satisfies x_2x2 c).
Proof. apply (callback_2_separates 2 2 [] x_2x2 5); by_evaluation. Defined.

(** ** Printing the tour *)

Lemma cell_key_inj u v : cell_key u = cell_key v → u = v.
Proof. destruct u as [[? ?]], v as [[? ?]]. unfold cell_key. simpl. congruence. Qed.

Lemma cell_key_dummy v : cell_key v = (0, 0) ↔ v = dummy_node.
Proof. split; [apply (cell_key_inj v dummy_node)|by intros ->]. Qed.

(** [path] sends the cell of the origin of every arc of the tour to the
    cell of its destination, when no two arcs share their origin. *)
Lemma path_of_lookup tour u w :
  NoDup (tour.*1) → (u, w) ∈ tour → path_of tour !! cell_key u = Some (cell_key w).
Proof.
  unfold path_of. induction tour as [|a tour IH] using rev_ind; intros Hnd Hin.
  { by apply elem_of_nil in Hin. }
  rewrite foldl_app. simpl. rewrite fmap_app in Hnd. simpl in Hnd.
  apply NoDup_app in Hnd as (Hnd & Hfresh & _).
  apply elem_of_app in Hin as [Hin|Hin].
  - rewrite lookup_insert_ne; [by apply IH|].
    intros Heq%cell_key_inj. apply (Hfresh u).
    + apply list_elem_of_fmap. by exists (u, w).
    + rewrite <-Heq. by left.
  - apply list_elem_of_singleton in Hin as <-. simpl. apply lookup_insert_eq.
Qed.

Lemma number_from_skip order k sol v :
  v ∉ order → number_from order k sol !! cell_key v = sol !! cell_key v.
Proof.
  revert k sol. induction order as [|u order IH]; intros k sol Hv; simpl; [done|].
  apply not_elem_of_cons in Hv as [Hne Hv]. rewrite IH by done.
  apply lookup_insert_ne. by intros ?%cell_key_inj.
Qed.

(** The cell at place [i] of the list gets the number [k + i]. *)
Lemma number_from_lookup order k sol i v :
  NoDup order → order !! i = Some v →
  number_from order k sol !! cell_key v = Some (k + Z.of_nat i).
Proof.
  revert k sol i. induction order as [|u order IH]; intros k sol i Hnd Hi; [done|].
  apply NoDup_cons in Hnd as [Hu Hnd]. destruct i as [|i]; simpl in *.
  - injection Hi as ->. rewrite number_from_skip by done.
    rewrite lookup_insert_eq. f_equal. lia.
  - rewrite (IH (k + 1) _ i) by done. f_equal. lia.
Qed.

(** The numbering loop along a chain of cells that ends at (0, 0). *)
Lemma number_cells_chain path order :
  ∀ next rest k sol fuel,
    order ++ [dummy_node] = next :: rest →
    Forall2 (λ u w, path !! cell_key u = Some (cell_key w)) order rest →
    Forall (λ v, v ≠ dummy_node) order →
    (length order < fuel)%nat →
    number_cells fuel path (cell_key next) k sol = Returned (number_from order k sol).
Proof.
  induction order as [|v order IH]; intros next rest k sol fuel Heq Hchain Hne Hfuel.
  - simpl in Heq. injection Heq as <- <-. destruct fuel as [|fuel]; [simpl in Hfuel; lia|].
    reflexivity.
  - simpl in Heq. injection Heq as <- Heq. apply Forall_cons in Hne as [Hv Hne].
    destruct fuel as [|fuel]; [simpl in Hfuel; lia|]. simpl.
    rewrite bool_decide_eq_true_2 by (by rewrite cell_key_dummy).
    rewrite <-Heq in Hchain. destruct (order ++ [dummy_node]) as [|w rest'] eqn:Ho.
    { by destruct order. }
    apply Forall2_cons in Hchain as [Hvw Hchain]. rewrite Hvw.
    apply (IH w rest'); [done..|]. simpl in Hfuel. lia.
Qed.

Lemma rows_of_entry num_rows num_cols sol i j :
  1 ≤ i ≤ num_rows → 1 ≤ j ≤ num_cols →
  entry (rows_of num_rows num_cols sol) i j = Some (default 0 (sol !! (i, j))).
Proof.
  intros Hi Hj. unfold entry, rows_of, range.
  rewrite list_lookup_fmap, (lookup_seqZ_lt _ _ _) by lia. simpl.
  rewrite list_lookup_fmap, (lookup_seqZ_lt _ _ _) by lia. simpl.
  repeat f_equal; lia.
Qed.

(** ** The order of a cycle from a given node on *)

Section TourOrder.
Context (N : list Node) (A_ : list Arc) (x : assignment).
Hypothesis Hoto : one_to_one N A_ x.

(** The nodes of a cycle through [d], in the order of the cycle from the
    successor of [d] on. *)
Lemma oto_tour_order d tour :
  d ∈ N → is_cycle A_ x tour → d ∈ tour.*1 →
  ∃ start order rest,
    order ++ [d] = start :: rest
    ∧ Forall2 (λ v w, (v, w) ∈ tour) order rest
    ∧ (d, start) ∈ tour
    ∧ NoDup order
    ∧ (∀ v, v ∈ order ↔ v ∈ tour.*1 ∧ v ≠ d)
    ∧ S (length order) = length tour.
Proof.
  intros HdN Htour Hd.
  destruct (oto_cycle_through _ _ _ Hoto d HdN)
    as (start & res & Hstart & _ & _ & HD & Hlast & Hlen).
  set (D := res ++ [(d, start)]) in *.
  assert (d ∈ D.*1) as HdD by (by apply last_Some_elem_of).
  assert (∀ a, a ∈ D → a ∈ tour) as Harcs.
  { by apply (oto_cycles_meet_arcs _ _ _ Hoto D tour d). }
  assert (D.*1 = res.*1 ++ [d]) as HD1 by (unfold D; by rewrite fmap_app).
  assert (start :: res.*2 = res.*1 ++ [d]) as Hchain.
  { destruct HD as (_ & _ & Hrot & _). unfold D in Hrot. rewrite !fmap_app in Hrot.
    destruct res as [|h t]; [simpl in Hlen; lia|]. csimpl in Hrot. csimpl.
    change (h.2 :: t.*2 ++ [start]) with ((h.2 :: t.*2) ++ [start]) in Hrot.
    apply app_inj_tail in Hrot as [Hrot ->]. by rewrite Hrot. }
  assert (NoDup (res.*1) ∧ d ∉ res.*1) as [Hnd HdN'].
  { destruct HD as (_ & _ & _ & HndD). rewrite HD1 in HndD.
    apply NoDup_app in HndD as (? & Hfresh & _). split; [done|].
    intros Hin. apply (Hfresh _ Hin). by left. }
  assert (length D = length tour) as HlenD.
  { assert (length (D.*1) = length (tour.*1)) as Hl; [|by rewrite !length_fmap in Hl].
    apply Permutation_length, NoDup_Permutation.
    - by destruct HD as (_ & _ & _ & ?).
    - by destruct Htour as (_ & _ & _ & ?).
    - intros v. split.
      + by apply (oto_cycles_meet _ _ _ Hoto D tour d).
      + by apply (oto_cycles_meet _ _ _ Hoto tour D d). }
  exists start, (res.*1), (res.*2). split_and!.
  - done.
  - assert (Forall (λ a, a ∈ tour) res) as Hres.
    { apply Forall_forall. intros a Ha. apply Harcs. unfold D.
      apply elem_of_app. by left. }
    clear -Hres. induction Hres as [|[u w] r Ha Hr IH]; csimpl; constructor; done.
  - apply Harcs. unfold D. apply elem_of_app. right. by left.
  - done.
  - intros v. split.
    + intros Hv. split; [|by intros ->].
      apply (oto_cycles_meet _ _ _ Hoto D tour d); try done.
      rewrite HD1. apply elem_of_app. by left.
    + intros [Hv Hne].
      apply (oto_cycles_meet _ _ _ Hoto tour D d) in Hv; try done.
      rewrite HD1 in Hv. apply elem_of_app in Hv as [Hv|Hv]; [done|].
      by apply list_elem_of_singleton in Hv.
  - rewrite length_fmap. unfold D in HlenD. rewrite length_app in HlenD.
    unfold Arc in *. simpl in *. lia.
Qed.

(** An arc of a cycle is the selected arc that leaves its origin. *)
Lemma oto_cycle_arc tour v w w' :
  is_cycle A_ x tour → (v, w) ∈ tour → (v, w') ∈ A_ → x (v, w') = 1 → w' = w.
Proof.
  intros (_ & Hsel & _) Ha HA' Hx'. rewrite Forall_forall in Hsel.
  destruct (Hsel _ Ha) as [HA Hx].
  destruct (oto_succ _ _ _ Hoto v) as (w0 & _ & _ & Huniq).
  { by apply (oto_ends _ _ _ Hoto) in HA as [? _]. }
  by rewrite (Huniq w HA Hx), (Huniq w' HA' Hx').
Qed.
End TourOrder.

(** Places in a list that starts one place later. *)
Lemma shifted_lookup {T} (order rest : list T) d start i :
  order ++ [d] = start :: rest →
  rest !! i = (order ++ [d]) !! S i.
Proof. by intros ->. Qed.

Lemma shifted_next {T} (order rest : list T) d start i w :
  order ++ [d] = start :: rest → order !! S i = Some w → rest !! i = Some w.
Proof.
  intros Heq Hw. rewrite (shifted_lookup order rest d start i Heq).
  by apply lookup_app_l_Some.
Qed.

Lemma shifted_last {T} (order rest : list T) d start i :
  order ++ [d] = start :: rest → S i = length order → rest !! i = Some d.
Proof.
  intros Heq Hi. rewrite (shifted_lookup order rest d start i Heq).
  rewrite lookup_app_r by lia. by replace (S i - length order)%nat with 0%nat by lia.
Qed.

Section PrintTour.
Context (N : list Node) (A_ : list Arc) (x : assignment).
Hypothesis Hoto : one_to_one N A_ x.
Hypothesis Hdummy : dummy_node ∈ N.

(** The cells of a cycle through the dummy node, in the order of the cycle
    from the successor of the dummy node on, are what the numbering loop
    numbers from 1 on. *)
Lemma print_tour_order tour :
  is_cycle A_ x tour → dummy_node ∈ tour.*1 →
  ∃ order,
    NoDup order
    ∧ (∀ v, v ∈ order ↔ v ∈ tour.*1 ∧ v ≠ dummy_node)
    ∧ (∀ v, head order = Some v → (dummy_node, v) ∈ tour)
    ∧ (∀ i v w, order !! i = Some v → order !! S i = Some w →
                (v, w) ∈ A_ ∧ x (v, w) = 1)
    ∧ (∀ num_rows num_cols fuel, (length tour ≤ fuel)%nat →
         print_tour num_rows num_cols tour fuel
         = Returned (rows_of num_rows num_cols (number_from order 1 ∅))).
Proof.
  intros Htour Hd.
  destruct (oto_tour_order _ _ _ Hoto dummy_node tour Hdummy Htour Hd)
    as (start & order & rest & Heq & Hchain & Hstart & Hnd & Hin & Hlen).
  assert (NoDup (tour.*1)) as Hndt by (by destruct Htour as (_ & _ & _ & ?)).
  exists order. split_and!; try done.
  - intros v Hv. destruct order as [|h t]; [done|]. simpl in Hv, Heq.
    injection Hv as <-. by injection Heq as -> _.
  - intros i v w Hv Hw. pose proof (shifted_next _ _ _ _ i w Heq Hw) as Hr.
    pose proof (Forall2_lookup_lr _ _ _ i v w Hchain Hv Hr) as Ha.
    destruct Htour as (_ & Hsel & _). rewrite Forall_forall in Hsel.
    by apply (Hsel (v, w)).
  - intros num_rows num_cols fuel Hfuel. unfold print_tour.
    assert (path_of tour !! (0, 0) = Some (cell_key start)) as ->.
    { by apply (path_of_lookup tour dummy_node start Hndt). }
    rewrite (number_cells_chain (path_of tour) order start rest); try done.
    + eapply Forall2_impl; [exact Hchain|]. intros v w Ha. by apply path_of_lookup.
    + apply Forall_forall. intros v Hv%Hin. by destruct Hv.
    + lia.
Qed.
End PrintTour.

(** The printed rows on the grid graph. *)
Lemma print_tour_grid num_rows num_cols H x tour fuel :
  feasible x (formulate (grid_graph num_rows num_cols H) (create_nodes num_rows num_cols H)) →
  is_cycle (A (grid_graph num_rows num_cols H)) x tour →
  dummy_node ∈ tour.*1 →
  (length tour ≤ fuel)%nat →
  ∃ order rows,
    print_tour num_rows num_cols tour fuel = Returned rows
    ∧ NoDup order
    ∧ (∀ v, v ∈ order ↔ v ∈ tour.*1 ∧ v ≠ dummy_node)
    ∧ (∀ v, head order = Some v → (dummy_node, v) ∈ tour)
    ∧ (∀ k v w, order !! k = Some v → order !! S k = Some w →
                (v, w) ∈ tour ∧ adjacent v w)
    ∧ (∀ i j, 1 ≤ i ≤ num_rows → 1 ≤ j ≤ num_cols →
         (∀ k, order !! k = Some (node i j) → entry rows i j = Some (Z.of_nat k + 1))
         ∧ (node i j ∉ order → entry rows i j = Some 0))
    ∧ (length tour = length (create_nodes num_rows num_cols H) →
       order ≡ₚ real_nodes num_rows num_cols H).
Proof.
  intros Hx Htour Hd Hfuel. pose proof (grid_one_to_one _ _ _ x Hx) as Hoto.
  destruct (print_tour_order _ _ _ Hoto (dummy_in_N num_rows num_cols H) tour Htour Hd)
    as (order & Hnd & Hin & Hhead & Hnext & Hprint).
  exists order, (rows_of num_rows num_cols (number_from order 1 ∅)).
  split_and!; try done.
  - by apply Hprint.
  - intros k v w Hv Hw. destruct (Hnext k v w Hv Hw) as [HA Hxa].
    assert (v ∈ order) as Hvo by (apply list_elem_of_lookup; eauto).
    assert (w ∈ order) as Hwo by (apply list_elem_of_lookup; eauto).
    apply Hin in Hvo as [Hvt Hvd], Hwo as [_ Hwd]. split.
    + apply list_elem_of_fmap in Hvt as ([v' w'] & Hv' & Ha). simpl in Hv'. subst v'.
      destruct Htour as (_ & Hsel & _). rewrite Forall_forall in Hsel.
      destruct (Hsel _ Ha) as [HA' Hxa'].
      destruct (oto_succ _ _ _ Hoto v) as (w0 & _ & _ & Huniq).
      { by apply (oto_ends _ _ _ Hoto) in HA as [? _]. }
      by rewrite (Huniq w HA Hxa), <-(Huniq w' HA' Hxa').
    + rewrite (A_g num_rows num_cols H) in HA.
      apply elem_of_arcs_of in HA as (_ & _ & Hrule). simpl in Hrule.
      apply arc_rule_spec in Hrule as [[? _]|[[_ ?]|?]]; done.
  - intros i j Hi Hj. rewrite rows_of_entry by done. split.
    + intros k Hk.
      change (i, j) with (cell_key (node i j)).
      rewrite (number_from_lookup order 1 ∅ k) by done. simpl. f_equal. lia.
    + intros Hout. change (i, j) with (cell_key (node i j)).
      by rewrite number_from_skip, lookup_empty.
  - intros Hlen. apply NoDup_Permutation; [done|apply real_nodes_NoDup|].
    intros v. rewrite Hin.
    pose proof (proj1 (oto_cycle_spanning _ _ _ Hoto tour Htour) Hlen) as Hall.
    pose proof (oto_cycle_nodes _ _ _ Hoto tour Htour) as Hsub.
    pose proof (dummy_not_real num_rows num_cols H) as Hdr.
    split.
    + intros [Hv Hne]. apply Hsub, elem_of_create_nodes in Hv as [?|?]; done.
    + intros Hv. split; [|by intros ->]. apply Hall, elem_of_create_nodes. by left.
Qed.

(** X6: what the scripts print for a tour.  For a candidate that satisfies
    the degree constraints and a cycle of it through the dummy node, the
    numbering loop ends and the rows show the cells of the cycle in the
    order of the cycle: the cell the dummy node's arc enters is numbered 1,
    each later one follows its predecessor along an arc of the tour between
    neighbouring cells, and every other cell of the grid shows 0.  When the
    tour has as many arcs as there are nodes, the numbered cells are all the
    cells that are not holes. *)
Theorem print_tour_shows_visit_order num_rows num_cols H x tour fuel :
  feasible x (formulate (grid_graph num_rows num_cols H) (create_nodes num_rows num_cols H)) →
  is_cycle (A (grid_graph num_rows num_cols H)) x tour →
  dummy_node ∈ tour.*1 →
  (length tour ≤ fuel)%nat →
  ∃ order rows,
    print_tour num_rows num_cols tour fuel = Returned rows
    ∧ NoDup order
    ∧ (∀ v, v ∈ order ↔ v ∈ tour.*1 ∧ v ≠ dummy_node)
    ∧ (∀ v, head order = Some v → (dummy_node, v) ∈ tour)
    ∧ (∀ k v w, order !! k = Some v → order !! S k = Some w →
                (v, w) ∈ tour ∧ adjacent v w)
    ∧ (∀ i j, 1 ≤ i ≤ num_rows → 1 ≤ j ≤ num_cols →
         (∀ k, order !! k = Some (node i j) → entry rows i j = Some (Z.of_nat k + 1))
         ∧ (node i j ∉ order → entry rows i j = Some 0))
    ∧ (length tour = length (create_nodes num_rows num_cols H) →
       order ≡ₚ real_nodes num_rows num_cols H).
Proof. apply print_tour_grid. Qed.

Lemma print_tour_shows_visit_order_witness :
  ∃ order rows,
    print_tour 1 2 tour_1x2 3 = Returned rows
    ∧ NoDup order
    ∧ (∀ v, v ∈ order ↔ v ∈ tour_1x2.*1 ∧ v ≠ dummy_node)
    ∧ (∀ v, head order = Some v → (dummy_node, v) ∈ tour_1x2)
    ∧ (∀ k v w, order !! k = Some v → order !! S k = Some w →
                (v, w) ∈ tour_1x2 ∧ adjacent v w)
    ∧ (∀ i j, 1 ≤ i ≤ 1 → 1 ≤ j ≤ 2 →
         (∀ k, order !! k = Some (node i j) → entry rows i j = Some (Z.of_nat k + 1))
         ∧ (node i j ∉ order → entry rows i j = Some 0))
    ∧ (length tour_1x2 = length (create_nodes 1 2 []) →
       order ≡ₚ real_nodes 1 2 []).
Proof.
  apply (print_tour_shows_visit_order 1 2 [] (selecting tour_1x2) tour_1x2 3); by_evaluation.
Defined.

(** ** Elimination constraints keep every tour *)

Section Validity.
Context (num_rows num_cols : Z) (H : list (Z * Z)) (x' : assignment).
Local Abbreviation N := (create_nodes num_rows num_cols H).
Local Abbreviation g := (grid_graph num_rows num_cols H).
Hypothesis Hfeasible : feasible x' (formulate g N).
Hypothesis Htour : single_spanning_cycle (A g) N x'.

(** A tour selects fewer arcs among the nodes of a subtour than the
    subtour has nodes: a tour that stayed among these nodes would never
    reach the others. *)
Lemma elimination_constraint_valid tour :
  tour ≠ [] → NoDup (tour.*1) → (length tour < length N)%nat →
  satisfies x' (elimination_constraint (A g) tour).
Proof.
  intros Hne Hnd Hlen. pose proof (grid_one_to_one _ _ _ x' Hfeasible) as Hoto.
  destruct (elimination_constraint_form_aux num_rows num_cols H tour Hnd) as [Hin Hndt].
  set (c := elimination_constraint (A g) tour) in *.
  set (T := filter (λ a, x' a = 1) (terms c)).
  assert (∀ a, a ∈ T ↔ x' a = 1 ∧ a ∈ A g ∧ a.1 ∈ tour.*1 ∧ a.2 ∈ tour.*1) as HT.
  { intros a. unfold T. by rewrite list_elem_of_filter, Hin. }
  assert (lhs x' c = Z.of_nat (length T)) as Hlhs.
  { unfold lhs. apply binary_sum_count. unfold binary. rewrite Forall_forall.
    intros a Ha%Hin. pose proof (binary_A _ _ _ x' Hfeasible) as Hb.
    unfold binary in Hb. rewrite Forall_forall in Hb. apply Hb. by destruct Ha. }
  assert (NoDup (T.*1)) as HndT.
  { apply NoDup_fmap_2_strong; [|by apply NoDup_filter].
    intros [u1 w1] [u2 w2] (Hx1 & HA1 & _)%HT (Hx2 & HA2 & _)%HT Heq.
    simpl in Heq. subst u2.
    destruct (oto_succ _ _ _ Hoto u1) as (w0 & _ & _ & Huniq).
    { by apply (oto_ends _ _ _ Hoto) in HA1 as [? _]. }
    by rewrite (Huniq w1 HA1 Hx1), (Huniq w2 HA2 Hx2). }
  assert (T.*1 ⊆+ tour.*1) as Hsub.
  { apply NoDup_submseteq; [done|]. intros u ([u' w] & -> & Ha)%list_elem_of_fmap.
    by apply HT in Ha as (_ & _ & ? & _). }
  pose proof (submseteq_length _ _ Hsub) as Hle. rewrite !length_fmap in Hle.
  assert (length T ≠ length tour) as Hneq.
  { intros Heq.
    assert (T.*1 ≡ₚ tour.*1) as Hperm.
    { apply submseteq_length_Permutation; [done|]. rewrite !length_fmap.
      by apply Nat.eq_le_incl. }
    assert (∀ v, v ∈ tour.*1 → ∃ w, (v, w) ∈ T) as Hout.
    { intros v Hv. rewrite <-Hperm in Hv.
      apply list_elem_of_fmap in Hv as ([v' w] & -> & Ha). by exists w. }
    destruct tour as [|[u w] tour']; [done|].
    assert (u ∈ ((u, w) :: tour').*1) as Hu by (by left).
    assert (u ∈ N) as HuN.
    { destruct (Hout u Hu) as (w' & (_ & HA & _)%HT).
      by apply (oto_ends _ _ _ Hoto) in HA as [? _]. }
    assert (length N ≤ length (((u, w) :: tour').*1))%nat as Hlen'.
    { apply submseteq_length, NoDup_submseteq; [apply N_NoDup|].
      apply (oto_closed_all _ _ _ Hoto (λ v, v ∈ ((u, w) :: tour').*1) u); try done.
      intros v1 w1 HA1 Hx1 Hv1. destruct (Hout v1 Hv1) as (w2 & (Hx2 & HA2 & _ & Hw2)%HT).
      simpl in Hw2.
      destruct (oto_succ _ _ _ Hoto v1) as (w0 & _ & _ & Huniq).
      { by apply (oto_ends _ _ _ Hoto) in HA1 as [? _]. }
      by rewrite (Huniq w1 HA1 Hx1), <-(Huniq w2 HA2 Hx2). }
    rewrite length_fmap in Hlen'. unfold Arc in *. lia. }
  unfold satisfies. rewrite Hlhs. unfold c. simpl. unfold Arc in *. lia.
Qed.

(** A tour does not select all the arcs of a shorter cycle. *)
Lemma subtourelim_constraint_valid x tour :
  is_cycle (A g) x tour → (length tour < length N)%nat →
  satisfies x' (subtourelim_constraint tour).
Proof.
  intros Hcyc Hlen. pose proof Hcyc as (Hne & Hsel & Hrot & Hnd).
  assert (binary x' tour) as Hb.
  { eapply Forall_impl; [exact Hsel|]. intros a [Ha _]. simpl.
    pose proof (binary_A _ _ _ x' Hfeasible) as HbA.
    unfold binary in HbA. rewrite Forall_forall in HbA. by apply HbA. }
  assert (lhs x' (subtourelim_constraint tour)
          = Z.of_nat (length (filter (λ a, x' a = 1) tour))) as Hlhs.
  { unfold lhs. by apply binary_sum_count. }
  pose proof (length_filter (λ a, x' a = 1) tour) as Hle.
  assert (length (filter (λ a, x' a = 1) tour) ≠ length tour) as Hneq.
  { intros Heq. destruct Htour as [_ Hall].
    assert (is_cycle (A g) x' tour) as Hcyc'; [|apply Hall in Hcyc'; lia].
    split_and!; try done. rewrite Forall_forall in Hsel. apply Forall_forall.
    intros a Ha. split; [by apply Hsel|].
    destruct (decide (x' a = 1)) as [|Hxa]; [done|].
    pose proof (length_filter_lt (λ a, x' a = 1) tour a Ha Hxa). lia. }
  unfold satisfies. rewrite Hlhs. simpl. unfold Arc in *. lia.
Qed.
End Validity.

(** X7: no elimination constraint removes a tour.  Whatever candidate and
    cycle of fewer than [n] arcs a constraint was built from, every
    assignment that satisfies the degree constraints and has a cycle through
    all the nodes satisfies it; this holds for the constraint of the
    iterative scripts and of the tuple-based callback, and for the
    constraint of the class-based callback, which sums the arcs of the cycle
    only. *)
Theorem cuts_keep_every_tour num_rows num_cols H x tour x' tour' :
  feasible x' (formulate (grid_graph num_rows num_cols H) (create_nodes num_rows num_cols H)) →
  is_cycle (A (grid_graph num_rows num_cols H)) x' tour' →
  length tour' = length (create_nodes num_rows num_cols H) →
  is_cycle (A (grid_graph num_rows num_cols H)) x tour →
  (length tour < length (create_nodes num_rows num_cols H))%nat →
  satisfies x' (elimination_constraint (A (grid_graph num_rows num_cols H)) tour)
  ∧ satisfies x' (subtourelim_constraint tour).
Proof.
  intros Hx' Hcyc' Hlen' Hcyc Hlen.
  assert (single_spanning_cycle (A (grid_graph num_rows num_cols H))
            (create_nodes num_rows num_cols H) x') as Hs.
  { by apply (oto_spanning_iff _ _ _ (grid_one_to_one _ _ _ x' Hx') tour'). }
  split.
  - destruct Hcyc as (Hne & _ & _ & Hnd). by apply elimination_constraint_valid.
  - by apply (subtourelim_constraint_valid _ _ _ x' Hx' Hs x).
Qed.

Lemma cuts_keep_every_tour_witness :
  satisfies (selecting tour_2x2) (elimination_constraint (A (grid_graph 2 2 [])) dummy_cycle_2x2)
  ∧ satisfies (selecting tour_2x2) (subtourelim_constraint dummy_cycle_2x2).
Proof.
  apply (cuts_keep_every_tour 2 2 [] x_2x2 dummy_cycle_2x2 (selecting tour_2x2) tour_2x2);
    by_evaluation.
Defined.

(** ** What the elimination loop keeps *)

Section LoopInvariant.
Context (num_rows num_cols : Z) (H : list (Z * Z)) (solve : Model → assignment).
Local Abbreviation N := (create_nodes num_rows num_cols H).
Local Abbreviation g := (grid_graph num_rows num_cols H).
Hypothesis Hsolve : ∀ mdl, feasible (solve mdl) (formulate g N).

(** The constraints the loop adds: elimination constraints of cycles, of
    fewer than [n] arcs, of candidates that satisfy the degree
    constraints. *)
Definition subtour_cut (c : LpConstraint) : Prop :=
  ∃ x tour, feasible x (formulate g N) ∧ is_cycle (A g) x tour
            ∧ (1 < length tour < length N)%nat
            ∧ c = elimination_constraint (A g) tour.

Definition extends (mdl mdl' : Model) : Prop :=
  vars mdl' = vars mdl ∧ objective mdl' = objective mdl
  ∧ ∃ cuts, constraints mdl' = constraints mdl ++ cuts ∧ Forall subtour_cut cuts.

Lemma extends_refl mdl : extends mdl mdl.
Proof. split_and!; try done. exists []. by rewrite app_nil_r. Qed.

Lemma extends_trans mdl1 mdl2 mdl3 : extends mdl1 mdl2 → extends mdl2 mdl3 → extends mdl1 mdl3.
Proof.
  intros (Hv1 & Ho1 & cuts1 & Hc1 & Hcuts1) (Hv2 & Ho2 & cuts2 & Hc2 & Hcuts2).
  split_and!; [congruence..|]. exists (cuts1 ++ cuts2). split.
  - by rewrite Hc2, Hc1, app_assoc.
  - by apply Forall_app.
Qed.

Lemma iteration_extends s fuel st st' :
  (length N ≤ fuel)%nat →
  iteration (A g) (length N) s fuel (solve (st_mdl st)) st = Returned st' →
  extends (st_mdl st) (st_mdl st') ∧ (2 ≤ st_tour_length st')%nat.
Proof.
  intros Hfuel. unfold iteration.
  destruct (subtour_dummy_cycle _ _ _ _ (Hsolve (st_mdl st)))
    as (tour & Hret & Hcyc & _ & _ & Hlen).
  rewrite (Hret fuel Hfuel).
  destruct (print_line s _) as [[]| |]; [|done..]. intros [= <-].
  unfold cut. destruct (_ && _) eqn:Hguard; simpl; [|by split; [apply extends_refl|]].
  apply andb_true_iff in Hguard as [Hlt%bool_decide_eq_true Hgt%bool_decide_eq_true].
  split; [|done]. split_and!; try done.
  exists [elimination_constraint (A g) tour]. split; [done|].
  apply Forall_singleton. exists (solve (st_mdl st)), tour. by split_and!.
Qed.

Lemma loop_extends s budget fuel st st' :
  (length N ≤ fuel)%nat →
  elimination_loop (A g) (length N) solve s budget fuel st = Returned st' →
  extends (st_mdl st) (st_mdl st') ∧ (length N ≤ st_tour_length st')%nat.
Proof.
  intros Hfuel. revert st. induction budget as [|budget IH]; intros st; simpl.
  - case_bool_decide; [done|]. intros [= <-]. split; [apply extends_refl|lia].
  - case_bool_decide.
    + destruct (iteration _ _ _ _ _ _) as [st1| |] eqn:Hit; [|done..].
      intros Hloop. apply IH in Hloop as [Hext Hlen].
      apply iteration_extends in Hit as [Hext1 _]; [|done].
      split; [by apply (extends_trans _ (st_mdl st1))|done].
    + intros [= <-]. split; [apply extends_refl|lia].
Qed.
End LoopInvariant.

(** X8: what the elimination loop of the iterative scripts does to the
    model, when every solve returns a candidate that satisfies the degree
    constraints and the loop ends: the variables and the objective are
    untouched, the constraints are the former ones followed by elimination
    constraints of cycles shorter than [n], [tour_length] has reached [n],
    and every assignment that satisfies the degree constraints and is a
    cycle through all the nodes satisfies all the added constraints. *)
Theorem elimination_loop_keeps_tours num_rows num_cols H solve s budget fuel st st' :
  (∀ mdl, feasible (solve mdl)
            (formulate (grid_graph num_rows num_cols H) (create_nodes num_rows num_cols H))) →
  (length (create_nodes num_rows num_cols H) ≤ fuel)%nat →
  elimination_loop (A (grid_graph num_rows num_cols H))
    (length (create_nodes num_rows num_cols H)) solve s budget fuel st = Returned st' →
  vars (st_mdl st') = vars (st_mdl st)
  ∧ objective (st_mdl st') = objective (st_mdl st)
  ∧ (length (create_nodes num_rows num_cols H) ≤ st_tour_length st')%nat
  ∧ ∃ cuts,
      constraints (st_mdl st') = constraints (st_mdl st) ++ cuts
      ∧ Forall (subtour_cut num_rows num_cols H) cuts
      ∧ ∀ x' tour',
          feasible x' (formulate (grid_graph num_rows num_cols H)
                                 (create_nodes num_rows num_cols H)) →
          is_cycle (A (grid_graph num_rows num_cols H)) x' tour' →
          length tour' = length (create_nodes num_rows num_cols H) →
          Forall (satisfies x') cuts.
Proof.
  intros Hsolve Hfuel Hloop.
  destruct (loop_extends _ _ _ solve Hsolve s budget fuel st st' Hfuel Hloop)
    as [(Hv & Ho & cuts & Hc & Hcuts) Hlen].
  split_and!; try done. exists cuts. split_and!; try done.
  intros x' tour' Hx' Hcyc' Hlen'.
  assert (single_spanning_cycle (A (grid_graph num_rows num_cols H))
            (create_nodes num_rows num_cols H) x') as Hs.
  { by apply (oto_spanning_iff _ _ _ (grid_one_to_one _ _ _ x' Hx') tour'). }
  eapply Forall_impl; [exact Hcuts|]. intros c (x & tour & Hx & Hcyc & [Hgt Hlt] & ->).
  destruct Hcyc as (Hne & _ & _ & Hnd). by apply elimination_constraint_valid.
Qed.

Lemma elimination_loop_keeps_tours_witness :
  let mdl := formulate (grid_graph 2 2 []) (create_nodes 2 2 []) in
  let mdl' := addConstraint mdl (elimination_constraint (A (grid_graph 2 2 [])) dummy_cycle_2x2) in
  vars mdl' = vars mdl
  ∧ objective mdl' = objective mdl
  ∧ (length (create_nodes 2 2 []) ≤ 5)%nat
  ∧ ∃ cuts,
      constraints mdl' = constraints mdl ++ cuts
      ∧ Forall (subtour_cut 2 2 []) cuts
      ∧ ∀ x' tour',
          feasible x' (formulate (grid_graph 2 2 []) (create_nodes 2 2 [])) →
          is_cycle (A (grid_graph 2 2 [])) x' tour' →
          length tour' = length (create_nodes 2 2 []) →
          Forall (satisfies x') cuts.
Proof.
  intros mdl mdl'.
  apply (elimination_loop_keeps_tours 2 2 [] solve_2x2 calling_pulp 2 5
           (initial_state mdl) (mkState mdl' 5 (Some (dummy_cycle_2x2.*1)))).
  - intros m. unfold solve_2x2. case_bool_decide; by_evaluation.
  - by_evaluation.
  - vm_compute. reflexivity.
Defined.

(** ** The cycle walk of the class-based callback script *)

Section SubtourEdges.
Context (edges : list (city * city)).
Hypothesis Hobj : Forall (λ e, ∃ v, e.1 = Obj v) edges.

(** No edge leaves an integer. *)
Lemma select_int i : select (Int i) edges = [].
Proof.
  unfold select.
  assert (∀ l, Forall (λ e : city * city, ∃ v, e.1 = Obj v) l →
               filter (λ e, e.1 = Int i) l = []) as Hnil; [|by apply Hnil].
  induction 1 as [|e l [v He] Hl IH]; [done|].
  rewrite filter_cons, decide_False; [done|]. by rewrite He.
Qed.

(** The inner loop visits one city and stops. *)
Lemma visit_int fuel i unvisited :
  visit (S (S fuel)) edges (Int i :: unvisited) (Int i :: unvisited) []
  = Done (unvisited, [Int i]).
Proof. simpl. rewrite decide_True by done. by rewrite select_int. Qed.

(** Once [cycle] has one city it is never replaced. *)
Lemma shortest_keeps ks cycle fuel :
  (length cycle ≤ 1)%nat → (length ks + 2 < fuel)%nat →
  shortest fuel edges (Int <$> ks) cycle = Done cycle.
Proof.
  intros Hcycle. revert fuel. induction ks as [|k ks IH]; intros fuel Hfuel.
  - destruct fuel as [|fuel]; [lia|done].
  - destruct fuel as [|[|[|fuel]]]; simpl in Hfuel; try lia.
    change (shortest (S (S (S fuel))) edges (Int <$> k :: ks) cycle)
      with (match visit (S (S fuel)) edges (Int k :: (Int <$> ks)) (Int k :: (Int <$> ks)) [] with
            | Done (unvisited, thiscycle) =>
                shortest (S (S fuel)) edges unvisited
                  (if bool_decide (length thiscycle < length cycle)%nat
                   then thiscycle else cycle)
            | Failed e => Failed e
            | NoFuel => NoFuel
            end).
    rewrite visit_int. rewrite bool_decide_eq_false_2 by (simpl; lia).
    apply IH. lia.
Qed.

Lemma subtour_edges_cycle n fuel :
  (n + 2 < fuel)%nat →
  shortest fuel edges (Int <$> seq 0 n) (Int <$> seq 0 (n + 1)) = Done [Int 0%nat].
Proof.
  intros Hfuel. destruct n as [|n].
  - destruct fuel as [|fuel]; [lia|done].
  - destruct fuel as [|[|[|fuel]]]; try lia.
    change (Int <$> seq 0 (S n)) with (Int 0%nat :: (Int <$> seq 1 n)).
    change (shortest (S (S (S fuel))) edges (Int 0%nat :: (Int <$> seq 1 n))
              (Int <$> seq 0 (S n + 1)))
      with (match visit (S (S fuel)) edges (Int 0%nat :: (Int <$> seq 1 n))
                    (Int 0%nat :: (Int <$> seq 1 n)) [] with
            | Done (unvisited, thiscycle) =>
                shortest (S (S fuel)) edges unvisited
                  (if bool_decide (length thiscycle < length (Int <$> seq 0 (S n + 1)))%nat
                   then thiscycle else Int <$> seq 0 (S n + 1))
            | Failed e => Failed e
            | NoFuel => NoFuel
            end).
    rewrite visit_int.
    rewrite bool_decide_eq_true_2 by (rewrite length_fmap, length_seq; simpl; lia).
    apply shortest_keeps; [done|]. rewrite length_seq. lia.
Qed.
End SubtourEdges.

Lemma selected_edges_obj A_ x : Forall (λ e, ∃ v, e.1 = Obj v) (selected_edges A_ x).
Proof.
  unfold selected_edges. apply Forall_fmap, Forall_forall. intros a _. by exists a.1.
Qed.

(** X9: in the class-based callback script the cities that [subtour] walks
    are integers while the edges it is given join [Node] objects, so no
    edge is ever followed: whatever the solver selected, [subtour] returns
    the single pair (0, 0); the callback therefore never reaches [cbLazy],
    and the assertion [len(tour) == n] after the solve holds only when there
    is a single node. *)
Theorem subtour_edges_ignores_edges n A_ x fuel :
  (n + 2 < fuel)%nat →
  subtour_edges n (selected_edges A_ x) fuel = Done [(Int 0%nat, Int 0%nat)]
  ∧ subtourelim_edges A_ n x fuel = Done None
  ∧ assert_tour_edges A_ n x fuel = Done (bool_decide (n = 1%nat)).
Proof.
  intros Hfuel.
  assert (subtour_edges n (selected_edges A_ x) fuel = Done [(Int 0%nat, Int 0%nat)]) as Hsub.
  { unfold subtour_edges.
    by rewrite (subtour_edges_cycle _ (selected_edges_obj A_ x) n fuel Hfuel). }
  split_and!; [done|..].
  - unfold subtourelim_edges. rewrite Hsub.
    change (length [(Int 0%nat, Int 0%nat)]) with 1%nat.
    rewrite (bool_decide_eq_false_2 (1 < 1)%nat) by lia. by rewrite andb_false_r.
  - unfold assert_tour_edges. rewrite Hsub.
    change (length [(Int 0%nat, Int 0%nat)]) with 1%nat. f_equal.
    apply bool_decide_ext. lia.
Qed.

Lemma subtour_edges_ignores_edges_witness :
  subtour_edges 5 (selected_edges (A (grid_graph 2 2 [])) (selecting tour_2x2)) 8
  = Done [(Int 0%nat, Int 0%nat)]
  ∧ subtourelim_edges (A (grid_graph 2 2 [])) 5 (selecting tour_2x2) 8 = Done None
  ∧ assert_tour_edges (A (grid_graph 2 2 [])) 5 (selecting tour_2x2) 8
    = Done (bool_decide (5 = 1)%nat).
Proof.
  apply (subtour_edges_ignores_edges 5 (A (grid_graph 2 2 [])) (selecting tour_2x2) 8).
  by_evaluation.
Defined.

(** ** The degree constraints on any graph built with [add_arc] *)

Lemma feasible_one_to_one g N x :
  store_ok g → NoDup N →
  (∀ v w, (v, w) ∈ A g → v ∈ N ∧ w ∈ N ∧ v ≠ w) →
  feasible x (formulate g N) → one_to_one N (A g) x.
Proof.
  intros Hstore Hnd Hends [Hb Hc]. rewrite formulate_vars in Hb.
  rewrite formulate_constraints, Forall_forall in Hc.
  split; [done..| |].
  - intros v Hv.
    destruct (unique_selected x (filter (λ a, a.1 = v) (A g))) as ([v' w] & Hin & Hx & Huniq).
    { by apply binary_filter. }
    { rewrite <-(proj1 (Hstore v)). apply (Hc (degree_origin g v)).
      apply list_elem_of_bind. exists v. split; [by left|done]. }
    apply list_elem_of_filter in Hin as [Hv' Hin]. simpl in Hv'. subst v'.
    exists w. split_and!; [done..|]. intros w' Hin' Hx'.
    assert ((v, w') = (v, w)) as Heq; [|congruence].
    apply Huniq; [|done]. by apply list_elem_of_filter.
  - intros w Hw.
    destruct (unique_selected x (filter (λ a, a.2 = w) (A g))) as ([v w'] & Hin & Hx & Huniq).
    { by apply binary_filter. }
    { rewrite <-(proj2 (Hstore w)). apply (Hc (degree_destination g w)).
      apply list_elem_of_bind. exists w. split; [right; by left|done]. }
    apply list_elem_of_filter in Hin as [Hw' Hin]. simpl in Hw'. subst w'.
    exists v. split_and!; [done..|]. intros v' Hin' Hx'.
    assert ((v', w) = (v, w)) as Heq; [|congruence].
    apply Huniq; [|done]. by apply list_elem_of_filter.
Qed.

(** ** Sequence constraints *)

Lemma py_sum_snoc l z : py_sum (l ++ [z]) = py_sum l + z.
Proof. unfold py_sum. by rewrite foldl_app. Qed.

Lemma py_sum_rotate1 l : py_sum (rotate1 l) = py_sum l.
Proof. destruct l as [|h t]; [done|]. simpl. rewrite py_sum_snoc, py_sum_cons. lia. Qed.

Lemma fmap_rotate1 {X Y} (f : X → Y) l : f <$> rotate1 l = rotate1 (f <$> l).
Proof. destruct l as [|h t]; [done|]. simpl. by rewrite fmap_app. Qed.

Lemma increasing_sum {X} (f : X → Z) l l' :
  Forall2 (λ v w, f v + 1 ≤ f w) l l' →
  py_sum (f <$> l) + Z.of_nat (length l) ≤ py_sum (f <$> l').
Proof. induction 1; csimpl; rewrite ?py_sum_cons; lia. Qed.

(** No labelling increases along every link of a closed chain. *)
Lemma no_increasing_cycle {X} (f : X → Z) l :
  l ≠ [] → ¬ Forall2 (λ v w, f v + 1 ≤ f w) l (rotate1 l).
Proof.
  intros Hne HF%increasing_sum. rewrite fmap_rotate1, py_sum_rotate1 in HF.
  destruct l; simpl in *; [done|lia].
Qed.

(** Along a list whose labels increase from each place to the next, they
    increase by at least the distance between two places. *)
Lemma chain_bounds {X} (f : X → Z) (order : list X) :
  (∀ i v w, order !! i = Some v → order !! S i = Some w → f v + 1 ≤ f w) →
  ∀ d i v w, order !! i = Some v → order !! (i + d)%nat = Some w →
             f v + Z.of_nat d ≤ f w.
Proof.
  intros Hstep. induction d as [|d IH]; intros i v w Hv Hw.
  - rewrite Nat.add_0_r in Hw. simplify_eq. lia.
  - replace (i + S d)%nat with (S (i + d)) in Hw by lia.
    destruct (lookup_lt_is_Some_2 order (i + d)) as [w0 Hw0].
    { apply lookup_lt_Some in Hw. lia. }
    pose proof (IH i v w0 Hv Hw0). pose proof (Hstep _ _ _ Hw0 Hw). lia.
Qed.

(** With as many labels between 1 and the length as there are places,
    the label of each place is its number. *)
Lemma chain_pinned {X} (f : X → Z) (order : list X) :
  (∀ i v w, order !! i = Some v → order !! S i = Some w → f v + 1 ≤ f w) →
  (∀ v, v ∈ order → 1 ≤ f v ≤ Z.of_nat (length order)) →
  ∀ i v, order !! i = Some v → f v = Z.of_nat i + 1.
Proof.
  intros Hstep Hbounds i v Hv. pose proof (lookup_lt_Some _ _ _ Hv) as Hi.
  destruct (lookup_lt_is_Some_2 order 0) as [v0 Hv0]; [lia|].
  destruct (lookup_lt_is_Some_2 order (length order - 1)) as [vl Hvl]; [lia|].
  pose proof (chain_bounds f order Hstep i 0%nat v0 v Hv0 Hv) as Hlow.
  assert (order !! (i + (length order - 1 - i))%nat = Some vl) as Hvl'.
  { by replace (i + (length order - 1 - i))%nat with (length order - 1)%nat by lia. }
  pose proof (chain_bounds f order Hstep _ i v vl Hv Hvl') as Hup.
  assert (v0 ∈ order) as H0 by (apply list_elem_of_lookup; eauto).
  assert (vl ∈ order) as Hl by (apply list_elem_of_lookup; eauto).
  apply Hbounds in H0, Hl. lia.
Qed.

Lemma elem_of_sequence_constraints dummy A_ n c :
  c ∈ sequence_constraints dummy A_ n ↔
  ∃ v w, (v, w) ∈ A_ ∧ v ≠ dummy ∧ w ≠ dummy ∧ c = mkSeq v w n.
Proof.
  unfold sequence_constraints. rewrite list_elem_of_bind. split.
  - intros ([v w] & Hc & Ha). simpl in Hc.
    repeat case_bool_decide; simpl in Hc; try by apply elem_of_nil in Hc.
    apply list_elem_of_singleton in Hc. by exists v, w.
  - intros (v & w & Ha & Hv & Hw & ->). exists (v, w). split; [|done]. simpl.
    rewrite !bool_decide_eq_true_2 by done. by left.
Qed.

Section Sequence.
Context (N : list Node) (A_ : list Arc) (x : assignment) (dummy : Node).
Hypothesis Hoto : one_to_one N A_ x.
Hypothesis Hdummy : dummy ∈ N.

Section Sound.
Context (u : Node → Z) (n : Z).
Hypothesis Hseq : Forall (seq_satisfies x u) (sequence_constraints dummy A_ n).

(** Along a selected arc between two real nodes [u] increases. *)
Lemma seq_step v w :
  (v, w) ∈ A_ → x (v, w) = 1 → v ≠ dummy → w ≠ dummy → u v + 1 ≤ u w.
Proof.
  intros Ha Hx Hv Hw. rewrite Forall_forall in Hseq.
  assert (seq_satisfies x u (mkSeq v w n)) as Hs.
  { apply Hseq, elem_of_sequence_constraints. by exists v, w. }
  unfold seq_satisfies in Hs. simpl in Hs. rewrite Hx in Hs. lia.
Qed.

(** So every cycle passes through the dummy node. *)
Lemma seq_cycle_dummy c : is_cycle A_ x c → dummy ∈ c.*1.
Proof.
  intros (Hne & Hsel & Hrot & Hnd).
  destruct (decide (dummy ∈ c.*1)) as [|Hout]; [done|]. exfalso.
  apply (no_increasing_cycle u (c.*1)); [by destruct c|].
  apply cycle_Forall2 in Hsel. rewrite Hrot in Hsel.
  apply Forall2_same_length_lookup in Hsel as [Hlen Hsel].
  apply Forall2_same_length_lookup. split; [done|].
  intros i v w Hv Hw. destruct (Hsel i v w Hv Hw) as [Ha Hx].
  apply seq_step; try done.
  - intros ->. apply Hout, list_elem_of_lookup. eauto.
  - intros ->. apply Hout, (elem_of_rotate1 (c.*1)), list_elem_of_lookup. eauto.
Qed.

(** And the candidate is one cycle through all the nodes. *)
Lemma seq_single_spanning : single_spanning_cycle A_ N x.
Proof.
  destruct (oto_cycle_through _ _ _ Hoto dummy Hdummy)
    as (start & res & _ & _ & _ & HD & HlastD & _).
  apply (oto_spanning_iff _ _ _ Hoto _ HD), (oto_cycle_spanning _ _ _ Hoto _ HD).
  intros v Hv.
  destruct (oto_cycle_through _ _ _ Hoto v Hv) as (s & r & _ & _ & _ & Hc & Hlast & _).
  apply (oto_cycles_meet _ _ _ Hoto _ _ dummy Hc HD).
  - by apply seq_cycle_dummy.
  - by apply last_Some_elem_of.
  - by apply last_Some_elem_of.
Qed.
End Sound.

(** The places of the nodes on a cycle through all the nodes satisfy the
    sequence constraints. *)
Lemma seq_complete tour n :
  binary x A_ → is_cycle A_ x tour → length tour = length N →
  Z.of_nat (length N) - 1 ≤ n →
  ∃ u, u dummy = 0
       ∧ (∀ v, v ∈ N → v ≠ dummy → 1 ≤ u v ≤ Z.of_nat (length N) - 1)
       ∧ Forall (seq_satisfies x u) (sequence_constraints dummy A_ n).
Proof.
  intros Hb Htour Hlen Hn.
  pose proof (proj1 (oto_cycle_spanning _ _ _ Hoto tour Htour) Hlen) as Hall.
  destruct (oto_tour_order _ _ _ Hoto dummy tour Hdummy Htour (Hall _ Hdummy))
    as (start & order & rest & Heq & Hchain & Hstart & Hnd & Hin & Hlo).
  set (u := λ v, default 0 (number_from order 1 ∅ !! cell_key v)).
  assert (∀ k v, order !! k = Some v → u v = Z.of_nat k + 1) as Hu.
  { intros k v Hk. unfold u. rewrite (number_from_lookup order 1 ∅ k v Hnd Hk). simpl. lia. }
  assert (∀ v, v ∈ N → v ≠ dummy → ∃ k, order !! k = Some v) as Hplace.
  { intros v Hv Hne. apply list_elem_of_lookup, Hin. split; [by apply Hall|done]. }
  assert (∀ v, v ∈ N → v ≠ dummy → 1 ≤ u v ≤ Z.of_nat (length N) - 1) as Hbounds.
  { intros v Hv Hne. destruct (Hplace v Hv Hne) as [k Hk].
    rewrite (Hu k v Hk). apply lookup_lt_Some in Hk. unfold Arc in *. lia. }
  exists u. split.
  { unfold u. rewrite number_from_skip, lookup_empty; [done|]. by intros [_ ?]%Hin. }
  split; [done|]. apply Forall_forall.
  intros c (v & w & Ha & Hv & Hw & ->)%elem_of_sequence_constraints.
  unfold seq_satisfies. simpl.
  destruct (oto_ends _ _ _ Hoto v w Ha) as (HvN & HwN & _).
  pose proof (Hbounds v HvN Hv). pose proof (Hbounds w HwN Hw).
  unfold binary in Hb. rewrite Forall_forall in Hb.
  destruct (Hb _ Ha) as [Hx|Hx]; rewrite Hx; [lia|].
  destruct (Hplace v HvN Hv) as [k Hk].
  destruct (decide (S k = length order)) as [Hlast|Hmid].
  - pose proof (shifted_last _ _ _ _ k Heq Hlast) as Hr.
    pose proof (Forall2_lookup_lr _ _ _ k v dummy Hchain Hk Hr) as Hvd.
    by rewrite (oto_cycle_arc _ _ _ Hoto tour v dummy w Htour Hvd Ha Hx) in Hw.
  - destruct (lookup_lt_is_Some_2 order (S k)) as [w' Hw'].
    { apply lookup_lt_Some in Hk. lia. }
    pose proof (shifted_next _ _ _ _ k w' Heq Hw') as Hr.
    pose proof (Forall2_lookup_lr _ _ _ k v w' Hchain Hk Hr) as Hvw'.
    rewrite (oto_cycle_arc _ _ _ Hoto tour v w' w Htour Hvw' Ha Hx).
    rewrite (Hu k v Hk), (Hu (S k) w' Hw'). lia.
Qed.
End Sequence.

(** ** The scripts with sequence variables on the grid graph *)

Lemma filter_all {X} (P : X → Prop) `{∀ v, Decision (P v)} l :
  Forall P l → filter P l = l.
Proof. induction 1; [done|]. rewrite filter_cons, decide_True by done. by f_equal. Qed.

Lemma but_dummy_real num_rows num_cols H :
  but_dummy (create_nodes num_rows num_cols H) = real_nodes num_rows num_cols H.
Proof.
  unfold but_dummy, create_nodes. rewrite filter_app, filter_all.
  - rewrite filter_cons, decide_False by (by intros ?). apply app_nil_r.
  - apply Forall_forall. intros v Hv ->. by apply dummy_not_real in Hv.
Qed.

(** The Gurobi script states the two constraints of the dummy node
    twice. *)
Lemma mtz_base_feasible s num_rows num_cols H x :
  feasible x (base (formulate_mtz s num_rows num_cols H)) ↔
  feasible x (formulate (grid_graph num_rows num_cols H) (create_nodes num_rows num_cols H)).
Proof.
  destruct s; [done|]. unfold formulate_mtz, feasible, grid_graph.
  cbn [base mtz_degree_nodes].
  rewrite !formulate_vars, !formulate_constraints, bind_app, Forall_app.
  split; [tauto|]. intros [Hb Hc]. split_and!; try done.
  rewrite Forall_forall in Hc. apply Forall_forall. intros c Hc'. apply Hc.
  apply list_elem_of_bind in Hc' as (v & Hc' & ->%list_elem_of_singleton).
  apply list_elem_of_bind. exists dummy_node. split; [done|]. apply dummy_in_N.
Qed.

Lemma u_sol_lookup nodes u v :
  u_sol_of nodes u !! cell_key v = if decide (v ∈ nodes) then Some (u v) else None.
Proof.
  unfold u_sol_of. induction nodes as [|w nodes IH] using rev_ind.
  { cbn [foldl]. rewrite lookup_empty.
    destruct (decide (v ∈ [])) as [Hv|]; [by apply elem_of_nil in Hv|done]. }
  rewrite foldl_app. simpl. destruct (decide (w = v)) as [->|Hne].
  - rewrite lookup_insert_eq, decide_True; [done|]. apply elem_of_app. right. by left.
  - rewrite lookup_insert_ne by (by intros ?%cell_key_inj). rewrite IH.
    destruct (decide (v ∈ nodes)) as [Hv|Hv].
    + rewrite decide_True; [done|]. apply elem_of_app. by left.
    + rewrite decide_False; [done|]. rewrite elem_of_app, list_elem_of_singleton.
      intros [?|?]; done.
Qed.

Lemma mtz_n_bound s N : Z.of_nat (length N) - 1 ≤ mtz_n s N.
Proof. destruct s; simpl; lia. Qed.

(** X10: what the scripts with sequence variables accept and print, when
    the dummy node is the last node of [N].  Every solution of the model is
    one cycle through all the nodes; [u] numbers the cells that are not
    holes 1, 2, ... in the order of that cycle from the dummy node on, each
    cell next to its predecessor on the grid; and the rows that are printed
    show these numbers, and 0 at the holes.  The sequence constraints
    mention no variable [u] that was not created. *)
Theorem mtz_solution_is_visit_order s num_rows num_cols H x u :
  seq_feasible x u (formulate_mtz s num_rows num_cols H) →
  single_spanning_cycle (A (grid_graph num_rows num_cols H))
                        (create_nodes num_rows num_cols H) x
  ∧ Forall (λ c, seq_origin c ∈ u_keys (formulate_mtz s num_rows num_cols H)
               ∧ seq_destination c ∈ u_keys (formulate_mtz s num_rows num_cols H))
           (sequence (formulate_mtz s num_rows num_cols H))
  ∧ ∃ order,
      order ≡ₚ real_nodes num_rows num_cols H
      ∧ (∀ v, head order = Some v → x (dummy_node, v) = 1)
      ∧ (∀ k v w, order !! k = Some v → order !! S k = Some w →
                  x (v, w) = 1 ∧ adjacent v w)
      ∧ (∀ v, last order = Some v → x (v, dummy_node) = 1)
      ∧ (∀ k v, order !! k = Some v →
           u v = Z.of_nat k + 1
           ∧ entry (print_mtz num_rows num_cols H u) (row (cell v)) (col (cell v))
             = Some (Z.of_nat k + 1))
      ∧ (∀ i j, 1 ≤ i ≤ num_rows → 1 ≤ j ≤ num_cols → (i, j) ∈ H →
           entry (print_mtz num_rows num_cols H u) i j = Some 0).
Proof.
  intros (Hx%mtz_base_feasible & Hbnd & Hseq).
  pose proof (grid_one_to_one _ _ _ x Hx) as Hoto.
  pose proof (dummy_in_N num_rows num_cols H) as Hd.
  simpl in Hbnd, Hseq. rewrite but_dummy_real in Hbnd. rewrite Forall_forall in Hbnd.
  change (create_arcs (create_nodes num_rows num_cols H))
    with (grid_graph num_rows num_cols H) in Hseq.
  pose proof (seq_single_spanning _ _ _ _ Hoto Hd u _ Hseq) as Hs.
  split; [done|]. split.
  { simpl. rewrite but_dummy_real. apply Forall_forall.
    intros c (v & w & Ha & Hv & Hw & ->)%elem_of_sequence_constraints. simpl.
    apply (oto_ends _ _ _ Hoto) in Ha as (HvN & HwN & _).
    apply elem_of_create_nodes in HvN as [?|?], HwN as [?|?]; done. }
  destruct Hs as [(tour & Htour & Hlen) _].
  pose proof (proj1 (oto_cycle_spanning _ _ _ Hoto tour Htour) Hlen) as Hall.
  destruct (oto_tour_order _ _ _ Hoto dummy_node tour Hd Htour (Hall _ Hd))
    as (start & order & rest & Heq & Hchain & Hstart & Hnd & Hin & Hlo).
  pose proof Htour as (_ & Hsel & _). rewrite Forall_forall in Hsel.
  assert (order ≡ₚ real_nodes num_rows num_cols H) as Hperm.
  { apply NoDup_Permutation; [done|apply real_nodes_NoDup|]. intros v. rewrite Hin.
    pose proof (dummy_not_real num_rows num_cols H). split.
    - intros [Hv Hne].
      apply (oto_cycle_nodes _ _ _ Hoto tour Htour), elem_of_create_nodes in Hv as [?|?]; done.
    - intros Hv. split; [|by intros ->]. apply Hall, elem_of_create_nodes. by left. }
  assert (∀ k v w, order !! k = Some v → order !! S k = Some w → (v, w) ∈ tour) as Hnext.
  { intros k v w Hv Hw. pose proof (shifted_next _ _ _ _ k w Heq Hw) as Hr.
    apply (Forall2_lookup_lr _ _ _ k v w Hchain Hv Hr). }
  assert (∀ v, v ∈ order → v ≠ dummy_node) as Hreal by (by intros v [_ ?]%Hin).
  assert (∀ k v, order !! k = Some v → u v = Z.of_nat k + 1) as Hu.
  { apply chain_pinned.
    - intros k v w Hv Hw. destruct (Hsel _ (Hnext k v w Hv Hw)) as [Ha Hxa].
      apply (seq_step _ _ dummy_node u _ Hseq); try done.
      + apply Hreal, list_elem_of_lookup. eauto.
      + apply Hreal, list_elem_of_lookup. eauto.
    - intros v Hv. rewrite Hperm in Hv. destruct (Hbnd v Hv) as [Hlow Hup].
      simpl in Hlow, Hup. rewrite but_dummy_real in Hup. by rewrite Hperm. }
  exists order. split_and!; try done.
  - intros v Hv. destruct order as [|h t]; [done|]. simpl in Hv, Heq.
    injection Hv as <-. injection Heq as -> _. by apply (Hsel _ Hstart).
  - intros k v w Hv Hw. destruct (Hsel _ (Hnext k v w Hv Hw)) as [Ha Hxa].
    split; [done|]. rewrite (A_g num_rows num_cols H) in Ha.
    apply elem_of_arcs_of in Ha as (_ & _ & Hrule). simpl in Hrule.
    assert (v ≠ dummy_node) by (apply Hreal, list_elem_of_lookup; eauto).
    assert (w ≠ dummy_node) by (apply Hreal, list_elem_of_lookup; eauto).
    apply arc_rule_spec in Hrule as [[? _]|[[_ ?]|?]]; done.
  - intros v Hv. rewrite last_lookup in Hv.
    assert (S (pred (length order)) = length order) as Hk.
    { apply lookup_lt_Some in Hv. lia. }
    pose proof (shifted_last _ _ _ _ _ Heq Hk) as Hr.
    by apply (Hsel _ (Forall2_lookup_lr _ _ _ _ v dummy_node Hchain Hv Hr)).
  - intros k v Hv. split; [by apply Hu|].
    assert (v ∈ real_nodes num_rows num_cols H) as Hvr.
    { rewrite <-Hperm. apply list_elem_of_lookup. eauto. }
    pose proof (proj1 (elem_of_real_nodes _ _ _ _) Hvr) as (Hr & Hc & _).
    unfold print_mtz. rewrite rows_of_entry by done.
    change (row (cell v), col (cell v)) with (cell_key v).
    rewrite u_sol_lookup, but_dummy_real, decide_True by done. simpl.
    by rewrite (Hu k v Hv).
  - intros i j Hi Hj Hh. unfold print_mtz. rewrite rows_of_entry by done.
    change (i, j) with (cell_key (node i j)).
    rewrite u_sol_lookup, but_dummy_real, decide_False; [done|].
    rewrite elem_of_real_nodes. simpl. tauto.
Qed.

Lemma mtz_solution_is_visit_order_witness :
  single_spanning_cycle (A (grid_graph 1 2 [])) (create_nodes 1 2 []) (selecting tour_1x2)
  ∧ Forall (λ c, seq_origin c ∈ u_keys (formulate_mtz mtz_pulp 1 2 [])
               ∧ seq_destination c ∈ u_keys (formulate_mtz mtz_pulp 1 2 []))
           (sequence (formulate_mtz mtz_pulp 1 2 []))
  ∧ ∃ order,
      order ≡ₚ real_nodes 1 2 []
      ∧ (∀ v, head order = Some v → selecting tour_1x2 (dummy_node, v) = 1)
      ∧ (∀ k v w, order !! k = Some v → order !! S k = Some w →
                  selecting tour_1x2 (v, w) = 1 ∧ adjacent v w)
      ∧ (∀ v, last order = Some v → selecting tour_1x2 (v, dummy_node) = 1)
      ∧ (∀ k v, order !! k = Some v →
           u_1x2 v = Z.of_nat k + 1
           ∧ entry (print_mtz 1 2 [] u_1x2) (row (cell v)) (col (cell v))
             = Some (Z.of_nat k + 1))
      ∧ (∀ i j, 1 ≤ i ≤ 1 → 1 ≤ j ≤ 2 → (i, j) ∈ ([] : list (Z * Z)) →
           entry (print_mtz 1 2 [] u_1x2) i j = Some 0).
Proof.
  apply (mtz_solution_is_visit_order mtz_pulp 1 2 [] (selecting tour_1x2) u_1x2).
  by_evaluation.
Defined.

(** X11: the scripts with sequence variables lose no solution: for every
    assignment that satisfies the degree constraints and is one cycle
    through all the nodes there are values of [u], within their bounds,
    that satisfy the sequence constraints. *)
Theorem mtz_accepts_every_tour s num_rows num_cols H x tour :
  feasible x (formulate (grid_graph num_rows num_cols H) (create_nodes num_rows num_cols H)) →
  is_cycle (A (grid_graph num_rows num_cols H)) x tour →
  length tour = length (create_nodes num_rows num_cols H) →
  ∃ u, seq_feasible x u (formulate_mtz s num_rows num_cols H).
Proof.
  intros Hx Htour Hlen. pose proof (grid_one_to_one _ _ _ x Hx) as Hoto.
  destruct (seq_complete _ _ _ dummy_node Hoto (dummy_in_N num_rows num_cols H) tour
              (mtz_n s (create_nodes num_rows num_cols H))
              (binary_A _ _ _ x Hx) Htour Hlen (mtz_n_bound _ _)) as (u & _ & Hbnd & Hseq).
  exists u. split_and!.
  - by apply mtz_base_feasible.
  - simpl. rewrite but_dummy_real. apply Forall_forall. intros v Hv.
    unfold within_bounds. simpl. rewrite but_dummy_real.
    assert (length (create_nodes num_rows num_cols H)
            = S (length (real_nodes num_rows num_cols H))) as HlenN.
    { unfold create_nodes. rewrite length_app. simpl. lia. }
    destruct (Hbnd v) as [? ?]; [apply elem_of_create_nodes; by left| |lia].
    intros ->. by apply dummy_not_real in Hv.
  - done.
Qed.

Lemma mtz_accepts_every_tour_witness :
  ∃ u, seq_feasible (selecting tour_2x2) u (formulate_mtz mtz_grb 2 2 []).
Proof.
  apply (mtz_accepts_every_tour mtz_grb 2 2 [] (selecting tour_2x2) tour_2x2); by_evaluation.
Defined.

(** ** The script whose dummy node is outside [N] *)

Definition dummy_pairs (N : list Node) : list Arc :=
  node ← N; [(node, dummy_node_seq); (dummy_node_seq, node)].

Definition adjacent_from (N : list Node) (origin : Node) : list Arc :=
  destination ← N; if adjacent_rule origin destination then [(origin, destination)] else [].

Lemma adjacent_rule_spec origin destination :
  adjacent_rule origin destination = true ↔ adjacent origin destination.
Proof. unfold adjacent_rule, adjacent. repeat case_bool_decide; simpl; intuition congruence. Qed.

Lemma A_dummy_fold N g : A (foldl dummy_arcs_step g N) = A g ++ dummy_pairs N.
Proof.
  unfold dummy_pairs. revert g. induction N as [|v N IH]; intros g; csimpl.
  - by rewrite app_nil_r.
  - rewrite IH. unfold dummy_arcs_step. simpl. by rewrite <-!app_assoc.
Qed.

Lemma A_adjacent_inner N origin g :
  A (foldl (adjacent_step origin) g N) = A g ++ adjacent_from N origin.
Proof.
  unfold adjacent_from. revert g. induction N as [|t N IH]; intros g; csimpl.
  - by rewrite app_nil_r.
  - rewrite IH. unfold adjacent_step. destruct (adjacent_rule origin t); simpl.
    + by rewrite <-app_assoc.
    + done.
Qed.

Lemma A_adjacent_outer N M g :
  A (foldl (λ g origin, foldl (adjacent_step origin) g N) g M)
  = A g ++ (origin ← M; adjacent_from N origin).
Proof.
  revert g. induction M as [|o M IH]; intros g; csimpl.
  - by rewrite app_nil_r.
  - by rewrite IH, A_adjacent_inner, <-app_assoc.
Qed.

(** The arcs to and from the dummy node come first, then the arcs between
    neighbours. *)
Lemma create_arcs_seq_A N :
  A (create_arcs_seq N) = dummy_pairs N ++ (origin ← N; adjacent_from N origin).
Proof. unfold create_arcs_seq. by rewrite A_adjacent_outer, A_dummy_fold. Qed.

Lemma elem_of_create_arcs_seq N v w :
  (v, w) ∈ A (create_arcs_seq N) ↔
  (v ∈ N ∧ w = dummy_node_seq) ∨ (v = dummy_node_seq ∧ w ∈ N)
  ∨ (v ∈ N ∧ w ∈ N ∧ adjacent v w).
Proof.
  rewrite create_arcs_seq_A, elem_of_app. unfold dummy_pairs, adjacent_from.
  rewrite !list_elem_of_bind. split.
  - intros [(t & Ha & Ht)|(o & Ha & Ho)].
    + apply elem_of_cons in Ha as [Ha|Ha%list_elem_of_singleton]; simplify_eq; auto.
    + apply list_elem_of_bind in Ha as (t & Ha & Ht).
      destruct (adjacent_rule o t) eqn:E; [|by apply elem_of_nil in Ha].
      apply list_elem_of_singleton in Ha. simplify_eq.
      apply adjacent_rule_spec in E. auto.
  - intros [[Hv ->]|[[-> Hw]|(Hv & Hw & Hadj)]].
    + left. exists v. split; [by left|done].
    + left. exists w. split; [right; by left|done].
    + right. exists v. split; [|done]. apply list_elem_of_bind. exists w. split; [|done].
      apply adjacent_rule_spec in Hadj. rewrite Hadj. by left.
Qed.

Lemma store_ok_create_arcs_seq N : store_ok (create_arcs_seq N).
Proof.
  unfold create_arcs_seq.
  assert (∀ M g, store_ok g → store_ok (foldl dummy_arcs_step g M)) as Hdummy.
  { induction M as [|v M IH]; intros g Hg; simpl; [done|].
    apply IH. unfold dummy_arcs_step. by do 2 apply store_ok_add_arc. }
  assert (∀ o M g, store_ok g → store_ok (foldl (adjacent_step o) g M)) as Hinner.
  { intros o. induction M as [|t M IH]; intros g Hg; simpl; [done|].
    apply IH. unfold adjacent_step. destruct (adjacent_rule o t); [|done].
    by apply store_ok_add_arc. }
  generalize (Hdummy N empty_graph store_ok_empty).
  generalize (foldl dummy_arcs_step empty_graph N). generalize N at 1.
  intros M. induction N as [|o N IH]; intros g Hg; simpl; [done|].
  apply IH. by apply Hinner.
Qed.

Lemma dummy_seq_not_real num_rows num_cols H :
  dummy_node_seq ∉ real_nodes num_rows num_cols H.
Proof. rewrite elem_of_real_nodes. simpl. lia. Qed.

Lemma nodes_seq_NoDup num_rows num_cols H : NoDup (nodes_seq num_rows num_cols H).
Proof.
  unfold nodes_seq. apply NoDup_app. split_and!.
  - apply real_nodes_NoDup.
  - intros v Hv ->%list_elem_of_singleton. by apply dummy_seq_not_real in Hv.
  - apply NoDup_singleton.
Qed.

Lemma adjacent_irrefl v : ¬ adjacent v v.
Proof. unfold adjacent. lia. Qed.

Lemma seq_one_to_one num_rows num_cols H x :
  feasible x (base (formulate_seq num_rows num_cols H)) →
  one_to_one (nodes_seq num_rows num_cols H)
             (A (create_arcs_seq (real_nodes num_rows num_cols H))) x.
Proof.
  apply feasible_one_to_one.
  - apply store_ok_create_arcs_seq.
  - apply nodes_seq_NoDup.
  - intros v w Ha. pose proof (dummy_seq_not_real num_rows num_cols H) as Hd.
    unfold nodes_seq. rewrite !elem_of_app, !list_elem_of_singleton.
    apply elem_of_create_arcs_seq in Ha as [[Hv ->]|[[-> Hw]|(Hv & Hw & Hadj)]].
    + split_and!; auto. by intros ->.
    + split_and!; auto. by intros <-.
    + split_and!; auto. intros ->. by apply adjacent_irrefl in Hadj.
Qed.

Lemma print_seq_shown num_rows num_cols H u i j :
  1 ≤ i ≤ num_rows → 1 ≤ j ≤ num_rows →
  shown_at (print_seq num_rows num_cols H u) i j
  = Some (if decide (node i j ∈ real_nodes num_rows num_cols H)
          then Num (u (node i j)) else X_mark).
Proof.
  intros Hi Hj. unfold shown_at, print_seq, range.
  rewrite list_lookup_fmap, (lookup_seqZ_lt _ _ _) by lia. simpl.
  rewrite list_lookup_fmap, (lookup_seqZ_lt _ _ _) by lia. simpl.
  replace (1 + Z.of_nat (Z.to_nat (i - 1))) with i by lia.
  replace (1 + Z.of_nat (Z.to_nat (j - 1))) with j by lia.
  change (i, j) with (cell_key (node i j)). rewrite u_sol_lookup.
  by destruct (decide _).
Qed.

Lemma print_seq_width num_rows num_cols H u i j :
  num_rows < j → shown_at (print_seq num_rows num_cols H u) i j = None.
Proof.
  intros Hj. unfold shown_at, print_seq, range. rewrite list_lookup_fmap.
  destruct (seqZ 1 (num_rows + 1 - 1) !! Z.to_nat (i - 1)); [|done]. simpl.
  rewrite list_lookup_fmap, lookup_seqZ_ge; [done|]. lia.
Qed.

(** X12: the script with sequence variables whose dummy node is outside
    [N].  Every solution of its model is one cycle through all the nodes;
    along that cycle, from the dummy node on, each cell is next to its
    predecessor on the grid and has a larger [u], and no [u] exceeds the
    place of its cell.  The rows that are printed are as many and as long
    as the grid has rows: a cell in one of the first [num_rows] columns
    shows its [u], or X if it is a hole or outside the grid, and the cells
    of later columns are not printed. *)
Theorem seq_solution_is_increasing num_rows num_cols H x u :
  seq_feasible x u (formulate_seq num_rows num_cols H) →
  single_spanning_cycle (A (create_arcs_seq (real_nodes num_rows num_cols H)))
                        (nodes_seq num_rows num_cols H) x
  ∧ (∃ order,
      order ≡ₚ real_nodes num_rows num_cols H
      ∧ (∀ v, head order = Some v → x (dummy_node_seq, v) = 1)
      ∧ (∀ k v w, order !! k = Some v → order !! S k = Some w →
                  x (v, w) = 1 ∧ adjacent v w ∧ u v < u w)
      ∧ (∀ v, last order = Some v → x (v, dummy_node_seq) = 1)
      ∧ (∀ k v, order !! k = Some v → u v ≤ Z.of_nat k + 1))
  ∧ (∀ i j, 1 ≤ i ≤ num_rows → 1 ≤ j ≤ num_rows →
       shown_at (print_seq num_rows num_cols H u) i j
       = Some (if decide (node i j ∈ real_nodes num_rows num_cols H)
               then Num (u (node i j)) else X_mark))
  ∧ (∀ i j, num_rows < j → shown_at (print_seq num_rows num_cols H u) i j = None).
Proof.
  intros (Hx & Hbnd & Hseq). pose proof (seq_one_to_one _ _ _ x Hx) as Hoto.
  assert (dummy_node_seq ∈ nodes_seq num_rows num_cols H) as Hd.
  { unfold nodes_seq. apply elem_of_app. right. by left. }
  cbn [formulate_seq sequence u_keys] in Hbnd, Hseq. rewrite Forall_forall in Hbnd.
  pose proof (seq_single_spanning _ _ _ _ Hoto Hd u _ Hseq) as Hs.
  split; [done|]. split; [|split; [apply print_seq_shown|apply print_seq_width]].
  destruct Hs as [(tour & Htour & Hlen) _].
  pose proof (proj1 (oto_cycle_spanning _ _ _ Hoto tour Htour) Hlen) as Hall.
  destruct (oto_tour_order _ _ _ Hoto dummy_node_seq tour Hd Htour (Hall _ Hd))
    as (start & order & rest & Heq & Hchain & Hstart & Hnd & Hin & Hlo).
  pose proof Htour as (_ & Hsel & _). rewrite Forall_forall in Hsel.
  pose proof (dummy_seq_not_real num_rows num_cols H) as Hdr.
  assert (order ≡ₚ real_nodes num_rows num_cols H) as Hperm.
  { apply NoDup_Permutation; [done|apply real_nodes_NoDup|]. intros v. rewrite Hin. split.
    - intros [Hv Hne]. apply (oto_cycle_nodes _ _ _ Hoto tour Htour) in Hv.
      unfold nodes_seq in Hv. apply elem_of_app in Hv as [?|Hv]; [done|].
      by apply list_elem_of_singleton in Hv.
    - intros Hv. split; [|by intros ->]. apply Hall. unfold nodes_seq.
      apply elem_of_app. by left. }
  assert (∀ k v w, order !! k = Some v → order !! S k = Some w → (v, w) ∈ tour) as Hnext.
  { intros k v w Hv Hw. pose proof (shifted_next _ _ _ _ k w Heq Hw) as Hr.
    apply (Forall2_lookup_lr _ _ _ k v w Hchain Hv Hr). }
  assert (∀ v, v ∈ order → v ≠ dummy_node_seq) as Hreal by (by intros v [_ ?]%Hin).
  assert (∀ k v w, order !! k = Some v → order !! S k = Some w → u v + 1 ≤ u w) as Hstep.
  { intros k v w Hv Hw. destruct (Hsel _ (Hnext k v w Hv Hw)) as [Ha Hxa].
    apply (seq_step _ _ dummy_node_seq u _ Hseq); try done.
    - apply Hreal, list_elem_of_lookup. eauto.
    - apply Hreal, list_elem_of_lookup. eauto. }
  exists order. split_and!; try done.
  - intros v Hv. destruct order as [|h t]; [done|]. simpl in Hv, Heq.
    injection Hv as <-. injection Heq as -> _. by apply (Hsel _ Hstart).
  - intros k v w Hv Hw. destruct (Hsel _ (Hnext k v w Hv Hw)) as [Ha Hxa].
    split_and!; [done| |pose proof (Hstep k v w Hv Hw); lia].
    assert (v ≠ dummy_node_seq) by (apply Hreal, list_elem_of_lookup; eauto).
    assert (w ≠ dummy_node_seq) by (apply Hreal, list_elem_of_lookup; eauto).
    apply elem_of_create_arcs_seq in Ha as [[_ ?]|[[? _]|(_ & _ & ?)]]; done.
  - intros v Hv. rewrite last_lookup in Hv.
    assert (S (pred (length order)) = length order) as Hk.
    { apply lookup_lt_Some in Hv. lia. }
    pose proof (shifted_last _ _ _ _ _ Heq Hk) as Hr.
    by apply (Hsel _ (Forall2_lookup_lr _ _ _ _ v dummy_node_seq Hchain Hv Hr)).
  - intros k v Hv. pose proof (lookup_lt_Some _ _ _ Hv) as Hk.
    destruct (lookup_lt_is_Some_2 order (length order - 1)) as [vl Hvl]; [lia|].
    assert (order !! (k + (length order - 1 - k))%nat = Some vl) as Hvl'.
    { by replace (k + (length order - 1 - k))%nat with (length order - 1)%nat by lia. }
    pose proof (chain_bounds u order Hstep _ k v vl Hv Hvl') as Hup.
    assert (vl ∈ real_nodes num_rows num_cols H) as Hl.
    { rewrite <-Hperm. apply list_elem_of_lookup. eauto. }
    destruct (Hbnd vl) as [_ Hm]; [apply elem_of_app; by left|].
    cbn [formulate_seq u_upBound] in Hm. rewrite <-Hperm in Hm. lia.
Qed.

Lemma seq_solution_is_increasing_witness :
  single_spanning_cycle (A (create_arcs_seq (real_nodes 1 2 [])))
                        (nodes_seq 1 2 []) (selecting tour_seq_1x2)
  ∧ (∃ order,
      order ≡ₚ real_nodes 1 2 []
      ∧ (∀ v, head order = Some v → selecting tour_seq_1x2 (dummy_node_seq, v) = 1)
      ∧ (∀ k v w, order !! k = Some v → order !! S k = Some w →
                  selecting tour_seq_1x2 (v, w) = 1 ∧ adjacent v w
                  ∧ u_seq_1x2 v < u_seq_1x2 w)
      ∧ (∀ v, last order = Some v → selecting tour_seq_1x2 (v, dummy_node_seq) = 1)
      ∧ (∀ k v, order !! k = Some v → u_seq_1x2 v ≤ Z.of_nat k + 1))
  ∧ (∀ i j, 1 ≤ i ≤ 1 → 1 ≤ j ≤ 1 →
       shown_at (print_seq 1 2 [] u_seq_1x2) i j
       = Some (if decide (node i j ∈ real_nodes 1 2 [])
               then Num (u_seq_1x2 (node i j)) else X_mark))
  ∧ (∀ i j, 1 < j → shown_at (print_seq 1 2 [] u_seq_1x2) i j = None).
Proof.
  apply (seq_solution_is_increasing 1 2 [] (selecting tour_seq_1x2) u_seq_1x2).
  by_evaluation.
Defined.

(** X13: that script loses no solution either: for every assignment that
    satisfies its degree constraints and is one cycle through all its nodes
    there are values of [u], within their bound, that satisfy its sequence
    constraints. *)
Theorem seq_accepts_every_tour num_rows num_cols H x tour :
  feasible x (base (formulate_seq num_rows num_cols H)) →
  is_cycle (A (create_arcs_seq (real_nodes num_rows num_cols H))) x tour →
  length tour = length (nodes_seq num_rows num_cols H) →
  ∃ u, seq_feasible x u (formulate_seq num_rows num_cols H).
Proof.
  intros Hx Htour Hlen. pose proof (seq_one_to_one _ _ _ x Hx) as Hoto.
  assert (dummy_node_seq ∈ nodes_seq num_rows num_cols H) as Hd.
  { unfold nodes_seq. apply elem_of_app. right. by left. }
  assert (length (nodes_seq num_rows num_cols H)
          = S (length (real_nodes num_rows num_cols H))) as HlenN.
  { unfold nodes_seq. rewrite length_app. simpl. lia. }
  destruct (seq_complete _ _ _ dummy_node_seq Hoto Hd tour
              (Z.of_nat (length (real_nodes num_rows num_cols H)) + 1))
    as (u & Hud & Hbnd & Hseq); try done.
  { destruct Hx as [Hb _]. cbn [formulate_seq base] in Hb.
    by rewrite formulate_vars in Hb. }
  { lia. }
  exists u. split_and!; [done| |done].
  cbn [formulate_seq u_keys]. apply Forall_app. split.
  - apply Forall_forall. intros v Hv. split; [done|]. cbn [formulate_seq u_upBound].
    destruct (Hbnd v) as [_ ?]; [apply elem_of_app; by left| |lia].
    intros ->. by apply dummy_seq_not_real in Hv.
  - apply Forall_singleton. split; [done|]. cbn [formulate_seq u_upBound]. lia.
Qed.

Lemma seq_accepts_every_tour_witness :
  ∃ u, seq_feasible (selecting tour_seq_1x2) u (formulate_seq 1 2 []).
Proof.
  apply (seq_accepts_every_tour 1 2 [] (selecting tour_seq_1x2) tour_seq_1x2); by_evaluation.
Defined.

Lemma create_arcs_seq_NoDup N :
  NoDup N → dummy_node_seq ∉ N → NoDup (A (create_arcs_seq N)).
Proof.
  intros HN Hd. rewrite create_arcs_seq_A. apply NoDup_app. split_and!.
  - unfold dummy_pairs. apply NoDup_bind; [| |done].
    + intros v1 v2 a _ _ H1 H2.
      apply elem_of_cons in H1 as [H1|H1%list_elem_of_singleton],
        H2 as [H2|H2%list_elem_of_singleton]; by simplify_eq.
    + intros v Hv. apply NoDup_cons. split; [|apply NoDup_singleton].
      intros [= -> _]%list_elem_of_singleton. done.
  - intros [v w] Hdum Hadj. unfold dummy_pairs in Hdum.
    apply list_elem_of_bind in Hdum as (t & Ha & Ht).
    apply list_elem_of_bind in Hadj as (o & Ha' & Ho). unfold adjacent_from in Ha'.
    apply list_elem_of_bind in Ha' as (t' & Ha' & Ht').
    destruct (adjacent_rule o t'); [|by apply elem_of_nil in Ha'].
    apply list_elem_of_singleton in Ha'.
    apply elem_of_cons in Ha as [Ha|Ha%list_elem_of_singleton]; simplify_eq; done.
  - apply NoDup_bind; [| |done].
    + intros o1 o2 a _ _ H1 H2. unfold adjacent_from in H1, H2.
      apply list_elem_of_bind in H1 as (t1 & H1 & _), H2 as (t2 & H2 & _).
      destruct (adjacent_rule o1 t1); [|by apply elem_of_nil in H1].
      destruct (adjacent_rule o2 t2); [|by apply elem_of_nil in H2].
      apply list_elem_of_singleton in H1, H2. congruence.
    + intros o _. unfold adjacent_from. apply NoDup_bind; [| |done].
      * intros t1 t2 a _ _ H1 H2.
        destruct (adjacent_rule o t1); [|by apply elem_of_nil in H1].
        destruct (adjacent_rule o t2); [|by apply elem_of_nil in H2].
        apply list_elem_of_singleton in H1, H2. congruence.
      * intros t _. destruct (adjacent_rule o t); [apply NoDup_singleton|apply NoDup_nil_2].
Qed.

(** X14: the arcs of the script whose dummy node is outside [N]: an arc
    joins each cell that is not a hole to the dummy node and back, and two
    such cells exactly when they are neighbours on the grid; no arc is
    created twice, the arcs to and from the dummy node come first in [A],
    and the per-node lists hold the arcs of [A] that leave, respectively
    enter, the node, in the order of [A]. *)
Theorem create_arcs_seq_spec num_rows num_cols H :
  (∀ v w, (v, w) ∈ A (create_arcs_seq (real_nodes num_rows num_cols H)) ↔
          (v ∈ real_nodes num_rows num_cols H ∧ w = dummy_node_seq)
          ∨ (v = dummy_node_seq ∧ w ∈ real_nodes num_rows num_cols H)
          ∨ (v ∈ real_nodes num_rows num_cols H ∧ w ∈ real_nodes num_rows num_cols H
             ∧ adjacent v w))
  ∧ NoDup (A (create_arcs_seq (real_nodes num_rows num_cols H)))
  ∧ (∃ between,
       A (create_arcs_seq (real_nodes num_rows num_cols H))
       = (node ← real_nodes num_rows num_cols H;
          [(node, dummy_node_seq); (dummy_node_seq, node)]) ++ between
       ∧ Forall (λ a, a.1 ≠ dummy_node_seq ∧ a.2 ≠ dummy_node_seq) between)
  ∧ (∀ v, ongoing_arcs (create_arcs_seq (real_nodes num_rows num_cols H)) !!! v
          = filter (λ a, a.1 = v) (A (create_arcs_seq (real_nodes num_rows num_cols H)))
        ∧ incoming_arcs (create_arcs_seq (real_nodes num_rows num_cols H)) !!! v
          = filter (λ a, a.2 = v) (A (create_arcs_seq (real_nodes num_rows num_cols H)))).
Proof.
  pose proof (dummy_seq_not_real num_rows num_cols H) as Hd. split_and!.
  - apply elem_of_create_arcs_seq.
  - apply create_arcs_seq_NoDup; [apply real_nodes_NoDup|done].
  - eexists. split; [apply create_arcs_seq_A|]. apply Forall_forall.
    intros [v w] (o & Ha & Ho)%list_elem_of_bind. unfold adjacent_from in Ha.
    apply list_elem_of_bind in Ha as (t & Ha & Ht).
    destruct (adjacent_rule o t); [|by apply elem_of_nil in Ha].
    apply list_elem_of_singleton in Ha. simplify_eq. simpl. split; by intros ->.
  - apply store_ok_create_arcs_seq.
Qed.

(** ** The iterative scripts from the loop to the printed rows *)

Section EndToEnd.
Context (num_rows num_cols : Z) (H : list (Z * Z)) (solve : Model → assignment).
Context (fuel : nat).
Local Abbreviation N := (create_nodes num_rows num_cols H).
Local Abbreviation g := (grid_graph num_rows num_cols H).
Hypothesis Hsolve : ∀ mdl, feasible (solve mdl) (formulate g N).
Hypothesis Hfuel : (length N ≤ fuel)%nat.

(** Between two passes, either [tour_length] is below [n], or it is the
    length of the cycle that [subtour] finds in the values the last solve
    left. *)
Definition loop_inv (st : LoopState) : Prop :=
  (st_tour_length st < length N)%nat
  ∨ ∃ tour, subtour (A g) (solve (st_mdl st)) fuel = Returned tour
            ∧ length tour = st_tour_length st.

Lemma iteration_inv s st st' :
  iteration (A g) (length N) s fuel (solve (st_mdl st)) st = Returned st' → loop_inv st'.
Proof.
  unfold iteration.
  destruct (subtour (A g) (solve (st_mdl st)) fuel) as [tour| |] eqn:Hret; [|done..].
  destruct (print_line s _) as [[]| |]; [|done..]. intros [= <-].
  unfold cut. destruct (_ && _) eqn:Hguard; simpl.
  - left. simpl. apply andb_true_iff in Hguard as [Hlt%bool_decide_eq_true _]. done.
  - right. exists tour. by split.
Qed.

Lemma loop_inv_final s budget st st' :
  loop_inv st →
  elimination_loop (A g) (length N) solve s budget fuel st = Returned st' →
  ∃ tour, subtour (A g) (solve (st_mdl st')) fuel = Returned tour
          ∧ (length N ≤ length tour)%nat.
Proof.
  revert st. induction budget as [|budget IH]; intros st Hinv; simpl.
  - case_bool_decide as Hlt; [done|]. intros [= <-].
    destruct Hinv as [?|(tour & Hret & Hlen)]; [done|]. exists tour. split; [done|lia].
  - case_bool_decide as Hlt.
    + destruct (iteration _ _ _ _ _ _) as [st1| |] eqn:Hit; [|done..].
      apply IH. by apply (iteration_inv s st).
    + intros [= <-].
      destruct Hinv as [?|(tour & Hret & Hlen)]; [done|]. exists tour. split; [done|lia].
Qed.

(** When the loop ends, the assertion holds and the rows are printed. *)
Lemma loop_then_print s budget st' :
  elimination_loop (A g) (length N) solve s budget fuel
    (initial_state (formulate g N)) = Returned st' →
  ∃ tour, accepted_tour (A g) (length N) solve fuel (st_mdl st') = Returned tour
          ∧ is_cycle (A g) (solve (st_mdl st')) tour
          ∧ dummy_node ∈ tour.*1
          ∧ length tour = length N.
Proof.
  intros Hloop.
  destruct (loop_inv_final s budget (initial_state (formulate g N)) st')
    as (tour & Hret & Hlen); [|done|].
  { left. simpl. pose proof (dummy_in_N num_rows num_cols H) as Hd.
    destruct (create_nodes num_rows num_cols H); [by apply elem_of_nil in Hd|simpl; lia]. }
  destruct (subtour_dummy_cycle _ _ _ _ (Hsolve (st_mdl st')))
    as (tour' & Hret' & Hcyc & Hlast & _ & _).
  rewrite (Hret' fuel Hfuel) in Hret. injection Hret as ->.
  pose proof (oto_cycle_length_le _ _ _ (grid_one_to_one _ _ _ _ (Hsolve (st_mdl st')))
                tour Hcyc) as Hle.
  exists tour. split_and!; try done.
  - unfold accepted_tour. rewrite (Hret' fuel Hfuel).
    rewrite bool_decide_eq_true_2; [done|]. lia.
  - by apply last_Some_elem_of.
  - lia.
Qed.
End EndToEnd.

(** X15: the iterative scripts from the loop to the printed rows.  When
    every solve returns a candidate that satisfies the degree constraints
    and the loop ends, the assertion [len(tour) == n] holds and the rows are
    printed, and they are a solution of the puzzle: the cells that are not
    holes are numbered 1, 2, ... without gap or repetition, each next to its
    predecessor on the grid, and the holes show 0. *)
Theorem iterative_script_prints_solution num_rows num_cols H solve s budget fuel st' :
  (∀ mdl, feasible (solve mdl)
            (formulate (grid_graph num_rows num_cols H) (create_nodes num_rows num_cols H))) →
  (length (create_nodes num_rows num_cols H) ≤ fuel)%nat →
  elimination_loop (A (grid_graph num_rows num_cols H))
    (length (create_nodes num_rows num_cols H)) solve s budget fuel
    (initial_state (formulate (grid_graph num_rows num_cols H)
                              (create_nodes num_rows num_cols H))) = Returned st' →
  ∃ tour order rows,
    accepted_tour (A (grid_graph num_rows num_cols H))
      (length (create_nodes num_rows num_cols H)) solve fuel (st_mdl st') = Returned tour
    ∧ print_tour num_rows num_cols tour fuel = Returned rows
    ∧ order ≡ₚ real_nodes num_rows num_cols H
    ∧ (∀ k v w, order !! k = Some v → order !! S k = Some w → adjacent v w)
    ∧ (∀ k v, order !! k = Some v →
         entry rows (row (cell v)) (col (cell v)) = Some (Z.of_nat k + 1))
    ∧ (∀ i j, 1 ≤ i ≤ num_rows → 1 ≤ j ≤ num_cols → (i, j) ∈ H →
         entry rows i j = Some 0).
Proof.
  intros Hsolve Hfuel Hloop.
  destruct (loop_then_print _ _ _ solve fuel Hsolve Hfuel s budget st' Hloop)
    as (tour & Hacc & Hcyc & Hd & Hlen).
  destruct (print_tour_grid num_rows num_cols H _ tour fuel (Hsolve (st_mdl st')) Hcyc Hd)
    as (order & rows & Hprint & Hnd & Hin & _ & Hnext & Hentry & Hperm); [lia|].
  specialize (Hperm Hlen). exists tour, order, rows. split_and!; try done.
  - intros k v w Hv Hw. by destruct (Hnext k v w Hv Hw).
  - intros k v Hv.
    assert (v ∈ real_nodes num_rows num_cols H) as Hvr.
    { rewrite <-Hperm. apply list_elem_of_lookup. eauto. }
    pose proof (proj1 (elem_of_real_nodes _ _ _ _) Hvr) as (Hr & Hc & _).
    destruct (Hentry _ _ Hr Hc) as [Hnum _]. apply Hnum.
    by destruct v as [[? ?]].
  - intros i j Hi Hj Hh. destruct (Hentry i j Hi Hj) as [_ Hzero]. apply Hzero.
    rewrite Hperm, elem_of_real_nodes. simpl. tauto.
Qed.

Lemma iterative_script_prints_solution_witness :
  let mdl := formulate (grid_graph 2 2 []) (create_nodes 2 2 []) in
  let mdl' := addConstraint mdl (elimination_constraint (A (grid_graph 2 2 [])) dummy_cycle_2x2) in
  ∃ tour order rows,
    accepted_tour (A (grid_graph 2 2 [])) (length (create_nodes 2 2 [])) solve_2x2 5 mdl'
    = Returned tour
    ∧ print_tour 2 2 tour 5 = Returned rows
    ∧ order ≡ₚ real_nodes 2 2 []
    ∧ (∀ k v w, order !! k = Some v → order !! S k = Some w → adjacent v w)
    ∧ (∀ k v, order !! k = Some v →
         entry rows (row (cell v)) (col (cell v)) = Some (Z.of_nat k + 1))
    ∧ (∀ i j, 1 ≤ i ≤ 2 → 1 ≤ j ≤ 2 → (i, j) ∈ ([] : list (Z * Z)) →
         entry rows i j = Some 0).
Proof.
  intros mdl mdl'.
  apply (iterative_script_prints_solution 2 2 [] solve_2x2 calling_pulp 2 5
           (mkState mdl' 5 (Some (dummy_cycle_2x2.*1)))).
  - intros m. unfold solve_2x2. case_bool_decide; by_evaluation.
  - by_evaluation.
  - vm_compute. reflexivity.
Defined.

(** ** The form of the elimination constraints that are generated *)

(** The form of an elimination constraint for a candidate [x]: for a cycle
    of [x], the variables of all the arcs of [A] with both ends among the
    nodes of the cycle, each once, sum to at most the length of the cycle
    minus one. *)
Definition within_subtour_form (A_ : list Arc) (x : assignment) (c : LpConstraint) : Prop :=
  ∃ tour,
    is_cycle A_ x tour
    ∧ rel c = LE ∧ rhs c = Z.of_nat (length tour) - 1
    ∧ (∀ a, a ∈ terms c ↔ a ∈ A_ ∧ a.1 ∈ tour.*1 ∧ a.2 ∈ tour.*1)
    ∧ NoDup (terms c).

Lemma elimination_constraint_within num_rows num_cols H x tour :
  is_cycle (A (grid_graph num_rows num_cols H)) x tour →
  within_subtour_form (A (grid_graph num_rows num_cols H)) x
    (elimination_constraint (A (grid_graph num_rows num_cols H)) tour).
Proof.
  intros Hcyc. exists tour. pose proof Hcyc as (_ & _ & _ & Hnd).
  destruct (elimination_constraint_form_aux num_rows num_cols H tour Hnd) as [Hin Hndt].
  by split_and!.
Qed.

Lemma subtour_edges_pair n A_ x fuel :
  (n + 2 < fuel)%nat →
  subtour_edges n (selected_edges A_ x) fuel = Done [(Int 0%nat, Int 0%nat)].
Proof.
  intros Hfuel. unfold subtour_edges.
  by rewrite (subtour_edges_cycle _ (selected_edges_obj A_ x) n fuel Hfuel).
Qed.

(** C3: every elimination constraint that is generated for a candidate
    that satisfies the degree constraints has the claimed form.  A pass of
    the loop of the iterative scripts leaves the constraints as they are or
    appends one constraint of that form; a constraint that the callback of
    the tuple-based script hands to the solver has that form; and the
    callback of the class-based script, whose [subtour] walks integers over
    edges between [Node] objects, hands none to the solver. *)
Theorem generated_constraints_have_form num_rows num_cols H x fuel :
  feasible x (formulate (grid_graph num_rows num_cols H) (create_nodes num_rows num_cols H)) →
  (length (create_nodes num_rows num_cols H) + 2 < fuel)%nat →
  (∀ s st st',
     iteration (A (grid_graph num_rows num_cols H))
               (length (create_nodes num_rows num_cols H)) s fuel x st = Returned st' →
     constraints (st_mdl st') = constraints (st_mdl st)
     ∨ ∃ c, constraints (st_mdl st') = constraints (st_mdl st) ++ [c]
            ∧ within_subtour_form (A (grid_graph num_rows num_cols H)) x c)
  ∧ (∀ c, callback_2 (A (grid_graph num_rows num_cols H))
                     (length (create_nodes num_rows num_cols H)) x fuel = Returned (Some c) →
          within_subtour_form (A (grid_graph num_rows num_cols H)) x c)
  ∧ subtourelim_edges (A (grid_graph num_rows num_cols H))
                      (length (create_nodes num_rows num_cols H)) x fuel = Done None.
Proof.
  intros Hx Hfuel. split_and!.
  - intros s st st'. unfold iteration.
    destruct (subtour_dummy_cycle _ _ _ _ Hx) as (tour & Hret & Hcyc & _).
    rewrite (Hret fuel) by lia.
    destruct (print_line s _) as [[]| |]; [|done..]. intros [= <-].
    unfold cut. destruct (_ && _); simpl; [|by left].
    right. eexists. split; [done|]. by apply elimination_constraint_within.
  - intros c. unfold callback_2.
    destruct (subtour_2_cycle _ _ _ x Hx) as (cycle & Hret & Hcyc & _).
    rewrite (Hret fuel) by lia. unfold subtour_constraint, lazy_cut.
    destruct (_ && _); [|done]. intros [= <-]. by apply elimination_constraint_within.
  - unfold subtourelim_edges. rewrite subtour_edges_pair by done.
    change (length [(Int 0%nat, Int 0%nat)]) with 1%nat.
    rewrite (bool_decide_eq_false_2 (1 < 1)%nat) by lia. by rewrite andb_false_r.
Qed.

Lemma generated_constraints_have_form_witness :
  (∀ s st st',
     iteration (A (grid_graph 2 3 [])) (length (create_nodes 2 3 [])) s 10 x_2x3 st
     = Returned st' →
     constraints (st_mdl st') = constraints (st_mdl st)
     ∨ ∃ c, constraints (st_mdl st') = constraints (st_mdl st) ++ [c]
            ∧ within_subtour_form (A (grid_graph 2 3 [])) x_2x3 c)
  ∧ (∀ c, callback_2 (A (grid_graph 2 3 [])) (length (create_nodes 2 3 [])) x_2x3 10
          = Returned (Some c) →
          within_subtour_form (A (grid_graph 2 3 [])) x_2x3 c)
  ∧ subtourelim_edges (A (grid_graph 2 3 [])) (length (create_nodes 2 3 [])) x_2x3 10
    = Done None.
Proof. apply (generated_constraints_have_form 2 3 [] x_2x3 10); by_evaluation. Defined.
